(** * TranslatorTool: a shallow embedding of [Translator.py]

    The translator turns a small constant-definition language into flat
    [key = value] text.  This development embeds the four stages of the
    program (lexer, recursive-descent parser, evaluator, serializer) and its
    driver as Rocq functions, and proves properties of them.

    Conventions of the embedding.
    - A Python [str] is a [string]; its characters are the code points below
      256, on which the character classes [\d], [[A-Z]], [[ \t\n]] and [.] of
      the token table, and [str.lower], are the ones defined below.
    - A Python [int] is a [Z].
    - [raise] is the [Raise] outcome of the [result] type; [str(e)] is
      [exn_str].
    - The loops of the lexer and the recursive methods of the parser take a
      fuel argument; [None] means that the fuel ran out.  The fuel computed by
      [lex] and [Parser.parse] is shown to be enough, so [None] never
      escapes.
    - Python floats (the value of [int ** negative int]) are kept abstract:
      the evaluator is parametrised by the arithmetic of the interpreter on
      non-integer numbers.
    - By default the interpreter refuses a conversion between [int] and
      [str] of more than 4300 digits.  The stages are embedded twice: with
      the limit lifted ([Py.int], [py_str], [Parser.parse], [to_toml],
      [main]), and under the limit ([Module Limited]), where [int] in the
      parser and [str] in the serializer can raise.
    - Other limits of the interpreter (recursion depth, memory) and file
      input/output are not part of the embedding. *)

From Stdlib Require Import String Ascii List ZArith Lia Bool Arith.
From Stdlib Require Import Decimal DecimalString.
From Stdlib Require DecimalPos DecimalZ.
Import ListNotations.

Open Scope list_scope.
Open Scope string_scope.

(* ================================================================= *)
(** ** Python values and exceptions *)

(** Exceptions raised by the interpreter itself. *)
Inductive builtin_class :=
| AttributeError | TypeError | ZeroDivisionError | OverflowError | ValueError.

(** [Exception msg] is [raise Exception(msg)], the only [raise] form of the
    source; [Builtin cls msg] is an exception of class [cls] raised by the
    interpreter.  Every class here derives from [Exception], so the driver's
    [except Exception] catches all of them. *)
Inductive exn :=
| Exception (msg : string)
| Builtin (cls : builtin_class) (msg : string).

(** [str(e)] *)
Definition exn_str (e : exn) : string :=
  match e with
  | Exception msg => msg
  | Builtin _ msg => msg
  end.

Inductive result (A : Type) :=
| Ok (a : A)
| Raise (e : exn).
Arguments Ok {A} a.
Arguments Raise {A} e.

Definition bind {A B} (r : result A) (k : A -> result B) : result B :=
  match r with
  | Ok a => k a
  | Raise e => Raise e
  end.

Declare Scope py_scope.
Delimit Scope py_scope with py.
Notation "x <- r ;; k" := (bind r (fun x => k))
  (at level 61, r at next level, right associativity) : py_scope.

(* ================================================================= *)
(** ** Strings *)

Module Py.

(** [str(n)] for a non-negative index or length *)
Definition str_of_nat (n : nat) : string :=
  NilZero.string_of_uint (Nat.to_uint n).

(** [str(z)] and [repr(z)] of an int: base 10, a leading [-] when negative *)
Definition str_of_int (z : Z) : string :=
  NilZero.string_of_int (Z.to_int z).

Definition is_digit (c : ascii) : bool :=
  (48 <=? nat_of_ascii c)%nat && (nat_of_ascii c <=? 57)%nat.

Definition is_upper (c : ascii) : bool :=
  (65 <=? nat_of_ascii c)%nat && (nat_of_ascii c <=? 90)%nat.

Definition newline : ascii := ascii_of_nat 10.
Definition tab : ascii := ascii_of_nat 9.

(** [[ \t\n]] *)
Definition is_ws (c : ascii) : bool :=
  Ascii.eqb c " " || Ascii.eqb c tab || Ascii.eqb c newline.

(** [.] without DOTALL: anything but a line feed *)
Definition is_dot (c : ascii) : bool := negb (Ascii.eqb c newline).

Definition digit_val (c : ascii) : Z := Z.of_nat (nat_of_ascii c) - 48.

Fixpoint int_digits (acc : Z) (s : string) : Z :=
  match s with
  | EmptyString => acc
  | String c s' => int_digits (10 * acc + digit_val c) s'
  end.

(** [int(s)] on a string of decimal digits, the only strings the parser
    converts (the text of a NUMBER token) *)
Definition int (s : string) : Z := int_digits 0 s.

(** [c.lower()] on one character: [A-Z], and the upper-case letters of the
    Latin-1 block (all of U+00C0..U+00DE but the multiplication sign) *)
Definition lower_char (c : ascii) : ascii :=
  let n := nat_of_ascii c in
  if ((65 <=? n) && (n <=? 90))%nat
     || ((192 <=? n) && (n <=? 222) && negb (n =? 215))%nat
  then ascii_of_nat (n + 32)
  else c.

(** [s.lower()] *)
Fixpoint lower (s : string) : string :=
  match s with
  | EmptyString => EmptyString
  | String c s' => String (lower_char c) (lower s')
  end.

(** [sep.join(lines)] *)
Fixpoint join (sep : string) (lines : list string) : string :=
  match lines with
  | [] => ""
  | [l] => l
  | l :: ls => l ++ sep ++ join sep ls
  end.

(** *** The regular expressions of the token table

    [Lit s] is the literal text [s]; [Star cls] and [Plus cls] are [c*] and
    [c+] for a character class; [Cat] is concatenation.  [re_match r s] is
    [re.compile(r).match(text, pos)] with [s] the text from [pos] on: the
    matched text [group(0)] and what follows it.  Repetition is greedy; no
    pattern of the table needs backtracking (the only concatenation is a
    literal followed by a starred class, which cannot fail). *)
Inductive regex :=
| Lit (s : string)
| Star (cls : ascii -> bool)
| Plus (cls : ascii -> bool)
| Cat (r1 r2 : regex).

Fixpoint match_lit (lit s : string) : option string :=
  match lit with
  | EmptyString => Some s
  | String c lit' =>
      match s with
      | String d s' => if Ascii.eqb c d then match_lit lit' s' else None
      | EmptyString => None
      end
  end.

(** the longest prefix of [s] in the class, and the rest *)
Fixpoint span (cls : ascii -> bool) (s : string) : string * string :=
  match s with
  | String c s' =>
      if cls c then let (m, rest) := span cls s' in (String c m, rest)
      else (EmptyString, s)
  | EmptyString => (EmptyString, EmptyString)
  end.

Fixpoint re_match (r : regex) (s : string) : option (string * string) :=
  match r with
  | Lit lit =>
      match match_lit lit s with
      | Some rest => Some (lit, rest)
      | None => None
      end
  | Star cls => Some (span cls s)
  | Plus cls =>
      match span cls s with
      | (EmptyString, _) => None
      | (m, rest) => Some (m, rest)
      end
  | Cat r1 r2 =>
      match re_match r1 s with
      | Some (m1, rest1) =>
          match re_match r2 rest1 with
          | Some (m2, rest2) => Some (m1 ++ m2, rest2)
          | None => None
          end
      | None => None
      end
  end.

End Py.

(* ================================================================= *)
(** ** Lexer *)

Inductive tok_type :=
| COMMENT | NUMBER | SET | LIST | POW | ABS | IDENT | CARET
| LBRACE | RBRACE | LPAREN | RPAREN | PLUS | MINUS | COMMA | EQUAL
| SEMICOLON | WS.

Definition tok_type_eqb (a b : tok_type) : bool :=
  match a, b with
  | COMMENT, COMMENT | NUMBER, NUMBER | SET, SET | LIST, LIST | POW, POW
  | ABS, ABS | IDENT, IDENT | CARET, CARET | LBRACE, LBRACE
  | RBRACE, RBRACE | LPAREN, LPAREN | RPAREN, RPAREN | PLUS, PLUS
  | MINUS, MINUS | COMMA, COMMA | EQUAL, EQUAL | SEMICOLON, SEMICOLON
  | WS, WS => true
  | _, _ => false
  end.

(** the name of a token kind, as the messages print it *)
Definition tok_name (t : tok_type) : string :=
  match t with
  | COMMENT => "COMMENT" | NUMBER => "NUMBER" | SET => "SET"
  | LIST => "LIST" | POW => "POW" | ABS => "ABS" | IDENT => "IDENT"
  | CARET => "CARET" | LBRACE => "LBRACE" | RBRACE => "RBRACE"
  | LPAREN => "LPAREN" | RPAREN => "RPAREN" | PLUS => "PLUS"
  | MINUS => "MINUS" | COMMA => "COMMA" | EQUAL => "EQUAL"
  | SEMICOLON => "SEMICOLON" | WS => "WS"
  end.

Definition TOKEN_REGEX : list (tok_type * Py.regex) :=
  [ (COMMENT, Py.Cat (Py.Lit "*") (Py.Star Py.is_dot));
    (NUMBER, Py.Plus Py.is_digit);
    (SET, Py.Lit "set");
    (LIST, Py.Lit "list");
    (POW, Py.Lit "pow");
    (ABS, Py.Lit "abs");
    (IDENT, Py.Plus Py.is_upper);
    (CARET, Py.Lit "^");
    (LBRACE, Py.Lit "{");
    (RBRACE, Py.Lit "}");
    (LPAREN, Py.Lit "(");
    (RPAREN, Py.Lit ")");
    (PLUS, Py.Lit "+");
    (MINUS, Py.Lit "-");
    (COMMA, Py.Lit ",");
    (EQUAL, Py.Lit "=");
    (SEMICOLON, Py.Lit ";");
    (WS, Py.Plus Py.is_ws) ].

Record Token := mkToken { type : tok_type; value : string }.

(** The [for tok_type, pattern in TOKEN_REGEX] loop: the first pattern of the
    table that matches at the scan position, with the text it matched and the
    text after it. *)
Fixpoint first_match (table : list (tok_type * Py.regex)) (s : string)
  : option (tok_type * string * string) :=
  match table with
  | [] => None
  | (tok_type, pattern) :: table' =>
      match Py.re_match pattern s with
      | Some (value, rest) => Some (tok_type, value, rest)
      | None => first_match table' s
      end
  end.

Definition lex_error (c : ascii) (pos : nat) : exn :=
  Exception ("LexError: Unexpected character '" ++ String c ""
             ++ "' at position " ++ Py.str_of_nat pos).

(** The [while pos < len(text)] loop.  [s] is [text[pos:]]. *)
Fixpoint lex_loop (fuel : nat) (pos : nat) (s : string) (tokens : list Token)
  : option (result (list Token)) :=
  match s with
  | EmptyString => Some (Ok tokens)
  | String c _ =>
      match fuel with
      | O => None
      | S fuel' =>
          match first_match TOKEN_REGEX s with
          | Some (tok_type, value, rest) =>
              lex_loop fuel' (pos + String.length value) rest
                (match tok_type with
                 | WS | COMMENT => tokens
                 | _ => tokens ++ [mkToken tok_type value]
                 end)
          | None => Some (Raise (lex_error c pos))
          end
      end
  end.

Definition lex (text : string) : option (result (list Token)) :=
  lex_loop (String.length text) 0 text [].

(* ================================================================= *)
(** ** Abstract syntax

    The source builds tagged tuples; each tag is a constructor here:
    [('set', name, val)], [('number', n)], [('list', items)],
    [('const', expr)], [('num', n)], [('var', name)], [('PLUS', l, r)],
    [('MINUS', l, r)], [('pow', a, b)], [('abs', a)].  The tag set is closed,
    so the two "unexpected node" [raise] statements at the end of
    [eval_expr] and [eval_value] have no counterpart. *)

Inductive expr :=
| E_num (n : Z)
| E_var (name : string)
| E_PLUS (l r : expr)
| E_MINUS (l r : expr)
| E_pow (a b : expr)
| E_abs (a : expr).

#[warnings="-register-all"]
Inductive vnode :=
| V_number (n : Z)
| V_list (items : list vnode)
| V_const (e : expr).

Inductive stmt :=
| S_set (name : string) (val : vnode).

Definition stmt_name (st : stmt) : string :=
  match st with S_set name _ => name end.

Definition stmt_val (st : stmt) : vnode :=
  match st with S_set _ val => val end.

(* ================================================================= *)
(** ** Parser

    The parser object holds the token list and a cursor [pos] that only
    [peek] reads and only [eat] advances by one.  The state is represented by
    the unread tokens [tokens[pos:]]: [peek] is their head, [eat] drops it. *)

Module Parser.

Definition M (A : Type) : Type :=
  list Token -> option (result (A * list Token)).

Definition ret {A} (a : A) : M A := fun ts => Some (Ok (a, ts)).

Definition raise {A} (e : exn) : M A := fun _ => Some (Raise e).

Definition out_of_fuel {A} : M A := fun _ => None.

Definition mbind {A B} (m : M A) (k : A -> M B) : M B :=
  fun ts =>
    match m ts with
    | Some (Ok (a, ts')) => k a ts'
    | Some (Raise e) => Some (Raise e)
    | None => None
    end.

Notation "x <- m ;; k" := (mbind m (fun x => k))
  (at level 61, m at next level, right associativity).
Notation "m ;; k" := (mbind m (fun _ => k))
  (at level 61, right associativity).

Definition peek : M (option Token) :=
  fun ts => Some (Ok (hd_error ts, ts)).

Definition expected_error (type_ : tok_type) (tok : option Token) : exn :=
  Exception ("SyntaxError: Expected " ++ tok_name type_ ++ ", got "
             ++ match tok with
                | Some tok => tok_name (type tok)
                | None => "EOF"
                end).

Definition eat (type_ : tok_type) : M Token :=
  fun ts =>
    match ts with
    | tok :: rest =>
        if tok_type_eqb (type tok) type_ then Some (Ok (tok, rest))
        else Some (Raise (expected_error type_ (Some tok)))
    | [] => Some (Raise (expected_error type_ None))
    end.

(** [tok.type] when [peek] returned [None] *)
Definition none_type_error : exn :=
  Builtin AttributeError "'NoneType' object has no attribute 'type'".

Definition unexpected_error (tok : Token) : exn :=
  Exception ("SyntaxError: Unexpected token " ++ tok_name (type tok)).

(** The recursive methods, each with the methods it calls as a parameter. *)
Record methods := {
  m_value : M vnode;
  m_list : M vnode;
  m_list_loop : list vnode -> M (list vnode);
  m_const_expr : M vnode;
  m_expr : M expr;
  m_expr_loop : expr -> M expr;
  m_term : M expr
}.

Definition parse_value_body (self : methods) : M vnode :=
  tok <- peek ;;
  match tok with
  | None => raise none_type_error
  | Some tok =>
      if tok_type_eqb (type tok) NUMBER then
        t <- eat NUMBER ;; ret (V_number (Py.int (value t)))
      else if tok_type_eqb (type tok) LPAREN then m_list self
      else if tok_type_eqb (type tok) CARET then m_const_expr self
      else raise (unexpected_error tok)
  end.

(** [while self.peek() and self.peek().type != 'RPAREN'] *)
Definition parse_list_loop_body (self : methods) (items : list vnode)
  : M (list vnode) :=
  tok <- peek ;;
  match tok with
  | Some tok =>
      if negb (tok_type_eqb (type tok) RPAREN) then
        v <- m_value self ;; m_list_loop self (items ++ [v])
      else ret items
  | None => ret items
  end.

Definition parse_list_body (self : methods) : M vnode :=
  eat LPAREN ;;
  eat LIST ;;
  items <- m_list_loop self [] ;;
  eat RPAREN ;;
  ret (V_list items).

Definition parse_const_expr_body (self : methods) : M vnode :=
  eat CARET ;;
  eat LBRACE ;;
  e <- m_expr self ;;
  eat RBRACE ;;
  ret (V_const e).

(** [while self.peek() and self.peek().type in ('PLUS','MINUS')]; the tag of
    the node built is the kind of the operator token. *)
Definition parse_expr_loop_body (self : methods) (node : expr) : M expr :=
  tok <- peek ;;
  match tok with
  | Some tok =>
      if tok_type_eqb (type tok) PLUS then
        eat PLUS ;;
        right <- m_term self ;;
        m_expr_loop self (E_PLUS node right)
      else if tok_type_eqb (type tok) MINUS then
        eat MINUS ;;
        right <- m_term self ;;
        m_expr_loop self (E_MINUS node right)
      else ret node
  | None => ret node
  end.

Definition parse_expr_body (self : methods) : M expr :=
  node <- m_term self ;;
  m_expr_loop self node.

Definition parse_term_body (self : methods) : M expr :=
  tok <- peek ;;
  match tok with
  | None => raise none_type_error
  | Some tok =>
      if tok_type_eqb (type tok) MINUS then
        eat MINUS ;;
        term <- m_term self ;;
        ret (E_MINUS (E_num 0) term)
      else if tok_type_eqb (type tok) NUMBER then
        t <- eat NUMBER ;; ret (E_num (Py.int (value t)))
      else if tok_type_eqb (type tok) IDENT then
        eat IDENT ;; ret (E_var (value tok))
      else if tok_type_eqb (type tok) POW then
        eat POW ;;
        eat LPAREN ;;
        a <- m_expr self ;;
        eat COMMA ;;
        b <- m_expr self ;;
        eat RPAREN ;;
        ret (E_pow a b)
      else if tok_type_eqb (type tok) ABS then
        eat ABS ;;
        eat LPAREN ;;
        a <- m_expr self ;;
        eat RPAREN ;;
        ret (E_abs a)
      else raise (unexpected_error tok)
  end.

Definition no_methods : methods :=
  {| m_value := out_of_fuel;
     m_list := out_of_fuel;
     m_list_loop := fun _ => out_of_fuel;
     m_const_expr := out_of_fuel;
     m_expr := out_of_fuel;
     m_expr_loop := fun _ => out_of_fuel;
     m_term := out_of_fuel |}.

Definition unfold_methods (self : methods) : methods :=
  {| m_value := parse_value_body self;
     m_list := parse_list_body self;
     m_list_loop := parse_list_loop_body self;
     m_const_expr := parse_const_expr_body self;
     m_expr := parse_expr_body self;
     m_expr_loop := parse_expr_loop_body self;
     m_term := parse_term_body self |}.

(** The methods with [fuel] levels of calls (and loop iterations) allowed. *)
Fixpoint methods_at (fuel : nat) : methods :=
  match fuel with
  | O => no_methods
  | S fuel' => unfold_methods (methods_at fuel')
  end.

Definition parse_value (fuel : nat) : M vnode := m_value (methods_at fuel).
Definition parse_list (fuel : nat) : M vnode := m_list (methods_at fuel).
Definition parse_const_expr (fuel : nat) : M vnode :=
  m_const_expr (methods_at fuel).
Definition parse_expr (fuel : nat) : M expr := m_expr (methods_at fuel).
Definition parse_term (fuel : nat) : M expr := m_term (methods_at fuel).

Definition parse_stmt_body (self : methods) : M stmt :=
  eat SET ;;
  name <- eat IDENT ;;
  eat EQUAL ;;
  val <- m_value self ;;
  eat SEMICOLON ;;
  ret (S_set (value name) val).

Definition parse_stmt (fuel : nat) : M stmt :=
  parse_stmt_body (methods_at fuel).

(** [while self.peek(): stmts.append(self.parse_stmt())], with [iters]
    iterations allowed *)
Fixpoint parse_loop (iters : nat) (self : methods) (stmts : list stmt)
  : M (list stmt) :=
  match iters with
  | O => out_of_fuel
  | S iters' =>
      tok <- peek ;;
      match tok with
      | Some _ =>
          st <- parse_stmt_body self ;;
          parse_loop iters' self (stmts ++ [st])
      | None => ret stmts
      end
  end.

Definition enough (tokens : list Token) : nat := 3 * length tokens + 3.

Definition parse_with (iters fuel : nat) (tokens : list Token)
  : option (result (list stmt)) :=
  match parse_loop iters (methods_at fuel) [] tokens with
  | Some (Ok (stmts, _)) => Some (Ok stmts)
  | Some (Raise e) => Some (Raise e)
  | None => None
  end.

(** [Parser(tokens).parse()] *)
Definition parse (tokens : list Token) : option (result (list stmt)) :=
  parse_with (S (length tokens)) (enough tokens) tokens.

End Parser.

(* ================================================================= *)
(** ** Resolved values and the arithmetic of the interpreter *)

(** A resolved value is an [int], a [list] of resolved values, or a
    non-integer number (a [float], or a [complex] that float arithmetic can
    produce), of an abstract type [F]. *)
#[warnings="-register-all"]
Inductive pyval (F : Type) :=
| VInt (z : Z)
| VList (l : list (pyval F))
| VFloat (f : F).
Arguments VInt {F} z.
Arguments VList {F} l.
Arguments VFloat {F} f.

(** What the interpreter does outside integer arithmetic.  None of these
    operations can raise a plain [Exception]: their failures are exceptions of
    the interpreter ([ZeroDivisionError], [OverflowError], [TypeError]). *)
Record float_ops (F : Type) := {
  (** [a ** b] for ints with [b < 0]: a float, or an arithmetic error *)
  int_pow_neg : Z -> Z -> (builtin_class * string) + F;
  (** [x + y], [x - y], [x ** y] when [x] or [y] is a non-integer number *)
  float_add : pyval F -> pyval F -> (builtin_class * string) + pyval F;
  float_sub : pyval F -> pyval F -> (builtin_class * string) + pyval F;
  float_pow : pyval F -> pyval F -> (builtin_class * string) + pyval F;
  (** [abs(x)] *)
  float_abs : F -> (builtin_class * string) + pyval F;
  (** [repr(x)], which is also [str(x)] *)
  float_repr : F -> string
}.
Arguments int_pow_neg {F} _ _ _.
Arguments float_add {F} _ _ _.
Arguments float_sub {F} _ _ _.
Arguments float_pow {F} _ _ _.
Arguments float_abs {F} _ _.
Arguments float_repr {F} _ _.

Definition dquote : string := String (ascii_of_nat 34) EmptyString.
Definition line_break : string := String Py.newline EmptyString.

Section Translator.

Context {F : Type} (ops : float_ops F).

Definition of_builtin {A} (r : (builtin_class * string) + A) : result A :=
  match r with
  | inl (cls, msg) => Raise (Builtin cls msg)
  | inr a => Ok a
  end.

(** [type(v).__name__] for the two types the messages below name *)
Definition type_name (v : pyval F) : string :=
  match v with
  | VInt _ => "int"
  | VList _ => "list"
  | VFloat _ => "float"
  end.

Definition unsupported (op : string) (x y : pyval F) : exn :=
  Builtin TypeError ("unsupported operand type(s) for " ++ op ++ ": '"
                     ++ type_name x ++ "' and '" ++ type_name y ++ "'").

(** [x + y] *)
Definition py_add (x y : pyval F) : result (pyval F) :=
  match x, y with
  | VInt a, VInt b => Ok (VInt (a + b))
  | VList a, VList b => Ok (VList (a ++ b)%list)
  | VInt _, VList _ => Raise (unsupported "+" x y)
  | VList _, VInt _ =>
      Raise (Builtin TypeError
               ("can only concatenate list (not " ++ dquote ++ "int" ++ dquote
                ++ ") to list"))
  | _, _ => of_builtin (float_add ops x y)
  end.

(** [x - y] *)
Definition py_sub (x y : pyval F) : result (pyval F) :=
  match x, y with
  | VInt a, VInt b => Ok (VInt (a - b))
  | VFloat _, _ | _, VFloat _ => of_builtin (float_sub ops x y)
  | _, _ => Raise (unsupported "-" x y)
  end.

(** [x ** y]: exact on ints for a non-negative exponent ([0 ** 0] is 1); a
    negative exponent takes the float power. *)
Definition py_pow (x y : pyval F) : result (pyval F) :=
  match x, y with
  | VInt a, VInt b =>
      if (0 <=? b)%Z then Ok (VInt (a ^ b))
      else v <- of_builtin (int_pow_neg ops a b) ;; Ok (VFloat v)
  | VFloat _, _ | _, VFloat _ => of_builtin (float_pow ops x y)
  | _, _ => Raise (unsupported "** or pow()" x y)
  end%py.

(** [abs(x)] *)
Definition py_abs (x : pyval F) : result (pyval F) :=
  match x with
  | VInt a => Ok (VInt (Z.abs a))
  | VList _ => Raise (Builtin TypeError "bad operand type for abs(): 'list'")
  | VFloat f => of_builtin (float_abs ops f)
  end.

(** the items of a list as [repr] writes them: [", "] before every item but
    the first *)
Fixpoint repr_items (repr : pyval F -> string) (first : bool)
  (l : list (pyval F)) : string :=
  match l with
  | [] => ""
  | x :: l' => (if first then "" else ", ") ++ repr x ++ repr_items repr false l'
  end.

(** [repr(v)]; for a list, an opening bracket, the items, and a closing
    bracket. *)
Fixpoint py_repr (v : pyval F) : string :=
  match v with
  | VInt z => Py.str_of_int z
  | VFloat f => float_repr ops f
  | VList l => "[" ++ repr_items py_repr true l ++ "]"
  end.

(** [str(v)], which is what an f-string field with no format puts out *)
Definition py_str (v : pyval F) : string := py_repr v.

(* ================================================================= *)
(** ** The constant table: a [dict], which keeps insertion order *)

Definition dict : Type := list (string * pyval F).

(** [d[name]], with [None] when [name not in d] *)
Fixpoint dict_get (d : dict) (name : string) : option (pyval F) :=
  match d with
  | [] => None
  | (k, v) :: d' => if String.eqb k name then Some v else dict_get d' name
  end.

(** [d[name] = v]: a new key goes last, a key already present keeps its
    place and takes the new value. *)
Fixpoint dict_set (d : dict) (name : string) (v : pyval F) : dict :=
  match d with
  | [] => [(name, v)]
  | (k, w) :: d' =>
      if String.eqb k name then (k, v) :: d'
      else (k, w) :: dict_set d' name v
  end.

(* ================================================================= *)
(** ** Evaluator *)

Definition unknown_constant (name : string) : exn :=
  Exception ("SemanticError: Unknown constant " ++ name).

Fixpoint eval_expr (node : expr) (consts : dict) : result (pyval F) :=
  match node with
  | E_num n => Ok (VInt n)
  | E_var name =>
      match dict_get consts name with
      | None => Raise (unknown_constant name)
      | Some v => Ok v
      end
  | E_PLUS l r =>
      a <- eval_expr l consts ;; b <- eval_expr r consts ;; py_add a b
  | E_MINUS l r =>
      a <- eval_expr l consts ;; b <- eval_expr r consts ;; py_sub a b
  | E_pow l r =>
      a <- eval_expr l consts ;; b <- eval_expr r consts ;; py_pow a b
  | E_abs a =>
      x <- eval_expr a consts ;; py_abs x
  end%py.

(** the list comprehension [[f(x) for x in items]]: the items in order, up
    to the first that raises *)
Fixpoint comprehension {A B} (f : A -> result B) (items : list A)
  : result (list B) :=
  match items with
  | [] => Ok []
  | x :: items' =>
      (r <- f x ;; rs <- comprehension f items' ;; Ok (r :: rs))%py
  end.

Fixpoint eval_value (v : vnode) (consts : dict) : result (pyval F) :=
  match v with
  | V_number n => Ok (VInt n)
  | V_list items =>
      (l <- comprehension (fun x => eval_value x consts) items ;;
       Ok (VList l))%py
  | V_const e => eval_expr e consts
  end.

(* ================================================================= *)
(** ** Serializer *)

Definition toml_line (kv : string * pyval F) : string :=
  Py.lower (fst kv) ++ " = " ++ py_str (snd kv).

Definition to_toml (consts : dict) : string :=
  Py.join line_break
    (fold_left (fun lines kv => (lines ++ [toml_line kv])%list) consts []).

(* ================================================================= *)
(** ** Driver *)

(** the [for st in stmts] loop of [main] *)
Fixpoint run_stmts (stmts : list stmt) (consts : dict) : result dict :=
  match stmts with
  | [] => Ok consts
  | S_set name val :: stmts' =>
      (v <- eval_value val consts ;;
       run_stmts stmts' (dict_set consts name v))%py
  end.

(** the [except Exception as e] branch *)
Definition error_text (e : exn) : string :=
  "ERROR = " ++ dquote ++ exn_str e ++ dquote.

Definition evaluate (stmts : list stmt) : string :=
  match run_stmts stmts [] with
  | Ok consts => to_toml consts
  | Raise e => error_text e
  end.

(** The text written to the output file for the text read from the input
    file, given the fuel of the lexer and of the parser. *)
Definition main_with (lex_fuel iters fuel : nat) (text : string)
  : option string :=
  match lex_loop lex_fuel 0 text [] with
  | None => None
  | Some (Raise e) => Some (error_text e)
  | Some (Ok tokens) =>
      match Parser.parse_with iters fuel tokens with
      | None => None
      | Some (Raise e) => Some (error_text e)
      | Some (Ok stmts) => Some (evaluate stmts)
      end
  end.

Definition main (text : string) : option string :=
  match lex text with
  | None => None
  | Some (Raise e) => Some (error_text e)
  | Some (Ok tokens) =>
      match Parser.parse tokens with
      | None => None
      | Some (Raise e) => Some (error_text e)
      | Some (Ok stmts) => Some (evaluate stmts)
      end
  end.

End Translator.

(* ================================================================= *)
(** ** Auxiliary definitions *)

(** An arithmetic to run the examples with, none of which computes with a
    float: the float that [a ** b] makes for a negative [b] is kept as the
    pair [(a, b)], a zero base is the [ZeroDivisionError] of the interpreter,
    and any further operation on a float is an [OverflowError]. *)
Definition example_ops : float_ops (Z * Z) :=
  {| int_pow_neg a b :=
       if (a =? 0)%Z
       then inl (ZeroDivisionError, "0.0 cannot be raised to a negative power")
       else inr (a, b);
     float_add _ _ := inl (OverflowError, "float");
     float_sub _ _ := inl (OverflowError, "float");
     float_pow _ _ := inl (OverflowError, "float");
     float_abs _ := inl (OverflowError, "float");
     float_repr f := Py.str_of_int (fst f) ++ " ** " ++ Py.str_of_int (snd f)
  |}.

(** [text[k:]] *)
Fixpoint drop (k : nat) (s : string) : string :=
  match k, s with
  | O, _ => s
  | S k', String _ s' => drop k' s'
  | S _, EmptyString => EmptyString
  end.

(** every character of [s] satisfies [cls] *)
Fixpoint all_chars (cls : ascii -> bool) (s : string) : bool :=
  match s with
  | EmptyString => true
  | String c s' => cls c && all_chars cls s'
  end.

(** a pattern that matches no empty text *)
Fixpoint nonnull (r : Py.regex) : bool :=
  match r with
  | Py.Lit EmptyString => false
  | Py.Lit _ => true
  | Py.Star _ => false
  | Py.Plus _ => true
  | Py.Cat r1 r2 => nonnull r1 || nonnull r2
  end.

(** what the lexer guarantees of the text of a token *)
Definition token_wf (tok : Token) : Prop :=
  match type tok with
  | WS | COMMENT => False
  | NUMBER => value tok <> "" /\ all_chars Py.is_digit (value tok) = true
  | IDENT => value tok <> "" /\ all_chars Py.is_upper (value tok) = true
  | _ => True
  end.


(** *** Fuel of the parser

    [consumes k m]: a successful run of [m] reads a prefix of the unread
    tokens, of at least [k] tokens.
    [agree L m1 m2]: on at most [L] unread tokens, [m1] and [m2] have the same
    outcome, and the fuel did not run out. *)
Definition consumes {A} (k : nat) (m : Parser.M A) : Prop :=
  forall ts a ts', m ts = Some (Ok (a, ts')) ->
  exists pre, ts = (pre ++ ts')%list /\ k <= length pre.

Definition agree {A} (L : nat) (m1 m2 : Parser.M A) : Prop :=
  forall ts, length ts <= L -> m1 ts = m2 ts /\ m1 ts <> None.

Record methods_consume (P : Parser.methods) : Prop := {
  c_value : consumes 1 (Parser.m_value P);
  c_list : consumes 1 (Parser.m_list P);
  c_list_loop : forall items, consumes 0 (Parser.m_list_loop P items);
  c_const_expr : consumes 1 (Parser.m_const_expr P);
  c_expr : consumes 1 (Parser.m_expr P);
  c_expr_loop : forall node, consumes 0 (Parser.m_expr_loop P node);
  c_term : consumes 1 (Parser.m_term P)
}.

(** [P] and [Q] agree wherever [n] levels of calls are enough. *)
Record methods_agree (n : nat) (P Q : Parser.methods) : Prop := {
  a_value : forall L, 3 * L + 2 <= n ->
            agree L (Parser.m_value P) (Parser.m_value Q);
  a_list : forall L, 3 * L + 1 <= n ->
           agree L (Parser.m_list P) (Parser.m_list Q);
  a_list_loop : forall L items, 3 * L + 3 <= n ->
                agree L (Parser.m_list_loop P items)
                  (Parser.m_list_loop Q items);
  a_const_expr : forall L, 3 * L + 1 <= n ->
                 agree L (Parser.m_const_expr P) (Parser.m_const_expr Q);
  a_expr : forall L, 3 * L + 2 <= n ->
           agree L (Parser.m_expr P) (Parser.m_expr Q);
  a_expr_loop : forall L node, 3 * L + 1 <= n ->
                agree L (Parser.m_expr_loop P node)
                  (Parser.m_expr_loop Q node);
  a_term : forall L, 3 * L + 1 <= n ->
           agree L (Parser.m_term P) (Parser.m_term Q)
}.

(** [below m1 m2]: where [m1] has an outcome, [m2] has the same. *)
Definition below {A} (m1 m2 : Parser.M A) : Prop :=
  forall ts r, m1 ts = Some r -> m2 ts = Some r.

Record methods_below (P Q : Parser.methods) : Prop := {
  b_value : below (Parser.m_value P) (Parser.m_value Q);
  b_list : below (Parser.m_list P) (Parser.m_list Q);
  b_list_loop : forall items,
      below (Parser.m_list_loop P items) (Parser.m_list_loop Q items);
  b_const_expr : below (Parser.m_const_expr P) (Parser.m_const_expr Q);
  b_expr : below (Parser.m_expr P) (Parser.m_expr Q);
  b_expr_loop : forall node,
      below (Parser.m_expr_loop P node) (Parser.m_expr_loop Q node);
  b_term : below (Parser.m_term P) (Parser.m_term Q)
}.

(** The methods without fuel: each runs with the fuel that its input needs,
    and is a fixed point of [Parser.unfold_methods] (see [methods_unfold]). *)
Definition the_methods : Parser.methods :=
  {| Parser.m_value :=
       fun ts => Parser.m_value (Parser.methods_at (Parser.enough ts)) ts;
     Parser.m_list :=
       fun ts => Parser.m_list (Parser.methods_at (Parser.enough ts)) ts;
     Parser.m_list_loop :=
       fun items ts =>
         Parser.m_list_loop (Parser.methods_at (Parser.enough ts)) items ts;
     Parser.m_const_expr :=
       fun ts =>
         Parser.m_const_expr (Parser.methods_at (Parser.enough ts)) ts;
     Parser.m_expr :=
       fun ts => Parser.m_expr (Parser.methods_at (Parser.enough ts)) ts;
     Parser.m_expr_loop :=
       fun node ts =>
         Parser.m_expr_loop (Parser.methods_at (Parser.enough ts)) node ts;
     Parser.m_term :=
       fun ts => Parser.m_term (Parser.methods_at (Parser.enough ts)) ts |}.

(** the statement loop without fuel *)
Definition the_loop (stmts : list stmt) : Parser.M (list stmt) :=
  fun ts => Parser.parse_loop (S (length ts)) the_methods stmts ts.

(** *** Failures of the parser

    [syntax_failure rest e]: [e] is a failure of the parser with [rest] the
    unread tokens.  Either [eat] met a token of another kind than the expected
    one, or no token; or [parse_value] or [parse_term] met a token that starts
    none of their alternatives; or they met no token, and [tok.type] was read
    off [None]. *)
Definition syntax_failure (rest : list Token) (e : exn) : Prop :=
  (exists expected,
      e = Parser.expected_error expected (hd_error rest)
      /\ option_map type (hd_error rest) <> Some expected)
  \/ (exists tok,
        hd_error rest = Some tok /\ e = Parser.unexpected_error tok)
  \/ (rest = [] /\ e = Parser.none_type_error).

Definition fails_on {A} (m : Parser.M A) (ts : list Token) : Prop :=
  forall e, m ts = Some (Raise e) ->
  exists pre rest, ts = (pre ++ rest)%list /\ syntax_failure rest e.

Record methods_fail (P : Parser.methods) : Prop := {
  f_value : forall ts, fails_on (Parser.m_value P) ts;
  f_list : forall ts, fails_on (Parser.m_list P) ts;
  f_list_loop : forall items ts, fails_on (Parser.m_list_loop P items) ts;
  f_const_expr : forall ts, fails_on (Parser.m_const_expr P) ts;
  f_expr : forall ts, fails_on (Parser.m_expr P) ts;
  f_expr_loop : forall node ts, fails_on (Parser.m_expr_loop P node) ts;
  f_term : forall ts, fails_on (Parser.m_term P) ts
}.

(** *** Names of the syntax tree

    The names of a syntax tree are texts of IDENT tokens: upper-case letters,
    at least one. *)
Definition name_ok (s : string) : bool :=
  negb (String.eqb s "") && all_chars Py.is_upper s.

Fixpoint expr_names_ok (e : expr) : bool :=
  match e with
  | E_num _ => true
  | E_var name => name_ok name
  | E_PLUS l r | E_MINUS l r | E_pow l r =>
      expr_names_ok l && expr_names_ok r
  | E_abs a => expr_names_ok a
  end.

Fixpoint vnode_names_ok (v : vnode) : bool :=
  match v with
  | V_number _ => true
  | V_list items => forallb vnode_names_ok items
  | V_const e => expr_names_ok e
  end.

Definition stmt_names_ok (st : stmt) : bool :=
  name_ok (stmt_name st) && vnode_names_ok (stmt_val st).

(** [yields Q m]: on tokens of the lexer, what [m] returns satisfies [Q]. *)
Definition yields {A} (Q : A -> Prop) (m : Parser.M A) : Prop :=
  forall ts a ts',
    Forall token_wf ts -> m ts = Some (Ok (a, ts')) -> Q a.

Record methods_names (P : Parser.methods) : Prop := {
  n_value : yields (fun v => vnode_names_ok v = true) (Parser.m_value P);
  n_list : yields (fun v => vnode_names_ok v = true) (Parser.m_list P);
  n_list_loop : forall items,
      forallb vnode_names_ok items = true ->
      yields (fun l => forallb vnode_names_ok l = true)
        (Parser.m_list_loop P items);
  n_const_expr :
    yields (fun v => vnode_names_ok v = true) (Parser.m_const_expr P);
  n_expr : yields (fun e => expr_names_ok e = true) (Parser.m_expr P);
  n_expr_loop : forall node,
      expr_names_ok node = true ->
      yields (fun e => expr_names_ok e = true) (Parser.m_expr_loop P node);
  n_term : yields (fun e => expr_names_ok e = true) (Parser.m_term P)
}.

(** *** The grammar of the specification

    [G_x ts a]: the tokens [ts] derive from the nonterminal [x], and [a] is
    the syntax tree of the derivation.  A terminal is a token of the kind
    named; the tree of a leading minus is the subtraction from zero; the
    operators of an expression associate to the left.
<<
    Program    := Statement*
    Statement  := "set" IDENT "=" Value ";"
    Value      := NUMBER | List | ConstExpr
    List       := "(" "list" Value* ")"
    ConstExpr  := "^" "{" Expr "}"
    Expr       := Term (("+" | "-") Term)*
    Term       := "-" Term | NUMBER | IDENT
                | "pow" "(" Expr "," Expr ")" | "abs" "(" Expr ")"
>> *)
Inductive G_term : list Token -> expr -> Prop :=
| G_term_neg minus ts e :
    type minus = MINUS -> G_term ts e ->
    G_term (minus :: ts) (E_MINUS (E_num 0) e)
| G_term_number num :
    type num = NUMBER -> G_term [num] (E_num (Py.int (value num)))
| G_term_ident id :
    type id = IDENT -> G_term [id] (E_var (value id))
| G_term_pow pow lp ts1 a comma ts2 b rp :
    type pow = POW -> type lp = LPAREN -> type comma = COMMA ->
    type rp = RPAREN -> G_expr ts1 a -> G_expr ts2 b ->
    G_term (pow :: lp :: ts1 ++ comma :: ts2 ++ [rp]) (E_pow a b)
| G_term_abs abs lp ts a rp :
    type abs = ABS -> type lp = LPAREN -> type rp = RPAREN ->
    G_expr ts a ->
    G_term (abs :: lp :: ts ++ [rp]) (E_abs a)
with G_expr : list Token -> expr -> Prop :=
| G_expr_term ts e : G_term ts e -> G_expr ts e
| G_expr_plus ts1 e1 plus ts2 e2 :
    G_expr ts1 e1 -> type plus = PLUS -> G_term ts2 e2 ->
    G_expr (ts1 ++ plus :: ts2) (E_PLUS e1 e2)
| G_expr_minus ts1 e1 minus ts2 e2 :
    G_expr ts1 e1 -> type minus = MINUS -> G_term ts2 e2 ->
    G_expr (ts1 ++ minus :: ts2) (E_MINUS e1 e2).

Inductive G_value : list Token -> vnode -> Prop :=
| G_value_number num :
    type num = NUMBER -> G_value [num] (V_number (Py.int (value num)))
| G_value_list lp kw ts items rp :
    type lp = LPAREN -> type kw = LIST -> type rp = RPAREN ->
    G_values ts items ->
    G_value (lp :: kw :: ts ++ [rp]) (V_list items)
| G_value_const caret lb ts e rb :
    type caret = CARET -> type lb = LBRACE -> type rb = RBRACE ->
    G_expr ts e ->
    G_value (caret :: lb :: ts ++ [rb]) (V_const e)
with G_values : list Token -> list vnode -> Prop :=
| G_values_nil : G_values [] []
| G_values_cons ts1 v ts2 items :
    G_value ts1 v -> G_values ts2 items ->
    G_values (ts1 ++ ts2) (v :: items).

Inductive G_stmt : list Token -> stmt -> Prop :=
| G_stmt_set kw id eq ts val semi :
    type kw = SET -> type id = IDENT -> type eq = EQUAL ->
    type semi = SEMICOLON -> G_value ts val ->
    G_stmt (kw :: id :: eq :: ts ++ [semi]) (S_set (value id) val).

Inductive G_program : list Token -> list stmt -> Prop :=
| G_program_nil : G_program [] []
| G_program_cons ts1 st ts2 stmts :
    G_stmt ts1 st -> G_program ts2 stmts ->
    G_program (ts1 ++ ts2) (st :: stmts).

Scheme G_term_mut := Minimality for G_term Sort Prop
  with G_expr_mut := Minimality for G_expr Sort Prop.
Combined Scheme G_term_expr_ind from G_term_mut, G_expr_mut.

Scheme G_value_mut := Minimality for G_value Sort Prop
  with G_values_mut := Minimality for G_values Sort Prop.
Combined Scheme G_value_values_ind from G_value_mut, G_values_mut.

(** a valid program: a text whose tokens derive from [Program] *)
Definition valid_program (text : string) (stmts : list stmt) : Prop :=
  exists tokens, lex text = Some (Ok tokens) /\ G_program tokens stmts.

(** *** References and types

    [program_refs_defined defined stmts]: every name that an expression of
    [stmts] refers to is in [defined] or is declared by an earlier
    statement. *)
Fixpoint expr_refs_defined (defined : list string) (e : expr) : bool :=
  match e with
  | E_num _ => true
  | E_var name => existsb (String.eqb name) defined
  | E_PLUS l r | E_MINUS l r | E_pow l r =>
      expr_refs_defined defined l && expr_refs_defined defined r
  | E_abs a => expr_refs_defined defined a
  end.

Fixpoint vnode_refs_defined (defined : list string) (v : vnode) : bool :=
  match v with
  | V_number _ => true
  | V_list items => forallb (vnode_refs_defined defined) items
  | V_const e => expr_refs_defined defined e
  end.

Fixpoint program_refs_defined (defined : list string) (stmts : list stmt)
  : bool :=
  match stmts with
  | [] => true
  | S_set name val :: stmts' =>
      vnode_refs_defined defined val
      && program_refs_defined (name :: defined) stmts'
  end.

(** the two types of resolved values of the specification *)
Inductive ty := TInt | TList.

(** a text with no line feed in it *)
Definition single_line (s : string) : bool := all_chars Py.is_dot s.

(** *** The serializer, in the words of the specification *)

Section Specification.

Context {F : Type} (ops : float_ops F).

(** An integer renders in base 10; a sequence renders as its elements, each
    rendered the same way, separated by a comma and a space, in brackets.  (A
    float, which the specification does not have, renders as the interpreter
    prints it.) *)
Fixpoint render (v : pyval F) : string :=
  match v with
  | VInt z => Py.str_of_int z
  | VList l => "[" ++ Py.join ", " (map render l) ++ "]"
  | VFloat f => float_repr ops f
  end.

(** a value made of ints and lists only *)
Fixpoint float_free (v : pyval F) : bool :=
  match v with
  | VInt _ => true
  | VList l => forallb float_free l
  | VFloat _ => false
  end.

Definition type_of (v : pyval F) : option ty :=
  match v with
  | VInt _ => Some TInt
  | VList _ => if float_free v then Some TList else None
  | VFloat _ => None
  end.

(** The type of an expression in a table: [+] takes two ints or two lists,
    [-], [pow] and [abs] take ints, and the exponent of [pow] is not
    negative. *)
Fixpoint expr_type (consts : list (string * pyval F)) (e : expr)
  : option ty :=
  match e with
  | E_num _ => Some TInt
  | E_var name =>
      match dict_get consts name with
      | Some v => type_of v
      | None => None
      end
  | E_PLUS l r =>
      match expr_type consts l, expr_type consts r with
      | Some TInt, Some TInt => Some TInt
      | Some TList, Some TList => Some TList
      | _, _ => None
      end
  | E_MINUS l r =>
      match expr_type consts l, expr_type consts r with
      | Some TInt, Some TInt => Some TInt
      | _, _ => None
      end
  | E_pow l r =>
      match expr_type consts l, expr_type consts r with
      | Some TInt, Some TInt =>
          match eval_expr ops r consts with
          | Ok (VInt y) => if (0 <=? y)%Z then Some TInt else None
          | _ => None
          end
      | _, _ => None
      end
  | E_abs a =>
      match expr_type consts a with
      | Some TInt => Some TInt
      | _ => None
      end
  end.

Fixpoint vnode_typed (consts : list (string * pyval F)) (v : vnode) : bool :=
  match v with
  | V_number _ => true
  | V_list items => forallb (vnode_typed consts) items
  | V_const e =>
      match expr_type consts e with
      | Some _ => true
      | None => false
      end
  end.

(** every statement is typed in the table that the statements before it
    built *)
Fixpoint program_typed (consts : list (string * pyval F))
  (stmts : list stmt) : bool :=
  match stmts with
  | [] => true
  | S_set name val :: stmts' =>
      vnode_typed consts val
      && match eval_value ops val consts with
         | Ok v => program_typed (dict_set consts name v) stmts'
         | Raise _ => true
         end
  end.

(** a table whose values are made of ints and lists only *)
Definition table_ok (d : list (string * pyval F)) : Prop :=
  forallb (fun kv => float_free (snd kv)) d = true.

(** the messages of the errors of float arithmetic are single lines *)
Definition float_messages_single_line : Prop :=
  (forall a b cls msg,
      int_pow_neg ops a b = inl (cls, msg) -> single_line msg = true)
  /\ (forall x y cls msg,
        float_add ops x y = inl (cls, msg) -> single_line msg = true)
  /\ (forall x y cls msg,
        float_sub ops x y = inl (cls, msg) -> single_line msg = true)
  /\ (forall x y cls msg,
        float_pow ops x y = inl (cls, msg) -> single_line msg = true)
  /\ (forall x cls msg,
        float_abs ops x = inl (cls, msg) -> single_line msg = true).

(** every statement evaluates in the table that the statements before it
    built *)
Definition each_resolves (stmts : list stmt) : Prop :=
  forall before name val rest consts,
    stmts = (before ++ S_set name val :: rest)%list ->
    run_stmts ops before [] = Ok consts ->
    exists v, eval_value ops val consts = Ok v.

End Specification.


(* ================================================================= *)
(** ** Further auxiliary definitions *)

(** *** Trees of the parser

    [derives R m]: a successful run of [m] reads a prefix [pre] of the unread
    tokens, and [R pre a] holds of the prefix and of what [m] returns. *)
Definition derives {A} (R : list Token -> A -> Prop) (m : Parser.M A) : Prop :=
  forall ts a ts', m ts = Some (Ok (a, ts')) ->
  exists pre, ts = (pre ++ ts')%list /\ R pre a.

Record methods_sound (P : Parser.methods) : Prop := {
  s_value : derives G_value (Parser.m_value P);
  s_list : derives G_value (Parser.m_list P);
  s_list_loop : forall items,
      derives (fun pre l =>
                 exists more, l = (items ++ more)%list /\ G_values pre more)
        (Parser.m_list_loop P items);
  s_const_expr : derives G_value (Parser.m_const_expr P);
  s_expr : derives G_expr (Parser.m_expr P);
  s_expr_loop : forall node,
      derives (fun pre e =>
                 forall ts0, G_expr ts0 node -> G_expr (ts0 ++ pre)%list e)
        (Parser.m_expr_loop P node);
  s_term : derives G_term (Parser.m_term P)
}.

(** *** Lexemes

    [lexeme_ok t v]: the pattern of the kind [t] in the token table matches
    the whole of the text [v]. *)
Definition full_match (r : Py.regex) (v : string) : bool :=
  match Py.re_match r v with
  | Some (_, rest) => String.eqb rest ""
  | None => false
  end.

Fixpoint pattern_of (table : list (tok_type * Py.regex)) (t : tok_type)
  : option Py.regex :=
  match table with
  | [] => None
  | (t', r) :: table' =>
      if tok_type_eqb t' t then Some r else pattern_of table' t
  end.

Definition lexeme_ok (t : tok_type) (v : string) : bool :=
  match pattern_of TOKEN_REGEX t with
  | Some r => full_match r v
  | None => false
  end.

(** the kinds that [lex] keeps *)
Definition kept (t : tok_type) : bool :=
  match t with
  | WS | COMMENT => false
  | _ => true
  end.

(** the tokens of a list of lexemes *)
Definition tokens_of (pieces : list (tok_type * string)) : list Token :=
  map (fun p => mkToken (fst p) (snd p))
    (filter (fun p => kept (fst p)) pieces).

(** the text of a list of lexemes *)
Definition text_of (pieces : list (tok_type * string)) : string :=
  fold_right String.append "" (map snd pieces).

(** a token that [lex] can produce *)
Definition token_ok (tok : Token) : bool :=
  kept (type tok) && lexeme_ok (type tok) (value tok).

(** *** Names referred to *)

Fixpoint expr_refs (e : expr) : list string :=
  match e with
  | E_num _ => []
  | E_var name => [name]
  | E_PLUS l r | E_MINUS l r | E_pow l r => expr_refs l ++ expr_refs r
  | E_abs a => expr_refs a
  end%list.

Fixpoint vnode_refs (v : vnode) : list string :=
  match v with
  | V_number _ => []
  | V_list items => flat_map vnode_refs items
  | V_const e => expr_refs e
  end.

(** the names of a list without the repetitions of names met before, or of
    names in [seen] *)
Fixpoint first_occurrences (seen names : list string) : list string :=
  match names with
  | [] => []
  | name :: names' =>
      if existsb (String.eqb name) seen then first_occurrences seen names'
      else name :: first_occurrences (name :: seen) names'
  end.

(** a syntax tree without [pow] *)
Fixpoint expr_no_pow (e : expr) : bool :=
  match e with
  | E_num _ | E_var _ => true
  | E_PLUS l r | E_MINUS l r => expr_no_pow l && expr_no_pow r
  | E_pow _ _ => false
  | E_abs a => expr_no_pow a
  end.

Fixpoint vnode_no_pow (v : vnode) : bool :=
  match v with
  | V_number _ => true
  | V_list items => forallb vnode_no_pow items
  | V_const e => expr_no_pow e
  end.

(** *** Lines, literals and the pipeline *)

(** [out.split("\n")]: the texts between the line feeds of [out] *)
Fixpoint split_lines (s : string) : list string :=
  match s with
  | EmptyString => [EmptyString]
  | String c s' =>
      if Ascii.eqb c Py.newline then EmptyString :: split_lines s'
      else match split_lines s' with
           | l :: ls => String c l :: ls
           | [] => [String c EmptyString]
           end
  end.

(** number literals that are not negative *)
Fixpoint expr_lits_ok (e : expr) : bool :=
  match e with
  | E_num n => (0 <=? n)%Z
  | E_var _ => true
  | E_PLUS l r | E_MINUS l r | E_pow l r =>
      expr_lits_ok l && expr_lits_ok r
  | E_abs a => expr_lits_ok a
  end.

Fixpoint vnode_lits_ok (v : vnode) : bool :=
  match v with
  | V_number n => (0 <=? n)%Z
  | V_list items => forallb vnode_lits_ok items
  | V_const e => expr_lits_ok e
  end.

Section Pipeline.

Context {F : Type} (ops : float_ops F).

(** the body of the [try] block of [main]: the table, or the exception that
    the [except] clause catches *)
Definition translate (text : string) : option (result (@dict F)) :=
  match lex text with
  | None => None
  | Some (Raise e) => Some (Raise e)
  | Some (Ok tokens) =>
      match Parser.parse tokens with
      | None => None
      | Some (Raise e) => Some (Raise e)
      | Some (Ok stmts) => Some (run_stmts ops stmts [])
      end
  end.

End Pipeline.

(** *** Texts continued on a new line

    [continues x (t, r)]: how the pattern [r] of the kind [t] matches a text
    that is followed by a line feed and [x], given how it matches the text
    alone.  The match is the same, but for whitespace that reaches the end of
    the text, which goes on over the line feed and the whitespace that [x]
    starts with. *)
Definition continues (x : string) (p : tok_type * Py.regex) : Prop :=
  forall u, u <> "" ->
    match Py.re_match (snd p) u with
    | None => Py.re_match (snd p) (u ++ String Py.newline x) = None
    | Some (v, rest) =>
        Py.re_match (snd p) (u ++ String Py.newline x)
        = Some (v, rest ++ String Py.newline x)
        \/ (fst p = WS /\ rest = ""
            /\ exists v',
                 Py.re_match (snd p) (u ++ String Py.newline x)
                 = Some (v', snd (Py.span Py.is_ws x)))
    end.

(* ================================================================= *)
(** ** The limit of the interpreter on conversions between int and str

    By default the interpreter refuses a conversion between [int] and [str]
    in base 10 that involves more than 4300 digits
    ([sys.get_int_max_str_digits()]): [int(s)] and [str(z)] raise a
    [ValueError].  The program converts in two places: [int] on the text of
    a NUMBER token, in [parse_value] and [parse_term], and [str] on the ints
    of the table, in the f-string of [to_toml].

    [Py.int], [py_str], [Parser.parse], [to_toml] and [main] above are the
    program with the limit lifted; the definitions of this module are the
    program under the default limit.  They differ from the former only where
    a conversion is made. *)

Module Limited.
Import Parser.

Definition max_str_digits : nat := 4300.

(** the message of [str(z)] over the limit *)
Definition str_limit_error : exn :=
  Builtin ValueError
    ("Exceeds the limit (4300 digits) for integer string conversion; "
     ++ "use sys.set_int_max_str_digits() to increase the limit").

(** the message of [int(s)] over the limit, which names the number of
    digits of [s] *)
Definition int_limit_error (digits : nat) : exn :=
  Builtin ValueError
    ("Exceeds the limit (4300 digits) for integer string conversion: "
     ++ "value has " ++ Py.str_of_nat digits ++ " digits; "
     ++ "use sys.set_int_max_str_digits() to increase the limit").

(** [int(s)] on a string of decimal digits, the only strings the parser
    converts (the text of a NUMBER token); every digit counts, a leading zero
    too *)
Definition int (s : string) : result Z :=
  if (String.length s <=? max_str_digits)%nat then Ok (Py.int s)
  else Raise (int_limit_error (String.length s)).

(** the number of decimal digits of an int, the sign apart *)
Definition digits (z : Z) : nat := String.length (Py.str_of_int (Z.abs z)).

(** [str(z)] and [repr(z)] of an int *)
Definition str (z : Z) : result string :=
  if (digits z <=? max_str_digits)%nat then Ok (Py.str_of_int z)
  else Raise str_limit_error.

(** a conversion result, as a step of the parser *)
Definition lift {A} (r : result A) : M A :=
  fun ts =>
    match r with
    | Ok a => Some (Ok (a, ts))
    | Raise e => Some (Raise e)
    end.

(** [parse_value] and [parse_term], the two methods that call [int] *)
Definition parse_value_body (self : methods) : M vnode :=
  tok <- peek ;;
  match tok with
  | None => raise none_type_error
  | Some tok =>
      if tok_type_eqb (type tok) NUMBER then
        t <- eat NUMBER ;; n <- lift (int (value t)) ;; ret (V_number n)
      else if tok_type_eqb (type tok) LPAREN then m_list self
      else if tok_type_eqb (type tok) CARET then m_const_expr self
      else raise (unexpected_error tok)
  end.

Definition parse_term_body (self : methods) : M expr :=
  tok <- peek ;;
  match tok with
  | None => raise none_type_error
  | Some tok =>
      if tok_type_eqb (type tok) MINUS then
        eat MINUS ;;
        term <- m_term self ;;
        ret (E_MINUS (E_num 0) term)
      else if tok_type_eqb (type tok) NUMBER then
        t <- eat NUMBER ;; n <- lift (int (value t)) ;; ret (E_num n)
      else if tok_type_eqb (type tok) IDENT then
        eat IDENT ;; ret (E_var (value tok))
      else if tok_type_eqb (type tok) POW then
        eat POW ;;
        eat LPAREN ;;
        a <- m_expr self ;;
        eat COMMA ;;
        b <- m_expr self ;;
        eat RPAREN ;;
        ret (E_pow a b)
      else if tok_type_eqb (type tok) ABS then
        eat ABS ;;
        eat LPAREN ;;
        a <- m_expr self ;;
        eat RPAREN ;;
        ret (E_abs a)
      else raise (unexpected_error tok)
  end.

(** the other methods are those of [Parser] *)
Definition unfold_methods (self : methods) : methods :=
  {| m_value := parse_value_body self;
     m_list := parse_list_body self;
     m_list_loop := parse_list_loop_body self;
     m_const_expr := parse_const_expr_body self;
     m_expr := parse_expr_body self;
     m_expr_loop := parse_expr_loop_body self;
     m_term := parse_term_body self |}.

Fixpoint methods_at (fuel : nat) : methods :=
  match fuel with
  | O => no_methods
  | S fuel' => unfold_methods (methods_at fuel')
  end.

Definition parse_with (iters fuel : nat) (tokens : list Token)
  : option (result (list stmt)) :=
  match parse_loop iters (methods_at fuel) [] tokens with
  | Some (Ok (stmts, _)) => Some (Ok stmts)
  | Some (Raise e) => Some (Raise e)
  | None => None
  end.

(** [Parser(tokens).parse()] *)
Definition parse (tokens : list Token) : option (result (list stmt)) :=
  parse_with (S (length tokens)) (enough tokens) tokens.

Section Serializer.

Context {F : Type} (ops : float_ops F).

(** [repr(v)]: the items of a list are converted from left to right, and the
    first conversion that raises ends the whole *)
Fixpoint repr (v : pyval F) : result string :=
  match v with
  | VInt z => str z
  | VFloat f => Ok (float_repr ops f)
  | VList l =>
      (items <- comprehension repr l ;;
       Ok ("[" ++ Py.join ", " items ++ "]"))%py
  end.

(** [f"{key} = {v}"] for one entry of the table *)
Definition toml_line (kv : string * pyval F) : result string :=
  (v <- repr (snd kv) ;; Ok (Py.lower (fst kv) ++ " = " ++ v))%py.

(** [to_toml(consts)]: the lines are built in the order of the table, up to
    the first that raises *)
Definition to_toml (consts : @dict F) : result string :=
  (lines <- comprehension toml_line consts ;;
   Ok (Py.join line_break lines))%py.

(** the body of the [try] block of [main]: the text to write, or the
    exception that the [except] clause catches *)
Definition translate (text : string) : option (result string) :=
  match lex text with
  | None => None
  | Some (Raise e) => Some (Raise e)
  | Some (Ok tokens) =>
      match parse tokens with
      | None => None
      | Some (Raise e) => Some (Raise e)
      | Some (Ok stmts) =>
          Some (consts <- run_stmts ops stmts [] ;; to_toml consts)%py
      end
  end.

(** The text written to the output file for the text read from the input
    file. *)
Definition main (text : string) : option string :=
  match translate text with
  | None => None
  | Some (Ok toml_text) => Some toml_text
  | Some (Raise e) => Some (error_text e)
  end.

End Serializer.

End Limited.

(** *** Within the limit

    The number literals of a token list are within the limit when the text
    of every NUMBER token has at most 4300 characters; a value is within the
    limit when every int in it has at most 4300 digits. *)
Definition literals_within_limit (tokens : list Token) : bool :=
  forallb (fun tok =>
             negb (tok_type_eqb (type tok) NUMBER)
             || (String.length (value tok) <=? Limited.max_str_digits)%nat)
    tokens.

Fixpoint value_within_limit {F : Type} (v : pyval F) : bool :=
  match v with
  | VInt z => (Limited.digits z <=? Limited.max_str_digits)%nat
  | VFloat _ => true
  | VList l => forallb value_within_limit l
  end.

Definition table_within_limit {F : Type} (consts : @dict F) : bool :=
  forallb (fun kv => value_within_limit (snd kv)) consts.

(** [converted ml m ts]: on the unread tokens [ts], the step [ml] of the
    parser under the limit does what the step [m] does with the limit lifted,
    unless it fails by a number literal over the limit; and the number
    literals that it has read when it returns are within the limit.
    [refines ml m]: so it is on all tokens. *)
Definition converted {A} (ml : Parser.M A) (m : Parser.M A)
  (ts : list Token) : Prop :=
  match ml ts with
  | Some (Ok (a, ts')) =>
      m ts = Some (Ok (a, ts'))
      /\ exists pre, ts = (pre ++ ts')%list
                     /\ literals_within_limit pre = true
  | Some (Raise e) =>
      m ts = Some (Raise e)
      \/ ((exists digits, e = Limited.int_limit_error digits)
          /\ literals_within_limit ts = false)
  | None => m ts = None
  end.

Definition refines {A} (ml m : Parser.M A) : Prop :=
  forall ts, converted ml m ts.

Record methods_refine (PL P : Parser.methods) : Prop := {
  r_value : refines (Parser.m_value PL) (Parser.m_value P);
  r_list : refines (Parser.m_list PL) (Parser.m_list P);
  r_list_loop : forall items,
      refines (Parser.m_list_loop PL items) (Parser.m_list_loop P items);
  r_const_expr : refines (Parser.m_const_expr PL) (Parser.m_const_expr P);
  r_expr : refines (Parser.m_expr PL) (Parser.m_expr P);
  r_expr_loop : forall node,
      refines (Parser.m_expr_loop PL node) (Parser.m_expr_loop P node);
  r_term : refines (Parser.m_term PL) (Parser.m_term P)
}.

(** *** The point of a failure of the parser

    [at_end_failure e]: [e] is a failure for lack of a token.
    [reads_all o]: the run with outcome [o] did not fail before the end of
    the tokens: it returned with no token left unread, or it failed for lack
    of a token (or its fuel ran out).
    [local_on m ts]: the run of [m] on the unread tokens [ts] depends on the
    tokens it has read and on the next token only.  It has read a prefix
    [pre] of [ts] when it returns or fails, and has the same outcome on
    every token list that starts with [pre] and goes on with the same token
    as [ts]; on [pre] alone (when [pre] has a token, or [ts] has none) it
    reads all. *)
Definition at_end_failure (e : exn) : Prop :=
  (exists expected, e = Parser.expected_error expected None)
  \/ e = Parser.none_type_error.

Definition reads_all {A} (o : option (result (A * list Token))) : Prop :=
  match o with
  | Some (Ok (_, ts')) => ts' = []
  | Some (Raise e) => at_end_failure e
  | None => True
  end.

Definition local_on {A} (m : Parser.M A) (ts : list Token) : Prop :=
  match m ts with
  | Some (Ok (a, ts')) =>
      exists pre,
        ts = (pre ++ ts')%list
        /\ (forall ts2, hd_error ts2 = hd_error ts' ->
                        m (pre ++ ts2)%list = Some (Ok (a, ts2)))
        /\ (hd_error pre = hd_error ts -> reads_all (m pre))
  | Some (Raise e) =>
      exists pre rest,
        ts = (pre ++ rest)%list
        /\ syntax_failure rest e
        /\ (forall rest2, hd_error rest2 = hd_error rest ->
                          m (pre ++ rest2)%list = Some (Raise e))
        /\ (hd_error pre = hd_error ts -> reads_all (m pre))
  | None => True
  end.

Record methods_local (P : Parser.methods) : Prop := {
  l_value : forall ts, local_on (Parser.m_value P) ts;
  l_list : forall ts, local_on (Parser.m_list P) ts;
  l_list_loop : forall items ts, local_on (Parser.m_list_loop P items) ts;
  l_const_expr : forall ts, local_on (Parser.m_const_expr P) ts;
  l_expr : forall ts, local_on (Parser.m_expr P) ts;
  l_expr_loop : forall node ts, local_on (Parser.m_expr_loop P node) ts;
  l_term : forall ts, local_on (Parser.m_term P) ts
}.

(** *** The text of a table, in the words of the specification

    The text that the specification asks of the serializer is written here
    with the functions of the library and none of the program:
    [String.concat] joins texts with a separator between them,
    [NilZero.string_of_int] writes an integer in base 10, and the lower-case
    letter of an upper-case letter of the alphabet is the letter at the same
    place of the lower-case alphabet (any other character is kept). *)
Fixpoint counterpart (c : ascii) (upper lower : string) : ascii :=
  match upper, lower with
  | String u upper', String l lower' =>
      if Ascii.eqb c u then l else counterpart c upper' lower'
  | _, _ => c
  end.

Fixpoint lowercased (name : string) : string :=
  match name with
  | EmptyString => EmptyString
  | String c name' =>
      String (counterpart c "ABCDEFGHIJKLMNOPQRSTUVWXYZ"
                "abcdefghijklmnopqrstuvwxyz")
        (lowercased name')
  end.

Section SerializerSpecification.

Context {F : Type} (ops : float_ops F).

(** An integer renders in base 10; a sequence renders as its elements, each
    rendered the same way, separated by a comma and a space, in brackets.  (A
    float, which the specification does not have, renders as the interpreter
    prints it.) *)
Fixpoint rendered (v : pyval F) : string :=
  match v with
  | VInt z => NilZero.string_of_int (Z.to_int z)
  | VList l => "[" ++ String.concat ", " (map rendered l) ++ "]"
  | VFloat f => float_repr ops f
  end.

(** one line [<lowercased-name> = <value>] per entry, in the order of the
    table, joined by single line feeds *)
Definition to_toml_spec (consts : list (string * pyval F)) : string :=
  String.concat line_break
    (map (fun kv => lowercased (fst kv) ++ " = " ++ rendered (snd kv))
       consts).

End SerializerSpecification.

(** *** Printing a token *)

(** [f"Token({self.type},{self.value})"], where [self.type] is any string
    that [Token] was made with *)
Definition repr_text (type_ value : string) : string :=
  "Token(" ++ type_ ++ "," ++ value ++ ")".

(** [Token.__repr__] on a token of [lex], whose kind is a name of the token
    table *)
Definition __repr__ (self : Token) : string :=
  repr_text (tok_name (type self)) (value self).

(** a text with no comma in it *)
Definition comma_free (s : string) : bool :=
  all_chars (fun c => negb (Ascii.eqb c ",")) s.

(* ================================================================= *)
(** * Properties *)

(** ** Strings *)

Lemma length_append (s t : string) :
  String.length (s ++ t) = String.length s + String.length t.
Proof. induction s as [|c s IH]; simpl; [reflexivity | now rewrite IH]. Qed.

Lemma append_nil_r (s : string) : s ++ "" = s.
Proof. induction s as [|c s IH]; simpl; [reflexivity | now rewrite IH]. Qed.

Lemma append_assoc (s t u : string) : (s ++ t) ++ u = s ++ t ++ u.
Proof. induction s as [|c s IH]; simpl; [reflexivity | now rewrite IH]. Qed.

Lemma drop_append (s t : string) : drop (String.length s) (s ++ t) = t.
Proof. induction s as [|c s IH]; simpl; [now destruct t | exact IH]. Qed.

Lemma drop_drop (j k : nat) (s : string) : drop j (drop k s) = drop (k + j) s.
Proof.
  revert s; induction k as [|k IH]; intros s; simpl; [reflexivity|].
  destruct s as [|c s]; [now destruct j | apply IH].
Qed.

Lemma get_drop (k j : nat) (s : string) :
  String.get j (drop k s) = String.get (k + j) s.
Proof.
  revert s; induction k as [|k IH]; intros s; simpl; [reflexivity|].
  destruct s as [|c s]; [now destruct j | apply IH].
Qed.

(** ** Regular expressions *)

Lemma match_lit_append (lit s rest : string) :
  Py.match_lit lit s = Some rest -> s = lit ++ rest.
Proof.
  revert s; induction lit as [|c lit IH]; intros s; simpl.
  - now intros [= ->].
  - destruct s as [|d s]; [discriminate|].
    destruct (Ascii.eqb c d) eqn:E; [|discriminate].
    apply Ascii.eqb_eq in E; subst d; intros H; f_equal; auto.
Qed.

Lemma span_append (cls : ascii -> bool) (s : string) :
  s = fst (Py.span cls s) ++ snd (Py.span cls s).
Proof.
  induction s as [|c s IH]; simpl; [reflexivity|].
  destruct (cls c); [|reflexivity].
  destruct (Py.span cls s) as [m rest]; simpl in *; now f_equal.
Qed.

Lemma span_all (cls : ascii -> bool) (s : string) :
  all_chars cls (fst (Py.span cls s)) = true.
Proof.
  induction s as [|c s IH]; simpl; [reflexivity|].
  destruct (cls c) eqn:E; [|reflexivity].
  destruct (Py.span cls s) as [m rest]; simpl in *; now rewrite E.
Qed.

(** the greedy match of a class stops at the first character outside it *)
Lemma span_stop (cls : ascii -> bool) (body : string) (c : ascii)
  (rest : string) :
  all_chars cls body = true -> cls c = false ->
  Py.span cls (body ++ String c rest) = (body, String c rest).
Proof.
  intros Hb Hc; induction body as [|b body IH]; simpl in *.
  - now rewrite Hc.
  - apply andb_true_iff in Hb as [Hb1 Hb2]; rewrite Hb1, (IH Hb2); reflexivity.
Qed.

Lemma span_end (cls : ascii -> bool) (body : string) :
  all_chars cls body = true -> Py.span cls body = (body, "").
Proof.
  intros Hb; induction body as [|b body IH]; simpl in *; [reflexivity|].
  apply andb_true_iff in Hb as [Hb1 Hb2]; rewrite Hb1, (IH Hb2); reflexivity.
Qed.

Lemma re_match_append (r : Py.regex) (s m rest : string) :
  Py.re_match r s = Some (m, rest) -> s = m ++ rest.
Proof.
  revert s m rest; induction r as [lit|cls|cls|r1 IH1 r2 IH2];
    intros s m rest; simpl.
  - destruct (Py.match_lit lit s) as [rest'|] eqn:E; [|discriminate].
    intros [= <- <-]; now apply match_lit_append.
  - intros [= H]; rewrite (span_append cls s) at 1; now rewrite H.
  - pose proof (span_append cls s) as H.
    destruct (Py.span cls s) as [[|c m'] rest']; [discriminate|].
    now intros [= <- <-].
  - destruct (Py.re_match r1 s) as [[m1 rest1]|] eqn:E1; [|discriminate].
    destruct (Py.re_match r2 rest1) as [[m2 rest2]|] eqn:E2; [|discriminate].
    intros [= <- <-]; rewrite append_assoc.
    rewrite (IH1 _ _ _ E1); f_equal; now apply IH2.
Qed.

Lemma re_match_nonnull (r : Py.regex) (s m rest : string) :
  nonnull r = true -> Py.re_match r s = Some (m, rest) -> m <> "".
Proof.
  revert s m rest; induction r as [lit|cls|cls|r1 IH1 r2 IH2];
    intros s m rest; simpl.
  - destruct lit; [discriminate|].
    destruct (Py.match_lit _ s); [|discriminate]; now intros _ [= <- _].
  - discriminate.
  - destruct (Py.span cls s) as [[|c m'] rest']; [discriminate|].
    now intros _ [= <- _].
  - intros Hn.
    destruct (Py.re_match r1 s) as [[m1 rest1]|] eqn:E1; [|discriminate].
    destruct (Py.re_match r2 rest1) as [[m2 rest2]|] eqn:E2; [|discriminate].
    intros [= <- <-]; apply orb_true_iff in Hn as [Hn|Hn].
    + specialize (IH1 _ _ _ Hn E1); destruct m1; [congruence | discriminate].
    + specialize (IH2 _ _ _ Hn E2); destruct m1; [exact IH2 | discriminate].
Qed.

(** ** Lexer *)

Lemma first_match_in (table : list (tok_type * Py.regex)) (s : string)
  (t : tok_type) (v rest : string) :
  first_match table s = Some (t, v, rest) ->
  exists r, In (t, r) table /\ Py.re_match r s = Some (v, rest).
Proof.
  induction table as [|[t' r'] table IH]; simpl; [discriminate|].
  destruct (Py.re_match r' s) as [[v' rest']|] eqn:E.
  - intros [= <- <- <-]; eauto.
  - intros H; destruct (IH H) as (r & Hin & Hr); eauto.
Qed.

Lemma TOKEN_REGEX_nonnull :
  forallb (fun p => nonnull (snd p)) TOKEN_REGEX = true.
Proof. reflexivity. Qed.

(** Every match of the table consumes the text it matched, and at least one
    character: the scan position always advances. *)
Lemma first_match_advance (s : string) (t : tok_type) (v rest : string) :
  first_match TOKEN_REGEX s = Some (t, v, rest) ->
  s = v ++ rest /\ v <> "".
Proof.
  intros H; destruct (first_match_in _ _ _ _ _ H) as (r & Hin & Hr).
  split; [now apply (re_match_append r)|].
  apply (re_match_nonnull r s v rest); [|exact Hr].
  pose proof TOKEN_REGEX_nonnull as Hall.
  rewrite forallb_forall in Hall; exact (Hall _ Hin).
Qed.

Lemma first_match_shorter (s : string) (t : tok_type) (v rest : string) :
  first_match TOKEN_REGEX s = Some (t, v, rest) ->
  String.length rest < String.length s.
Proof.
  intros H; destruct (first_match_advance _ _ _ _ H) as [-> Hv].
  rewrite length_append; destruct v; [congruence | simpl; lia].
Qed.

Lemma lex_loop_enough (fuel pos : nat) (s : string) (tokens : list Token) :
  String.length s <= fuel -> lex_loop fuel pos s tokens <> None.
Proof.
  revert pos s tokens; induction fuel as [|fuel IH]; intros pos s tokens Hlen.
  - destruct s; [discriminate | simpl in Hlen; lia].
  - destruct s as [|c s]; [discriminate|].
    cbn [lex_loop].
    destruct (first_match TOKEN_REGEX (String c s)) as [[[t v] rest]|] eqn:E;
      [|discriminate].
    apply IH. apply first_match_shorter in E. lia.
Qed.

Lemma lex_loop_more_fuel (fuel fuel' pos : nat) (s : string)
  (tokens : list Token) (r : result (list Token)) :
  lex_loop fuel pos s tokens = Some r -> fuel <= fuel' ->
  lex_loop fuel' pos s tokens = Some r.
Proof.
  revert fuel' pos s tokens; induction fuel as [|fuel IH];
    intros fuel' pos s tokens H Hle.
  - destruct s; [|discriminate]. now destruct fuel'.
  - destruct fuel' as [|fuel']; [lia|].
    destruct s as [|c s]; [exact H|].
    cbn [lex_loop] in *.
    destruct (first_match TOKEN_REGEX (String c s)) as [[[t v] rest]|];
      [|exact H].
    apply IH; [exact H | lia].
Qed.

Lemma lex_total (text : string) : exists r, lex text = Some r.
Proof.
  unfold lex.
  destruct (lex_loop _ 0 text []) as [r|] eqn:E; [eauto|].
  now apply lex_loop_enough in E.
Qed.

(** the text of a token is text that its pattern matches *)
Lemma first_match_wf (s : string) (t : tok_type) (v rest : string) :
  first_match TOKEN_REGEX s = Some (t, v, rest) ->
  t <> WS -> t <> COMMENT -> token_wf (mkToken t v).
Proof.
  intros H Hws Hc; destruct (first_match_in _ _ _ _ _ H) as (r & Hin & Hr).
  unfold token_wf; simpl.
  assert (Hplus : forall cls, r = Py.Plus cls ->
                    v <> "" /\ all_chars cls v = true).
  { intros cls ->; simpl in Hr.
    pose proof (span_all cls s) as Hall.
    destruct (Py.span cls s) as [[|c m] rest']; [discriminate|].
    injection Hr as <- <-; split; [discriminate | exact Hall]. }
  simpl in Hin.
  repeat (destruct Hin as [Hin|Hin];
          [injection Hin as <- <-; try exact I; try congruence;
           now apply Hplus|]).
  destruct Hin.
Qed.

Lemma lex_loop_wf (fuel pos : nat) (s : string) (tokens out : list Token) :
  Forall token_wf tokens ->
  lex_loop fuel pos s tokens = Some (Ok out) -> Forall token_wf out.
Proof.
  revert pos s tokens; induction fuel as [|fuel IH]; intros pos s tokens Hwf.
  - destruct s; [now intros [= <-] | discriminate].
  - destruct s as [|c s]; [now intros [= <-]|].
    cbn [lex_loop].
    destruct (first_match TOKEN_REGEX (String c s)) as [[[t v] rest]|] eqn:E;
      [|discriminate].
    apply IH.
    pose proof (first_match_wf _ _ _ _ E) as Ht.
    destruct t; try exact Hwf;
      (apply Forall_app; split; [exact Hwf|]; constructor; [|constructor];
       apply Ht; discriminate).
Qed.

Lemma lex_wf (text : string) (tokens : list Token) :
  lex text = Some (Ok tokens) -> Forall token_wf tokens.
Proof. apply lex_loop_wf; constructor. Qed.

(** A failure of the scan is a [LexError] that names the character at the
    position where no pattern matched, and that position. *)
Lemma lex_loop_error (fuel pos : nat) (s : string) (tokens : list Token)
  (e : exn) :
  lex_loop fuel pos s tokens = Some (Raise e) ->
  exists k c,
    e = lex_error c (pos + k) /\ String.get k s = Some c
    /\ first_match TOKEN_REGEX (drop k s) = None.
Proof.
  revert pos s tokens; induction fuel as [|fuel IH]; intros pos s tokens.
  - destruct s; discriminate.
  - destruct s as [|c s]; [discriminate|].
    cbn [lex_loop].
    destruct (first_match TOKEN_REGEX (String c s)) as [[[t v] rest]|] eqn:E.
    + intros H; destruct (IH _ _ _ H) as (k & c' & -> & Hget & Hnone).
      destruct (first_match_advance _ _ _ _ E) as [Hs _].
      exists (String.length v + k), c'; rewrite Hs.
      split; [f_equal; lia|]; split.
      * now rewrite <- get_drop, drop_append.
      * now rewrite <- drop_drop, drop_append.
    + intros [= <-]; exists 0, c; rewrite Nat.add_0_r; auto.
Qed.

(** at an asterisk the COMMENT pattern matches, up to the next line feed *)
Lemma first_match_comment (s : string) :
  first_match TOKEN_REGEX (String "*" s)
  = Some (COMMENT, String "*" (fst (Py.span Py.is_dot s)),
          snd (Py.span Py.is_dot s)).
Proof.
  unfold TOKEN_REGEX; cbn [first_match Py.re_match Py.match_lit].
  rewrite Ascii.eqb_refl.
  now destruct (Py.span Py.is_dot s).
Qed.

Lemma comment_span (body rest : string) :
  all_chars Py.is_dot body = true ->
  rest = "" \/ (exists rest', rest = String Py.newline rest') ->
  Py.span Py.is_dot (body ++ rest) = (body, rest).
Proof.
  intros Hb [->|[rest' ->]].
  - rewrite append_nil_r; now apply span_end.
  - now apply span_stop.
Qed.



(** ** Parser: the fuel is enough *)

Section ParserFuel.
Import Parser.

Lemma consumes_weaken {A} (k k' : nat) (m : M A) :
  consumes k m -> k' <= k -> consumes k' m.
Proof.
  intros H Hle ts a ts' E; destruct (H _ _ _ E) as (pre & Hpre & Hk).
  exists pre; split; [exact Hpre | lia].
Qed.

Lemma consumes_ret {A} (a : A) : consumes 0 (ret a).
Proof. intros ts b ts' [= <- <-]; now exists []. Qed.

Lemma consumes_raise {A} (k : nat) (e : exn) : consumes k (@raise A e).
Proof. intros ts b ts'; discriminate. Qed.

Lemma consumes_peek : consumes 0 peek.
Proof. intros ts b ts' [= <- <-]; now exists []. Qed.

Lemma consumes_eat (t : tok_type) : consumes 1 (eat t).
Proof.
  intros [|tok ts] b ts'; simpl; [discriminate|].
  destruct (tok_type_eqb _ _); [|discriminate].
  intros [= <- <-]; now exists [tok].
Qed.

Lemma consumes_bind {A B} (k1 k2 : nat) (m : M A) (f : A -> M B) :
  consumes k1 m -> (forall a, consumes k2 (f a)) ->
  consumes (k1 + k2) (mbind m f).
Proof.
  intros Hm Hf ts b ts'; unfold mbind.
  destruct (m ts) as [[[a ts1]|e]|] eqn:E; try discriminate.
  intros E'; destruct (Hm _ _ _ E) as (pre1 & -> & H1).
  destruct (Hf _ _ _ _ E') as (pre2 & -> & H2).
  exists (pre1 ++ pre2)%list; rewrite <- app_assoc, length_app.
  split; [reflexivity | lia].
Qed.

Lemma consumes_length {A} (k : nat) (m : M A) ts a ts' :
  consumes k m -> m ts = Some (Ok (a, ts')) -> length ts' + k <= length ts.
Proof.
  intros H E; destruct (H _ _ _ E) as (pre & -> & Hk).
  rewrite length_app; lia.
Qed.

Lemma agree_refl {A} (L : nat) (m : M A) :
  (forall ts, m ts <> None) -> agree L m m.
Proof. intros H ts _; split; [reflexivity | apply H]. Qed.

Lemma agree_ret {A} (L : nat) (a : A) : agree L (ret a) (ret a).
Proof. apply agree_refl; discriminate. Qed.

Lemma agree_raise {A} (L : nat) (e : exn) : agree L (@raise A e) (raise e).
Proof. apply agree_refl; discriminate. Qed.

Lemma agree_peek (L : nat) : agree L peek peek.
Proof. apply agree_refl; discriminate. Qed.

Lemma agree_eat (L : nat) (t : tok_type) : agree L (eat t) (eat t).
Proof.
  apply agree_refl; intros [|tok ts]; simpl; [discriminate|].
  destruct (tok_type_eqb _ _); discriminate.
Qed.

Lemma agree_bind {A B} (k L : nat) (m1 m2 : M A) (f1 f2 : A -> M B) :
  agree L m1 m2 -> consumes k m1 ->
  (forall a, k <= L -> agree (L - k) (f1 a) (f2 a)) ->
  agree L (mbind m1 f1) (mbind m2 f2).
Proof.
  intros Hm Hc Hf ts Hlen; unfold mbind.
  destruct (Hm ts Hlen) as [<- Hdef].
  destruct (m1 ts) as [[[a ts1]|e]|] eqn:E; [| split; [easy|discriminate] |easy].
  pose proof (consumes_length _ _ _ _ _ Hc E).
  apply Hf; lia.
Qed.

Ltac consume_step :=
  match goal with
  | |- consumes 0 (ret _) => apply consumes_ret
  | |- consumes _ (raise _) => apply consumes_raise
  | |- consumes 1 (mbind (eat _) _) =>
      apply (consumes_bind 1 0); [apply consumes_eat | intros ?]
  | |- consumes 0 (mbind (eat _) _) =>
      apply (consumes_bind 0 0);
      [apply (consumes_weaken 1); [apply consumes_eat | lia] | intros ?]
  | |- consumes _ (mbind peek _) =>
      apply (consumes_bind 0 _); [apply consumes_peek | intros ?]
  | |- consumes 0 (mbind _ _) =>
      apply (consumes_bind 0 0);
      [eapply consumes_weaken; [eauto | lia] | intros ?]
  | |- consumes 1 (mbind _ _) =>
      apply (consumes_bind 1 0); [eauto | intros ?]
  | |- consumes _ (if ?b then _ else _) => destruct b
  | |- consumes _ (match ?x with _ => _ end) => destruct x
  | |- consumes _ _ => solve [eauto | eapply consumes_weaken; [eauto | lia]]
  end.

Lemma unfold_consume (P : methods) :
  methods_consume P -> methods_consume (unfold_methods P).
Proof.
  intros [Hv Hl Hll Hc He Hel Ht].
  constructor; simpl; intros;
    unfold parse_value_body, parse_list_body, parse_list_loop_body,
      parse_const_expr_body, parse_expr_body, parse_expr_loop_body,
      parse_term_body;
    repeat consume_step.
Qed.

Lemma methods_at_consume (n : nat) : methods_consume (methods_at n).
Proof.
  induction n as [|n IH]; [|now apply unfold_consume].
  constructor; simpl; intros; intros ts a ts'; discriminate.
Qed.

Ltac agree_step HC HA :=
  match goal with
  | |- agree _ (ret _) (ret _) => apply agree_ret
  | |- agree _ (raise _) (raise _) => apply agree_raise
  | |- agree _ (mbind (eat _) _) (mbind (eat _) _) =>
      apply (agree_bind 1); [apply agree_eat | apply consumes_eat | intros ? ?]
  | |- agree _ (mbind peek _) (mbind peek _) =>
      apply (agree_bind 0); [apply agree_peek | apply consumes_peek | intros ? ?]
  | |- agree _ (mbind (m_value _) _) (mbind (m_value _) _) =>
      apply (agree_bind 1);
      [apply (a_value _ _ _ HA); lia | apply (c_value _ HC) | intros ? ?]
  | |- agree _ (mbind (m_list_loop _ _) _) (mbind (m_list_loop _ _) _) =>
      apply (agree_bind 0);
      [apply (a_list_loop _ _ _ HA); lia | apply (c_list_loop _ HC)
      | intros ? ?]
  | |- agree _ (mbind (m_expr _) _) (mbind (m_expr _) _) =>
      apply (agree_bind 1);
      [apply (a_expr _ _ _ HA); lia | apply (c_expr _ HC) | intros ? ?]
  | |- agree _ (mbind (m_term _) _) (mbind (m_term _) _) =>
      apply (agree_bind 1);
      [apply (a_term _ _ _ HA); lia | apply (c_term _ HC) | intros ? ?]
  | |- agree _ (if ?b then _ else _) (if ?b then _ else _) => destruct b
  | |- agree _ (match ?x with _ => _ end) (match ?x with _ => _ end) =>
      destruct x
  | |- agree _ (m_list _) (m_list _) => apply (a_list _ _ _ HA); lia
  | |- agree _ (m_const_expr _) (m_const_expr _) =>
      apply (a_const_expr _ _ _ HA); lia
  | |- agree _ (m_list_loop _ _) (m_list_loop _ _) =>
      apply (a_list_loop _ _ _ HA); lia
  | |- agree _ (m_expr_loop _ _) (m_expr_loop _ _) =>
      apply (a_expr_loop _ _ _ HA); lia
  end.

Lemma unfold_agree (n : nat) (P Q : methods) :
  methods_consume P -> methods_agree n P Q ->
  methods_agree (S n) (unfold_methods P) (unfold_methods Q).
Proof.
  intros HC HA.
  constructor; simpl; intros;
    unfold parse_value_body, parse_list_body, parse_list_loop_body,
      parse_const_expr_body, parse_expr_body, parse_expr_loop_body,
      parse_term_body;
    repeat agree_step HC HA.
Qed.

(** one more level of fuel changes nothing where the fuel was enough *)
Lemma methods_at_step (n : nat) :
  methods_agree n (methods_at n) (methods_at (S n)).
Proof.
  induction n as [|n IH].
  - constructor; intros; lia.
  - apply (unfold_agree n (methods_at n) (methods_at (S n)));
      [apply methods_at_consume | exact IH].
Qed.

Lemma below_refl {A} (m : M A) : below m m.
Proof. intros ts r H; exact H. Qed.

Lemma below_bind {A B} (m1 m2 : M A) (f1 f2 : A -> M B) :
  below m1 m2 -> (forall a, below (f1 a) (f2 a)) ->
  below (mbind m1 f1) (mbind m2 f2).
Proof.
  intros Hm Hf ts r; unfold mbind.
  destruct (m1 ts) as [[[a ts1]|e]|] eqn:E; [| |discriminate];
    rewrite (Hm _ _ E); [apply Hf | easy].
Qed.

Ltac below_step HB :=
  match goal with
  | |- below (mbind _ _) (mbind _ _) => apply below_bind; [|intros ?]
  | |- below (if ?b then _ else _) (if ?b then _ else _) => destruct b
  | |- below (match ?x with _ => _ end) (match ?x with _ => _ end) =>
      destruct x
  | |- below ?m ?m => apply below_refl
  | |- below _ _ => solve [apply HB]
  end.

Lemma unfold_below (P Q : methods) :
  methods_below P Q -> methods_below (unfold_methods P) (unfold_methods Q).
Proof.
  intros HB.
  constructor; simpl; intros;
    unfold parse_value_body, parse_list_body, parse_list_loop_body,
      parse_const_expr_body, parse_expr_body, parse_expr_loop_body,
      parse_term_body;
    repeat below_step HB.
Qed.

Lemma methods_at_below (n m : nat) :
  n <= m -> methods_below (methods_at n) (methods_at m).
Proof.
  revert m; induction n as [|n IH]; intros m Hle.
  - constructor; simpl; intros; intros ts r; discriminate.
  - destruct m as [|m]; [lia|].
    apply unfold_below, IH; lia.
Qed.

Lemma parse_stmt_below (P Q : methods) :
  methods_below P Q -> below (parse_stmt_body P) (parse_stmt_body Q).
Proof. intros HB; unfold parse_stmt_body; repeat below_step HB. Qed.

Lemma parse_loop_below (i i' : nat) (P Q : methods) (stmts : list stmt) :
  i <= i' -> methods_below P Q ->
  below (parse_loop i P stmts) (parse_loop i' Q stmts).
Proof.
  intros Hle HB; revert i' stmts Hle; induction i as [|i IH];
    intros i' stmts Hle.
  - intros ts r; discriminate.
  - destruct i' as [|i']; [lia|]. cbn [parse_loop].
    apply below_bind; [apply below_refl|]; intros [tok|];
      [|apply below_refl].
    apply below_bind; [now apply parse_stmt_below|].
    intros st; apply IH; lia.
Qed.

(** a run of the parser that ended keeps its outcome with more fuel *)
Lemma parse_with_more_fuel (i i' f f' : nat) (tokens : list Token)
  (r : result (list stmt)) :
  parse_with i f tokens = Some r -> i <= i' -> f <= f' ->
  parse_with i' f' tokens = Some r.
Proof.
  unfold parse_with; intros H Hi Hf.
  destruct (parse_loop i (methods_at f) [] tokens) as [r0|] eqn:E;
    [|discriminate].
  rewrite (parse_loop_below i i' _ _ [] Hi (methods_at_below f f' Hf) _ _ E).
  exact H.
Qed.

Lemma agree_of_below {A} (L : nat) (m1 m1' m2 : M A) :
  agree L m1 m1' -> below m1 m2 -> agree L m1 m2.
Proof.
  intros Ha Hb ts Hlen; destruct (Ha ts Hlen) as [_ Hdef].
  split; [|exact Hdef].
  destruct (m1 ts) as [r|] eqn:E; [|easy].
  symmetry; now apply Hb.
Qed.

Lemma methods_at_agree (n m : nat) :
  n <= m -> methods_agree n (methods_at n) (methods_at m).
Proof.
  intros Hle; pose proof (methods_at_step n) as HA.
  pose proof (methods_at_below n m Hle) as HB.
  constructor; intros.
  - eapply agree_of_below; [now apply (a_value _ _ _ HA) | apply HB].
  - eapply agree_of_below; [now apply (a_list _ _ _ HA) | apply HB].
  - eapply agree_of_below; [now apply (a_list_loop _ _ _ HA) | apply HB].
  - eapply agree_of_below; [now apply (a_const_expr _ _ _ HA) | apply HB].
  - eapply agree_of_below; [now apply (a_expr _ _ _ HA) | apply HB].
  - eapply agree_of_below; [now apply (a_expr_loop _ _ _ HA) | apply HB].
  - eapply agree_of_below; [now apply (a_term _ _ _ HA) | apply HB].
Qed.

Lemma agree_the {A} (f : methods -> M A) (c : nat) :
  c <= 3 ->
  (forall n m L, n <= m -> 3 * L + c <= n ->
                 agree L (f (methods_at n)) (f (methods_at m))) ->
  forall n L, 3 * L + c <= n ->
    agree L (f (methods_at n)) (fun ts => f (methods_at (enough ts)) ts).
Proof.
  intros Hc H n L Hn ts Hlen.
  destruct (Nat.le_ge_cases n (enough ts)) as [Hle|Hle].
  - exact (H n (enough ts) L Hle Hn ts Hlen).
  - assert (He : 3 * length ts + c <= enough ts) by (unfold enough; lia).
    destruct (H (enough ts) n (length ts) Hle He ts (Nat.le_refl _))
      as [Heq Hdef].
    rewrite <- Heq; split; [reflexivity | exact Hdef].
Qed.

Lemma methods_at_the (n : nat) : methods_agree n (methods_at n) the_methods.
Proof.
  constructor; intros; unfold the_methods; cbn [m_value m_list m_list_loop
    m_const_expr m_expr m_expr_loop m_term].
  - apply (agree_the m_value 2); [lia| |assumption].
    intros n0 m0 L0 H1 H2; now apply (a_value _ _ _ (methods_at_agree n0 m0 H1)).
  - apply (agree_the m_list 1); [lia| |assumption].
    intros n0 m0 L0 H1 H2; now apply (a_list _ _ _ (methods_at_agree n0 m0 H1)).
  - apply (agree_the (fun P => m_list_loop P items) 3); [lia| |assumption].
    intros n0 m0 L0 H1 H2;
      now apply (a_list_loop _ _ _ (methods_at_agree n0 m0 H1)).
  - apply (agree_the m_const_expr 1); [lia| |assumption].
    intros n0 m0 L0 H1 H2;
      now apply (a_const_expr _ _ _ (methods_at_agree n0 m0 H1)).
  - apply (agree_the m_expr 2); [lia| |assumption].
    intros n0 m0 L0 H1 H2; now apply (a_expr _ _ _ (methods_at_agree n0 m0 H1)).
  - apply (agree_the (fun P => m_expr_loop P node) 1); [lia| |assumption].
    intros n0 m0 L0 H1 H2;
      now apply (a_expr_loop _ _ _ (methods_at_agree n0 m0 H1)).
  - apply (agree_the m_term 1); [lia| |assumption].
    intros n0 m0 L0 H1 H2; now apply (a_term _ _ _ (methods_at_agree n0 m0 H1)).
Qed.

(** [the_methods] is a fixed point of [unfold_methods], and never out of
    fuel. *)
Lemma the_methods_fix (n : nat) :
  methods_agree n the_methods (unfold_methods the_methods).
Proof.
  constructor; intros L; intros; intros ts Hlen;
    pose proof (unfold_agree _ _ _ (methods_at_consume (length ts + length ts
                                                        + length ts + 2))
                  (methods_at_the _)) as HA;
    unfold the_methods at 1 3; cbn [m_value m_list m_list_loop m_const_expr
      m_expr m_expr_loop m_term]; unfold enough;
    replace (3 * length ts + 3) with (S (length ts + length ts + length ts + 2))
      by lia.
  - apply (a_value _ _ _ HA (length ts)); lia.
  - apply (a_list _ _ _ HA (length ts)); lia.
  - apply (a_list_loop _ _ _ HA (length ts)); lia.
  - apply (a_const_expr _ _ _ HA (length ts)); lia.
  - apply (a_expr _ _ _ HA (length ts)); lia.
  - apply (a_expr_loop _ _ _ HA (length ts)); lia.
  - apply (a_term _ _ _ HA (length ts)); lia.
Qed.

Lemma the_value_eq ts :
  m_value the_methods ts = parse_value_body the_methods ts.
Proof.
  apply (a_value _ _ _ (the_methods_fix (3 * length ts + 2)) (length ts));
    lia.
Qed.

Lemma the_list_eq ts :
  m_list the_methods ts = parse_list_body the_methods ts.
Proof.
  apply (a_list _ _ _ (the_methods_fix (3 * length ts + 1)) (length ts)); lia.
Qed.

Lemma the_list_loop_eq items ts :
  m_list_loop the_methods items ts
  = parse_list_loop_body the_methods items ts.
Proof.
  apply (a_list_loop _ _ _ (the_methods_fix (3 * length ts + 3)) (length ts));
    lia.
Qed.

Lemma the_const_expr_eq ts :
  m_const_expr the_methods ts = parse_const_expr_body the_methods ts.
Proof.
  apply (a_const_expr _ _ _ (the_methods_fix (3 * length ts + 1))
           (length ts)); lia.
Qed.

Lemma the_expr_eq ts :
  m_expr the_methods ts = parse_expr_body the_methods ts.
Proof.
  apply (a_expr _ _ _ (the_methods_fix (3 * length ts + 2)) (length ts)); lia.
Qed.

Lemma the_expr_loop_eq node ts :
  m_expr_loop the_methods node ts
  = parse_expr_loop_body the_methods node ts.
Proof.
  apply (a_expr_loop _ _ _ (the_methods_fix (3 * length ts + 1)) (length ts));
    lia.
Qed.

Lemma the_term_eq ts :
  m_term the_methods ts = parse_term_body the_methods ts.
Proof.
  apply (a_term _ _ _ (the_methods_fix (3 * length ts + 1)) (length ts)); lia.
Qed.

Lemma the_methods_consume : methods_consume the_methods.
Proof.
  constructor; intros; intros ts a ts' H;
    unfold the_methods in H; cbn [m_value m_list m_list_loop m_const_expr
      m_expr m_expr_loop m_term] in H;
    pose proof (methods_at_consume (enough ts)) as HC.
  - exact (c_value _ HC _ _ _ H).
  - exact (c_list _ HC _ _ _ H).
  - exact (c_list_loop _ HC _ _ _ _ H).
  - exact (c_const_expr _ HC _ _ _ H).
  - exact (c_expr _ HC _ _ _ H).
  - exact (c_expr_loop _ HC _ _ _ _ H).
  - exact (c_term _ HC _ _ _ H).
Qed.

Lemma parse_stmt_consume (P : methods) :
  methods_consume P -> consumes 1 (parse_stmt_body P).
Proof.
  intros [Hv Hl Hll Hc He Hel Ht]; unfold parse_stmt_body;
    repeat consume_step.
Qed.

Lemma parse_stmt_agree (n L : nat) (P Q : methods) :
  methods_consume P -> methods_agree n P Q -> 3 * L + 2 <= n ->
  agree L (parse_stmt_body P) (parse_stmt_body Q).
Proof.
  intros HC HA Hn; unfold parse_stmt_body; repeat agree_step HC HA.
Qed.

Lemma parse_loop_agree (i n L : nat) (P Q : methods) (stmts : list stmt) :
  methods_consume P -> methods_agree n P Q -> 3 * L + 2 <= n -> L < i ->
  agree L (parse_loop i P stmts) (parse_loop i Q stmts).
Proof.
  intros HC HA; revert L stmts; induction i as [|i IH];
    intros L stmts Hn Hi; [lia|].
  cbn [parse_loop].
  apply (agree_bind 0); [apply agree_peek | apply consumes_peek|].
  intros [tok|] _; [|apply agree_ret].
  apply (agree_bind 1);
    [apply (parse_stmt_agree n); auto; lia | now apply parse_stmt_consume|].
  intros st HL; apply IH; lia.
Qed.

(** the number of iterations allowed does not matter once it exceeds the
    number of unread tokens *)
Lemma parse_loop_iters (i i' : nat) (P : methods) (stmts : list stmt) ts :
  methods_consume P -> length ts < i -> length ts < i' ->
  parse_loop i P stmts ts = parse_loop i' P stmts ts.
Proof.
  intros HC; revert i' stmts ts; induction i as [|i IH];
    intros i' stmts ts Hi Hi'; [lia|].
  destruct i' as [|i']; [lia|].
  cbn [parse_loop]; unfold mbind at 1 3, peek.
  destruct ts as [|tok ts]; [reflexivity|]. cbn [hd_error].
  unfold mbind.
  destruct (parse_stmt_body P (tok :: ts)) as [[[st ts']|e]|] eqn:E;
    try reflexivity.
  pose proof (consumes_length _ _ _ _ _ (parse_stmt_consume P HC) E) as Hlen.
  cbn [length] in *; apply IH; lia.
Qed.

Lemma the_loop_eq (stmts : list stmt) ts :
  the_loop stmts ts
  = (tok <- peek ;;
     match tok with
     | Some _ =>
         st <- parse_stmt_body the_methods ;; the_loop (stmts ++ [st])
     | None => ret stmts
     end) ts.
Proof.
  unfold the_loop at 1; cbn [parse_loop]; unfold mbind, peek.
  destruct ts as [|tok ts]; [reflexivity|]. cbn [hd_error].
  destruct (parse_stmt_body the_methods (tok :: ts)) as [[[st ts']|e]|] eqn:E;
    try reflexivity.
  pose proof (consumes_length _ _ _ _ _
                (parse_stmt_consume _ the_methods_consume) E) as Hlen.
  unfold the_loop; cbn [length] in *; apply parse_loop_iters;
    [apply the_methods_consume | cbn [length]; lia..].
Qed.

(** [parse] runs the loop without fuel, and always has an outcome *)
Lemma parse_the_loop (tokens : list Token) :
  parse tokens
  = match the_loop [] tokens with
    | Some (Ok (stmts, _)) => Some (Ok stmts)
    | Some (Raise e) => Some (Raise e)
    | None => None
    end
  /\ the_loop [] tokens <> None.
Proof.
  unfold parse, parse_with, the_loop.
  destruct (parse_loop_agree (S (length tokens)) (enough tokens)
              (length tokens) _ _ [] (methods_at_consume _)
              (methods_at_the _)) with (ts := tokens) as [Heq Hdef];
    unfold enough; try lia.
  unfold enough in Heq, Hdef. rewrite <- Heq; split; [reflexivity | exact Hdef].
Qed.

Lemma parse_total (tokens : list Token) : exists r, parse tokens = Some r.
Proof.
  destruct (parse_the_loop tokens) as [-> Hdef].
  destruct (the_loop [] tokens) as [[[stmts ts]|e]|]; [eauto..|easy].
Qed.

End ParserFuel.

(** ** Parser: unary minus *)

Section UnaryMinus.
Import Parser.

Lemma term_minus (minus : Token) ts :
  type minus = MINUS ->
  m_term the_methods (minus :: ts)
  = (term <- m_term the_methods ;; ret (E_MINUS (E_num 0) term)) ts.
Proof.
  intros Hm; rewrite the_term_eq; unfold parse_term_body.
  unfold mbind at 1, peek; cbn [hd_error]; rewrite Hm; cbn [tok_type_eqb].
  unfold mbind at 1, eat; rewrite Hm; reflexivity.
Qed.

Lemma term_number (num : Token) ts :
  type num = NUMBER ->
  m_term the_methods (num :: ts) = Some (Ok (E_num (Py.int (value num)), ts)).
Proof.
  intros Hn; rewrite the_term_eq; unfold parse_term_body.
  unfold mbind at 1, peek; cbn [hd_error]; rewrite Hn; cbn [tok_type_eqb].
  unfold mbind, eat; rewrite Hn; reflexivity.
Qed.

Lemma expr_loop_minus (minus : Token) (node : expr) ts :
  type minus = MINUS ->
  m_expr_loop the_methods node (minus :: ts)
  = (right <- m_term the_methods ;;
     m_expr_loop the_methods (E_MINUS node right)) ts.
Proof.
  intros Hm; rewrite the_expr_loop_eq; unfold parse_expr_loop_body.
  unfold mbind at 1, peek; cbn [hd_error]; rewrite Hm; cbn [tok_type_eqb].
  unfold mbind at 1, eat; rewrite Hm; reflexivity.
Qed.

(** with enough fuel, [parse_expr] is the method without fuel *)
Lemma parse_expr_enough (fuel : nat) ts :
  3 * length ts + 2 <= fuel -> parse_expr fuel ts = m_expr the_methods ts.
Proof.
  intros Hf; apply (a_expr _ _ _ (methods_at_the fuel) (length ts)); lia.
Qed.

(** C7. An expression that starts with a minus sign parses as the same
    expression with [0 -] in place of the sign: [parse_expr] has the same
    outcome (AST, unread tokens, or failure) on both, and where the term
    after the sign parses to [t] the term with the sign parses to the
    subtraction of [t] from the literal zero. *)
Theorem unary_minus_desugared (minus zero : Token) ts :
  type minus = MINUS -> type zero = NUMBER -> Py.int (value zero) = 0%Z ->
  (forall fuel, 3 * length (zero :: minus :: ts) + 2 <= fuel ->
     parse_expr fuel (minus :: ts) = parse_expr fuel (zero :: minus :: ts))
  /\ m_expr the_methods (minus :: ts)
     = m_expr the_methods (zero :: minus :: ts)
  /\ (forall t rest,
       m_term the_methods ts = Some (Ok (t, rest)) ->
       m_term the_methods (minus :: ts)
       = Some (Ok (E_MINUS (E_num 0) t, rest))).
Proof.
  intros Hm Hz H0.
  assert (Heq : m_expr the_methods (minus :: ts)
                = m_expr the_methods (zero :: minus :: ts));
    [|split; [|split; [exact Heq|]]].
  2:{ intros fuel Hf; rewrite !parse_expr_enough;
        [exact Heq | exact Hf | cbn [length] in *; lia]. }
  - rewrite !the_expr_eq; unfold parse_expr_body.
    unfold mbind.
    rewrite (term_minus _ _ Hm), (term_number _ _ Hz), H0.
    rewrite (expr_loop_minus _ _ _ Hm).
    unfold mbind, ret.
    now destruct (m_term the_methods ts) as [[[t rest]|e]|].
  - intros t rest Ht; rewrite (term_minus _ _ Hm); unfold mbind.
    now rewrite Ht.
Qed.

Lemma unary_minus_desugared_witness :
  lex "-X" = Some (Ok [mkToken MINUS "-"; mkToken IDENT "X"])
  /\ lex "0 - X"
     = Some (Ok [mkToken NUMBER "0"; mkToken MINUS "-"; mkToken IDENT "X"])
  /\ parse_expr 11 [mkToken MINUS "-"; mkToken IDENT "X"]
  = parse_expr 11 [mkToken NUMBER "0"; mkToken MINUS "-"; mkToken IDENT "X"]
  /\ m_term the_methods [mkToken MINUS "-"; mkToken IDENT "X"]
     = Some (Ok (E_MINUS (E_num 0) (E_var "X"), [])).
Proof.
  destruct (unary_minus_desugared (mkToken MINUS "-") (mkToken NUMBER "0")
              [mkToken IDENT "X"] eq_refl eq_refl eq_refl) as (H1 & _ & H2).
  split; [vm_compute; reflexivity|]; split; [vm_compute; reflexivity|].
  split; [apply H1; cbn [length]; lia | apply H2; reflexivity].
Defined.

End UnaryMinus.

(** ** Parser: failures *)

Section ParserFailures.
Import Parser.

Lemma tok_type_eqb_eq (a b : tok_type) : tok_type_eqb a b = true <-> a = b.
Proof. destruct a, b; simpl; split; intros H; congruence. Qed.

Lemma fails_ret {A} (a : A) ts : fails_on (ret a) ts.
Proof. intros e; discriminate. Qed.

Lemma fails_peek {A} (k : option Token -> M A) ts :
  fails_on (k (hd_error ts)) ts -> fails_on (mbind peek k) ts.
Proof. intros H; exact H. Qed.

Lemma fails_eat (t : tok_type) ts : fails_on (eat t) ts.
Proof.
  intros e; destruct ts as [|tok ts]; simpl.
  - intros [= <-]; exists [], []; split; [reflexivity|].
    left; exists t; split; [reflexivity | discriminate].
  - destruct (tok_type_eqb (type tok) t) eqn:E; [discriminate|].
    intros [= <-]; exists [], (tok :: ts); split; [reflexivity|].
    left; exists t; split; [reflexivity|]; simpl; intros [= H].
    apply tok_type_eqb_eq in H; congruence.
Qed.

Lemma fails_unexpected {A} (tok : Token) ts :
  fails_on (@raise A (unexpected_error tok)) (tok :: ts).
Proof.
  intros e [= <-]; exists [], (tok :: ts); split; [reflexivity|].
  right; left; exists tok; split; reflexivity.
Qed.

Lemma fails_none {A} : fails_on (@raise A none_type_error) [].
Proof.
  intros e [= <-]; exists [], []; split; [reflexivity|].
  right; right; split; reflexivity.
Qed.

Lemma fails_bind {A B} (m : M A) (f : A -> M B) ts :
  consumes 0 m -> fails_on m ts -> (forall a ts', fails_on (f a) ts') ->
  fails_on (mbind m f) ts.
Proof.
  intros Hc Hm Hf e; unfold mbind.
  destruct (m ts) as [[[a ts']|e']|] eqn:E; [| |discriminate].
  - intros H; destruct (Hc _ _ _ E) as (pre0 & -> & _).
    destruct (Hf _ _ _ H) as (pre & rest & -> & Hfail).
    exists (pre0 ++ pre)%list, rest; split; [apply app_assoc | exact Hfail].
  - intros [= <-]; now apply Hm.
Qed.

Ltac fail_step HC HF :=
  match goal with
  | |- fails_on (ret _) _ => apply fails_ret
  | |- fails_on (raise (unexpected_error ?tok)) (?tok :: _) =>
      apply fails_unexpected
  | |- fails_on (raise none_type_error) [] => apply fails_none
  | |- fails_on (mbind peek _) ?ts =>
      apply fails_peek; destruct ts; cbn [hd_error]
  | |- fails_on (mbind (eat _) _) _ =>
      apply fails_bind;
      [apply (consumes_weaken 1); [apply consumes_eat | lia]
      | apply fails_eat | intros ? ?]
  | |- fails_on (mbind _ _) _ =>
      apply fails_bind;
      [first [ apply (c_list_loop _ HC)
             | apply (consumes_weaken 1); [apply HC | lia] ]
      | apply HF | intros ? ?]
  | |- fails_on (if ?b then _ else _) _ => destruct b
  | |- fails_on _ _ => solve [apply HF]
  end.

Lemma unfold_fail (P : methods) :
  methods_consume P -> methods_fail P -> methods_fail (unfold_methods P).
Proof.
  intros HC HF.
  constructor; simpl; intros;
    unfold parse_value_body, parse_list_body, parse_list_loop_body,
      parse_const_expr_body, parse_expr_body, parse_expr_loop_body,
      parse_term_body;
    repeat fail_step HC HF.
Qed.

Lemma methods_at_fail (n : nat) : methods_fail (methods_at n).
Proof.
  induction n as [|n IH];
    [|now apply unfold_fail; [apply methods_at_consume|]].
  constructor; simpl; intros; intros e; discriminate.
Qed.

Lemma parse_stmt_fail (P : methods) ts :
  methods_consume P -> methods_fail P -> fails_on (parse_stmt_body P) ts.
Proof.
  intros HC HF; unfold parse_stmt_body; repeat fail_step HC HF.
Qed.

Lemma parse_loop_fail (i : nat) (P : methods) (stmts : list stmt) ts :
  methods_consume P -> methods_fail P -> fails_on (parse_loop i P stmts) ts.
Proof.
  intros HC HF; revert stmts ts; induction i as [|i IH]; intros stmts ts.
  - intros e; discriminate.
  - cbn [parse_loop]; apply fails_peek.
    destruct (hd_error ts); [|apply fails_ret].
    apply fails_bind;
      [ apply (consumes_weaken 1); [now apply parse_stmt_consume | lia]
      | now apply parse_stmt_fail | intros st ts'; apply IH ].
Qed.

(** Every failure of [parse] is one of the three failures of
    [syntax_failure], at some point of the token sequence. *)
Lemma parse_failure (tokens : list Token) (e : exn) :
  parse tokens = Some (Raise e) ->
  exists pre rest, tokens = (pre ++ rest)%list /\ syntax_failure rest e.
Proof.
  unfold parse, parse_with; intros H.
  apply (parse_loop_fail (S (length tokens)) (methods_at (enough tokens)) []
           tokens (methods_at_consume _) (methods_at_fail _) e).
  destruct (parse_loop _ _ _ tokens) as [[[stmts ts]|e']|];
    [discriminate | now injection H as -> | discriminate].
Qed.

End ParserFailures.

Section ParserErrors.
Import Parser.


(** When the tokens run out where a value or a term must start, [tok.type]
    is read off [None]: the failure is an [AttributeError] and no syntax
    error. *)
Lemma parse_value_at_end_of_input :
  lex "set A ="
  = Some (Ok [mkToken SET "set"; mkToken IDENT "A"; mkToken EQUAL "="])
  /\ parse [mkToken SET "set"; mkToken IDENT "A"; mkToken EQUAL "="]
     = Some (Raise (Builtin AttributeError
                      "'NoneType' object has no attribute 'type'")).
Proof. split; reflexivity. Qed.

End ParserErrors.

(** ** Evaluator *)

Section EvaluatorProperties.

Context {F : Type} (ops : float_ops F).

(** C3, as amended.  Where both operands of [pow] evaluate to ints, a
    non-negative exponent gives the exact integer power; a negative exponent
    is not rejected with a semantic error: the float power of the interpreter
    is applied, and the outcome is a float or an arithmetic error of the
    interpreter, never an [Exception] raised by the translator. *)
Theorem pow_on_integers (consts : dict) (a b : expr) (x y : Z) :
  eval_expr ops a consts = Ok (VInt x) ->
  eval_expr ops b consts = Ok (VInt y) ->
  ((0 <= y)%Z -> eval_expr ops (E_pow a b) consts = Ok (VInt (x ^ y)))
  /\ ((y < 0)%Z ->
      eval_expr ops (E_pow a b) consts
      = match int_pow_neg ops x y with
        | inl (cls, msg) => Raise (Builtin cls msg)
        | inr f => Ok (VFloat f)
        end
      /\ forall msg, eval_expr ops (E_pow a b) consts <> Raise (Exception msg)).
Proof.
  intros Ha Hb; cbn [eval_expr]; rewrite Ha, Hb; cbn [bind py_pow].
  split; intros Hy.
  - apply Z.leb_le in Hy; now rewrite Hy.
  - apply Z.leb_gt in Hy; rewrite Hy.
    destruct (int_pow_neg ops x y) as [[cls m]|f]; split;
      try reflexivity; discriminate.
Qed.

End EvaluatorProperties.

Lemma pow_on_integers_witness :
  eval_expr example_ops (E_pow (E_num 2) (E_num 10)) [] = Ok (VInt 1024)
  /\ eval_expr example_ops (E_pow (E_num 2) (E_MINUS (E_num 0) (E_num 1))) []
     = Ok (VFloat (2, -1)%Z).
Proof.
  split.
  - apply (pow_on_integers example_ops [] (E_num 2) (E_num 10) 2 10
             eq_refl eq_refl); lia.
  - apply (pow_on_integers example_ops [] (E_num 2)
             (E_MINUS (E_num 0) (E_num 1)) 2 (-1) eq_refl eq_refl); lia.
Defined.

(** C3 as stated fails: [pow(2, 0 - 1)] does not fail with a semantic error,
    it evaluates to a float. *)
Lemma pow_negative_exponent_not_rejected :
  eval_expr example_ops (E_num 2) [] = Ok (VInt 2)
  /\ eval_expr example_ops (E_MINUS (E_num 0) (E_num 1)) [] = Ok (VInt (-1))
  /\ eval_expr example_ops (E_pow (E_num 2) (E_MINUS (E_num 0) (E_num 1))) []
     = Ok (VFloat (2, -1)%Z)
  /\ ~ (exists e,
          eval_expr example_ops
            (E_pow (E_num 2) (E_MINUS (E_num 0) (E_num 1))) [] = Raise e).
Proof.
  repeat split; intros [e H]; discriminate H.
Qed.

(** ** The constant table *)

Section TableProperties.

Context {F : Type} (ops : float_ops F).

Local Open Scope list_scope.

Implicit Types (d : @dict F) (v : pyval F).

Lemma dict_get_set_same d k v : dict_get (dict_set d k v) k = Some v.
Proof.
  induction d as [|[k' w] d IH]; simpl.
  - now rewrite String.eqb_refl.
  - destruct (String.eqb k' k) eqn:E; simpl; rewrite E; [reflexivity | exact IH].
Qed.

Lemma dict_get_set_other d k k' v :
  k' <> k -> dict_get (dict_set d k v) k' = dict_get d k'.
Proof.
  intros Hne; induction d as [|[k0 w] d IH]; simpl.
  - destruct (String.eqb_spec k k'); [congruence | reflexivity].
  - destruct (String.eqb_spec k0 k) as [->|Hk]; simpl.
    + destruct (String.eqb_spec k k'); [congruence | reflexivity].
    + destruct (String.eqb_spec k0 k'); [reflexivity | exact IH].
Qed.

Lemma dict_get_split d1 d2 k v :
  ~ In k (map fst d1) -> dict_get (d1 ++ (k, v) :: d2) k = Some v.
Proof.
  induction d1 as [|[k' w] d1 IH]; simpl; intros Hn.
  - now rewrite String.eqb_refl.
  - destruct (String.eqb_spec k' k) as [->|Hk]; [tauto | apply IH; tauto].
Qed.

(** a new key goes last *)
Lemma dict_set_fresh d k v :
  ~ In k (map fst d) -> dict_set d k v = d ++ [(k, v)].
Proof.
  induction d as [|[k' w] d IH]; simpl; intros Hn; [reflexivity|].
  destruct (String.eqb_spec k' k) as [->|Hk]; [tauto|].
  f_equal; apply IH; tauto.
Qed.

(** the keys of a table only grow, at the end *)
Lemma dict_set_keys d k v :
  map fst (dict_set d k v)
  = map fst d ++ (if in_dec string_dec k (map fst d) then [] else [k]).
Proof.
  induction d as [|[k' w] d IH]; simpl; [reflexivity|].
  destruct (String.eqb_spec k' k) as [->|Hk]; simpl.
  - destruct (string_dec k k); [|congruence]. now rewrite app_nil_r.
  - rewrite IH. destruct (string_dec k' k); [congruence|].
    now destruct (in_dec string_dec k (map fst d)).
Qed.

Lemma dict_set_nodup d k v :
  NoDup (map fst d) -> NoDup (map fst (dict_set d k v)).
Proof.
  intros Hd; rewrite dict_set_keys.
  destruct (in_dec string_dec k (map fst d)) as [Hin|Hin].
  - now rewrite app_nil_r.
  - apply NoDup_app; repeat split; auto.
    + constructor; [intros [] | constructor].
    + intros x Hx [<-|[]]; contradiction.
Qed.

Lemma run_stmts_app stmts1 stmts2 d :
  run_stmts ops (stmts1 ++ stmts2) d
  = bind (run_stmts ops stmts1 d) (run_stmts ops stmts2).
Proof.
  revert d; induction stmts1 as [|[name val] stmts1 IH]; intros d; simpl;
    [reflexivity|].
  destruct (eval_value ops val d); simpl; [apply IH | reflexivity].
Qed.

Lemma run_stmts_keys stmts d consts :
  run_stmts ops stmts d = Ok consts ->
  exists ext, map fst consts = map fst d ++ ext.
Proof.
  revert d; induction stmts as [|[name val] stmts IH]; intros d; simpl.
  - intros [= <-]; exists []; now rewrite app_nil_r.
  - destruct (eval_value ops val d) as [v|e]; simpl; [|discriminate].
    intros H; destruct (IH _ H) as [ext Hext].
    rewrite dict_set_keys, <- app_assoc in Hext; eauto.
Qed.

Lemma run_stmts_nodup stmts d consts :
  run_stmts ops stmts d = Ok consts ->
  NoDup (map fst d) -> NoDup (map fst consts).
Proof.
  revert d; induction stmts as [|[name val] stmts IH]; intros d; simpl.
  - now intros [= <-].
  - destruct (eval_value ops val d) as [v|e]; simpl; [|discriminate].
    intros H Hd; apply (IH _ H); now apply dict_set_nodup.
Qed.

Lemma run_stmts_names stmts d consts k :
  run_stmts ops stmts d = Ok consts ->
  In k (map fst consts) -> In k (map fst d) \/ In k (map stmt_name stmts).
Proof.
  revert d; induction stmts as [|[name val] stmts IH]; intros d; simpl.
  - intros [= <-]; auto.
  - destruct (eval_value ops val d) as [v|e]; simpl; [|discriminate].
    intros H Hin; destruct (IH _ H Hin) as [Hk|Hk]; [|auto].
    rewrite dict_set_keys in Hk; apply in_app_or in Hk as [Hk|Hk]; [auto|].
    destruct (in_dec string_dec name (map fst d)); [destruct Hk|].
    destruct Hk as [<-|[]]; auto.
Qed.

(** statements that do not declare [k] leave its entry alone *)
Lemma run_stmts_get_other stmts d consts k :
  run_stmts ops stmts d = Ok consts ->
  ~ In k (map stmt_name stmts) -> dict_get consts k = dict_get d k.
Proof.
  revert d; induction stmts as [|[name val] stmts IH]; intros d; simpl.
  - now intros [= <-].
  - destruct (eval_value ops val d) as [v|e]; simpl; [|discriminate].
    intros H Hn; rewrite (IH _ H); [|tauto].
    apply dict_get_set_other; intros ->; tauto.
Qed.

Lemma each_resolves_run stmts :
  each_resolves ops stmts -> exists consts, run_stmts ops stmts [] = Ok consts.
Proof.
  induction stmts as [|[name val] stmts IH] using rev_ind; intros Hres.
  - exists []; reflexivity.
  - destruct IH as [consts Hrun].
    + intros earlier n v rest c Heq Hc.
      apply (Hres earlier n v (rest ++ [S_set name val]) c); [|exact Hc].
      rewrite Heq, <- app_assoc; reflexivity.
    + destruct (Hres stmts name val [] consts eq_refl Hrun) as [v Hv].
      exists (dict_set consts name v).
      rewrite run_stmts_app, Hrun; simpl; now rewrite Hv.
Qed.

End TableProperties.

(** ** Serializer *)

Section SerializerProperties.

Context {F : Type} (ops : float_ops F).

Lemma pyval_induction (P : pyval F -> Prop) :
  (forall z, P (VInt z)) ->
  (forall l, Forall P l -> P (VList l)) ->
  (forall f, P (VFloat f)) ->
  forall v, P v.
Proof.
  intros Hint Hlist Hfloat; fix rec 1; intros [z|l|f].
  - apply Hint.
  - apply Hlist; induction l as [|x l IH]; constructor; [apply rec | exact IH].
  - apply Hfloat.
Qed.

Lemma repr_items_join (repr : pyval F -> string) (l : list (pyval F)) :
  repr_items repr true l = Py.join ", " (map repr l)
  /\ repr_items repr false l
     = match l with
       | [] => ""
       | _ => ", " ++ Py.join ", " (map repr l)
       end.
Proof.
  induction l as [|x l [_ IH]]; [split; reflexivity|].
  cbn [repr_items map Py.join]; rewrite IH.
  destruct l as [|y l]; cbn [map]; [now rewrite append_nil_r|].
  split; reflexivity.
Qed.

Lemma repr_items_ext (r1 r2 : pyval F -> string) (first : bool)
  (l : list (pyval F)) :
  Forall (fun v => r1 v = r2 v) l ->
  repr_items r1 first l = repr_items r2 first l.
Proof.
  intros H; revert first; induction H as [|x l Hx _ IH]; intros first;
    [reflexivity|].
  cbn [repr_items]; now rewrite Hx, IH.
Qed.

(** the [repr] of the interpreter is the rendering of the specification *)
Lemma py_repr_render (v : pyval F) : py_repr ops v = render ops v.
Proof.
  induction v as [z|l IH|f] using pyval_induction; [reflexivity| |reflexivity].
  cbn [py_repr render].
  rewrite (repr_items_ext _ (render ops) true l IH).
  now rewrite (proj1 (repr_items_join _ l)).
Qed.

Lemma fold_left_snoc {A B} (f : A -> B) (l : list A) (acc : list B) :
  fold_left (fun lines x => (lines ++ [f x])%list) l acc
  = (acc ++ map f l)%list.
Proof.
  revert acc; induction l as [|x l IH]; intros acc; simpl.
  - now rewrite app_nil_r.
  - now rewrite IH, <- app_assoc.
Qed.

Lemma to_toml_lines (consts : @dict F) :
  to_toml ops consts = Py.join line_break (map (toml_line ops) consts).
Proof. unfold to_toml; now rewrite fold_left_snoc. Qed.

Lemma str_of_int_decimal (z : Z) :
  NilZero.int_of_string (Py.str_of_int z) = Some (Z.to_int z)
  /\ Z.of_int (Z.to_int z) = z.
Proof.
  split; [|apply DecimalZ.of_to].
  apply NilZero.isi; destruct z as [|p|p]; simpl; try discriminate;
    intros [= H]; now apply DecimalPos.Unsigned.to_uint_nonnil in H.
Qed.

End SerializerProperties.

(** ** Redeclaration *)

Section Redeclaration.

Context {F : Type} (ops : float_ops F).

Lemma bind_ok {A B} (r : result A) (k : A -> result B) (b : B) :
  bind r k = Ok b -> exists a, r = Ok a /\ k a = Ok b.
Proof. destruct r as [a|e]; simpl; [eauto | discriminate]. Qed.


End Redeclaration.


(** ** Constants with a list value *)

Section ListConstants.

Context {F : Type} (ops : float_ops F).

(** C10.  A constant declared with a list value and not declared again keeps
    that list in the table; a reference to a constant whose value in the
    table is a list evaluates to that list, with no error; and [+] on two
    operands that evaluate to lists gives their concatenation. *)
Theorem list_constants (consts : dict) (name : string) (a b : expr)
  (l l1 l2 : list (pyval F)) :
  (forall pre val mid c0,
      run_stmts ops pre [] = Ok c0 ->
      eval_value ops val c0 = Ok (VList l) ->
      ~ In name (map stmt_name mid) ->
      run_stmts ops (pre ++ S_set name val :: mid)%list [] = Ok consts ->
      dict_get consts name = Some (VList l))
  /\ (dict_get consts name = Some (VList l) ->
      eval_expr ops (E_var name) consts = Ok (VList l))
  /\ (eval_expr ops a consts = Ok (VList l1) ->
      eval_expr ops b consts = Ok (VList l2) ->
      eval_expr ops (E_PLUS a b) consts = Ok (VList (l1 ++ l2))).
Proof.
  split; [|split].
  - intros pre val mid c0 Hpre Hval Hmid Hrun.
    rewrite run_stmts_app, Hpre in Hrun; cbn [bind run_stmts] in Hrun.
    rewrite Hval in Hrun; cbn [bind] in Hrun.
    rewrite (run_stmts_get_other ops _ _ _ _ Hrun Hmid).
    apply dict_get_set_same.
  - intros H; cbn [eval_expr]; now rewrite H.
  - intros Ha Hb; cbn [eval_expr]; now rewrite Ha, Hb.
Qed.

End ListConstants.

Lemma list_constants_witness :
  @dict_get (Z * Z) [("A", VList [VInt 1; VInt 2]); ("B", VInt 3)] "A"
  = Some (VList [VInt 1; VInt 2])
  /\ eval_expr example_ops (E_var "A")
       [("A", VList [VInt 1; VInt 2]); ("B", VInt 3)]
     = Ok (VList [VInt 1; VInt 2])
  /\ eval_expr example_ops (E_PLUS (E_var "A") (E_var "A"))
       [("A", VList [VInt 1; VInt 2]); ("B", VInt 3)]
     = Ok (VList [VInt 1; VInt 2; VInt 1; VInt 2]).
Proof.
  destruct (list_constants example_ops
              [("A", VList [VInt 1; VInt 2]); ("B", VInt 3)] "A"
              (E_var "A") (E_var "A") [VInt 1; VInt 2] [VInt 1; VInt 2]
              [VInt 1; VInt 2]) as (H0 & H1 & H2).
  split; [|split; [apply H1; reflexivity | apply H2; reflexivity]].
  apply (H0 [] (V_list [V_number 1; V_number 2]) [S_set "B" (V_number 3)] []);
    [reflexivity | reflexivity | | reflexivity].
  simpl; intros [H|[]]; discriminate H.
Defined.

(** ** Parser: the names of the syntax tree *)

Section ParserNames.
Import Parser.

Lemma yields_ret {A} (Q : A -> Prop) (a : A) : Q a -> yields Q (ret a).
Proof. intros H ts b ts' _ [= <- _]; exact H. Qed.

Lemma yields_raise {A} (Q : A -> Prop) (e : exn) : yields Q (raise e).
Proof. intros ts b ts' _; discriminate. Qed.

Lemma yields_eat (t : tok_type) :
  yields (fun tok => token_wf tok /\ type tok = t) (eat t).
Proof.
  intros [|tok ts] b ts' Hwf; simpl; [discriminate|].
  destruct (tok_type_eqb (type tok) t) eqn:E; [|discriminate].
  intros [= <- _]; split; [now inversion Hwf | now apply tok_type_eqb_eq].
Qed.

Lemma yields_peek {A} (Q : A -> Prop) (k : option Token -> M A) :
  (forall tok, token_wf tok -> yields Q (k (Some tok))) ->
  yields Q (k None) ->
  yields Q (mbind peek k).
Proof.
  intros Hs Hn [|tok ts] b ts' Hwf; unfold mbind, peek; simpl.
  - now apply Hn.
  - apply Hs; [now inversion Hwf | exact Hwf].
Qed.

Lemma yields_bind {A B} (Qa : A -> Prop) (Q : B -> Prop) (m : M A)
  (f : A -> M B) :
  consumes 0 m -> yields Qa m -> (forall a, Qa a -> yields Q (f a)) ->
  yields Q (mbind m f).
Proof.
  intros Hc Hm Hf ts b ts' Hwf; unfold mbind.
  destruct (m ts) as [[[a ts1]|e]|] eqn:E; try discriminate.
  pose proof (Hm _ _ _ Hwf E) as Ha.
  destruct (Hc _ _ _ E) as (pre & -> & _).
  apply Forall_app in Hwf as [_ Hwf1].
  exact (Hf a Ha ts1 b ts' Hwf1).
Qed.

Lemma token_name_ok (tok : Token) :
  token_wf tok -> type tok = IDENT -> name_ok (value tok) = true.
Proof.
  unfold token_wf, name_ok; intros Hwf Ht; rewrite Ht in Hwf.
  destruct Hwf as [Hne Hall]; rewrite Hall, andb_true_r.
  now destruct (String.eqb_spec (value tok) "").
Qed.

Ltac names_done :=
  cbv beta in *; unfold stmt_names_ok;
  cbn [vnode_names_ok expr_names_ok stmt_name stmt_val forallb];
  rewrite ?forallb_app; cbn [forallb];
  repeat match goal with
         | H : _ = true |- _ => rewrite H
         end;
  cbn [andb];
  try reflexivity;
  try (rewrite ?andb_true_r; apply token_name_ok;
       [assumption | assumption || now apply tok_type_eqb_eq]).

Ltac names_step HC HN :=
  match goal with
  | |- yields _ (ret _) => apply yields_ret; names_done
  | |- yields _ (raise _) => apply yields_raise
  | |- yields _ (mbind peek _) => apply yields_peek; [intros ? ?|]
  | |- yields _ (mbind (eat _) _) =>
      eapply yields_bind;
      [apply (consumes_weaken 1); [apply consumes_eat | lia]
      | apply yields_eat | intros ? [? ?]]
  | |- yields _ (mbind (m_value _) _) =>
      eapply yields_bind;
      [apply (consumes_weaken 1); [apply (c_value _ HC) | lia]
      | apply (n_value _ HN) | intros ? ?]
  | |- yields _ (mbind (m_list_loop _ _) _) =>
      eapply yields_bind;
      [apply (c_list_loop _ HC)
      | apply (n_list_loop _ HN); names_done | intros ? ?]
  | |- yields _ (mbind (m_expr _) _) =>
      eapply yields_bind;
      [apply (consumes_weaken 1); [apply (c_expr _ HC) | lia]
      | apply (n_expr _ HN) | intros ? ?]
  | |- yields _ (mbind (m_term _) _) =>
      eapply yields_bind;
      [apply (consumes_weaken 1); [apply (c_term _ HC) | lia]
      | apply (n_term _ HN) | intros ? ?]
  | |- yields _ (if ?b then _ else _) => destruct b eqn:?
  | |- yields _ (m_list _) => apply (n_list _ HN)
  | |- yields _ (m_const_expr _) => apply (n_const_expr _ HN)
  | |- yields _ (m_list_loop _ _) => apply (n_list_loop _ HN); names_done
  | |- yields _ (m_expr_loop _ _) => apply (n_expr_loop _ HN); names_done
  end.

Lemma unfold_names (P : methods) :
  methods_consume P -> methods_names P -> methods_names (unfold_methods P).
Proof.
  intros HC HN.
  constructor; simpl; intros;
    unfold parse_value_body, parse_list_body, parse_list_loop_body,
      parse_const_expr_body, parse_expr_body, parse_expr_loop_body,
      parse_term_body;
    repeat names_step HC HN.
Qed.

Lemma methods_at_names (n : nat) : methods_names (methods_at n).
Proof.
  induction n as [|n IH];
    [|now apply unfold_names; [apply methods_at_consume|]].
  constructor; simpl; intros; intros ts a ts' _; discriminate.
Qed.

Lemma parse_stmt_names (P : methods) :
  methods_consume P -> methods_names P ->
  yields (fun st => stmt_names_ok st = true) (parse_stmt_body P).
Proof.
  intros HC HN; unfold parse_stmt_body; repeat names_step HC HN.
Qed.

Lemma parse_loop_names (i : nat) (P : methods) (stmts : list stmt) :
  methods_consume P -> methods_names P ->
  forallb stmt_names_ok stmts = true ->
  yields (fun l => forallb stmt_names_ok l = true) (parse_loop i P stmts).
Proof.
  intros HC HN; revert stmts; induction i as [|i IH]; intros stmts Hs.
  - intros ts a ts' _; discriminate.
  - cbn [parse_loop]; apply yields_peek; [intros tok _ | now apply yields_ret].
    eapply yields_bind;
      [ apply (consumes_weaken 1); [now apply parse_stmt_consume | lia]
      | now apply parse_stmt_names |].
    intros st Hst; apply IH.
    rewrite forallb_app, Hs; simpl; now rewrite Hst.
Qed.

(** the names of a parsed program are texts of IDENT tokens *)
Lemma parse_names (tokens : list Token) (stmts : list stmt) :
  Forall token_wf tokens -> parse tokens = Some (Ok stmts) ->
  forallb stmt_names_ok stmts = true.
Proof.
  unfold parse, parse_with; intros Hwf H.
  destruct (parse_loop _ _ _ tokens) as [[[stmts' ts]|e]|] eqn:E;
    try discriminate.
  injection H as <-.
  exact (parse_loop_names _ _ [] (methods_at_consume _) (methods_at_names _)
           eq_refl _ _ _ Hwf E).
Qed.

End ParserNames.

(** ** Single lines *)

Lemma all_chars_append (cls : ascii -> bool) (s t : string) :
  all_chars cls (s ++ t) = all_chars cls s && all_chars cls t.
Proof.
  induction s as [|c s IH]; simpl; [reflexivity|].
  now rewrite IH, andb_assoc.
Qed.

Lemma all_chars_impl (cls1 cls2 : ascii -> bool) (s : string) :
  (forall c, cls1 c = true -> cls2 c = true) ->
  all_chars cls1 s = true -> all_chars cls2 s = true.
Proof.
  intros H; induction s as [|c s IH]; simpl; [reflexivity|].
  intros Hs; apply andb_true_iff in Hs as [Hc Hs].
  now rewrite (H _ Hc), IH.
Qed.

Lemma single_line_append (s t : string) :
  single_line (s ++ t) = single_line s && single_line t.
Proof. apply all_chars_append. Qed.

Lemma is_upper_is_dot (c : ascii) : Py.is_upper c = true -> Py.is_dot c = true.
Proof.
  unfold Py.is_upper, Py.is_dot; intros H.
  destruct (Ascii.eqb_spec c Py.newline) as [->|]; [discriminate H | reflexivity].
Qed.

Lemma name_single_line (name : string) :
  name_ok name = true -> single_line name = true.
Proof.
  unfold name_ok; intros H; apply andb_true_iff in H as [_ H].
  exact (all_chars_impl _ _ _ is_upper_is_dot H).
Qed.

Lemma uint_single_line (d : uint) :
  single_line (NilEmpty.string_of_uint d) = true.
Proof. induction d; simpl; auto. Qed.

Lemma str_of_nat_single_line (n : nat) : single_line (Py.str_of_nat n) = true.
Proof.
  unfold Py.str_of_nat, NilZero.string_of_uint.
  destruct (Nat.to_uint n); try reflexivity; apply uint_single_line.
Qed.

Lemma str_of_int_single_line (z : Z) : single_line (Py.str_of_int z) = true.
Proof.
  unfold Py.str_of_int, NilZero.string_of_int, NilZero.string_of_uint.
  destruct (Z.to_int z) as [d|d]; destruct d; try reflexivity;
    apply (uint_single_line (_ _)) || (simpl; apply uint_single_line).
Qed.

Lemma tok_name_single_line (t : tok_type) : single_line (tok_name t) = true.
Proof. destruct t; reflexivity. Qed.

Lemma lower_single_line (s : string) :
  all_chars Py.is_upper s = true -> single_line (Py.lower s) = true.
Proof.
  unfold single_line; induction s as [|c s IH]; simpl; [reflexivity|].
  intros H; apply andb_true_iff in H as [Hc Hs].
  rewrite (IH Hs), andb_true_r.
  unfold Py.is_upper in Hc; apply andb_true_iff in Hc as [H1 H2].
  unfold Py.lower_char; rewrite H1, H2; simpl.
  apply Nat.leb_le in H1, H2.
  unfold Py.is_dot.
  destruct (Ascii.eqb_spec (ascii_of_nat (nat_of_ascii c + 32)) Py.newline)
    as [E|]; [|reflexivity].
  apply (f_equal nat_of_ascii) in E.
  rewrite nat_ascii_embedding in E by lia.
  change (nat_of_ascii Py.newline) with 10 in E; lia.
Qed.

(** a line feed always matches the whitespace pattern: the character that a
    [LexError] names is never a line feed *)
Lemma first_match_newline (s : string) :
  first_match TOKEN_REGEX (String Py.newline s) <> None.
Proof.
  unfold TOKEN_REGEX; cbn [first_match Py.re_match Py.match_lit Py.span].
  cbn. now destruct (Py.span Py.is_ws s).
Qed.

Lemma lex_error_single_line (text : string) (e : exn) :
  lex text = Some (Raise e) -> single_line (exn_str e) = true.
Proof.
  intros H; apply lex_loop_error in H as (k & c & -> & Hget & Hnone).
  assert (Hc : Py.is_dot c = true).
  { unfold Py.is_dot; destruct (Ascii.eqb_spec c Py.newline) as [->|];
      [|reflexivity].
    exfalso; revert Hget Hnone; generalize text; clear; induction k as [|k IH];
      intros [|c s]; simpl; try discriminate.
    - intros [= ->]; apply first_match_newline.
    - apply IH. }
  cbn [exn_str lex_error]. rewrite !single_line_append.
  rewrite str_of_nat_single_line; cbn; now rewrite Hc.
Qed.

Lemma parse_error_single_line (tokens : list Token) (e : exn) :
  Parser.parse tokens = Some (Raise e) -> single_line (exn_str e) = true.
Proof.
  intros H; apply parse_failure in H as (pre & rest & _ & Hf).
  destruct Hf as [(t & -> & _)|[(tok & _ & ->)|[_ ->]]]; [| |reflexivity].
  - cbn [exn_str Parser.expected_error]; rewrite !single_line_append.
    rewrite tok_name_single_line.
    destruct (hd_error rest); [now rewrite tok_name_single_line | reflexivity].
  - cbn [exn_str Parser.unexpected_error]; rewrite single_line_append.
    now rewrite tok_name_single_line.
Qed.

(** ** Driver *)

Section DriverProperties.

Context {F : Type} (ops : float_ops F).

Lemma vnode_induction (P : vnode -> Prop) :
  (forall n, P (V_number n)) ->
  (forall items, Forall P items -> P (V_list items)) ->
  (forall e, P (V_const e)) ->
  forall v, P v.
Proof.
  intros Hn Hl He; fix rec 1; intros [n|items|e].
  - apply Hn.
  - apply Hl; induction items as [|x items IH]; constructor;
      [apply rec | exact IH].
  - apply He.
Qed.

Lemma of_builtin_raise {A} (r : (builtin_class * string) + A) (e : exn) :
  of_builtin r = Raise e -> exists cls msg, r = inl (cls, msg) /\ exn_str e = msg.
Proof.
  destruct r as [[cls msg]|a]; simpl; [|discriminate].
  intros [= <-]; eauto.
Qed.

Section SingleLine.

Hypothesis Hfloat : float_messages_single_line ops.

Lemma py_add_single_line (x y : pyval F) (e : exn) :
  py_add ops x y = Raise e -> single_line (exn_str e) = true.
Proof.
  destruct Hfloat as (_ & Hadd & _).
  destruct x, y; simpl; try discriminate;
    try (intros [= <-]; reflexivity);
    intros H; apply of_builtin_raise in H as (cls & msg & H & ->); eauto.
Qed.

Lemma py_sub_single_line (x y : pyval F) (e : exn) :
  py_sub ops x y = Raise e -> single_line (exn_str e) = true.
Proof.
  destruct Hfloat as (_ & _ & Hsub & _).
  destruct x, y; simpl; try discriminate;
    try (intros [= <-]; reflexivity);
    intros H; apply of_builtin_raise in H as (cls & msg & H & ->); eauto.
Qed.

Lemma py_pow_single_line (x y : pyval F) (e : exn) :
  py_pow ops x y = Raise e -> single_line (exn_str e) = true.
Proof.
  destruct Hfloat as (Hneg & _ & _ & Hpow & _).
  destruct x as [a|l|f], y as [b|l'|f']; simpl; try discriminate;
    try (intros [= <-]; reflexivity);
    try (intros H; apply of_builtin_raise in H as (cls & msg & H & ->);
         now eauto).
  destruct (0 <=? b)%Z; [discriminate|].
  destruct (int_pow_neg ops a b) as [[cls msg]|v] eqn:E; simpl;
    [|discriminate].
  intros [= <-]; simpl; eauto.
Qed.

Lemma py_abs_single_line (x : pyval F) (e : exn) :
  py_abs ops x = Raise e -> single_line (exn_str e) = true.
Proof.
  destruct Hfloat as (_ & _ & _ & _ & Habs).
  destruct x; simpl; try discriminate;
    try (intros [= <-]; reflexivity);
    intros H; apply of_builtin_raise in H as (cls & msg & H & ->); eauto.
Qed.

Lemma eval_expr_single_line (node : expr) (consts : dict) (e : exn) :
  expr_names_ok node = true ->
  eval_expr ops node consts = Raise e -> single_line (exn_str e) = true.
Proof.
  revert e; induction node as [n|name|l IHl r IHr|l IHl r IHr|l IHl r IHr|a IHa];
    intros e Hok; cbn [eval_expr expr_names_ok] in *.
  2: assert (Hname := name_single_line _ Hok).
  3-5: apply andb_true_iff in Hok as [Hokl Hokr].
  - discriminate.
  - destruct (dict_get consts name); [discriminate|].
    intros [= <-]; cbn [exn_str unknown_constant].
    rewrite single_line_append, Hname; reflexivity.
  - destruct (eval_expr ops l consts) as [x|e1]; cbn [bind];
      [|intros [= <-]; now apply IHl].
    destruct (eval_expr ops r consts) as [y|e2]; cbn [bind];
      [|intros [= <-]; now apply IHr].
    apply py_add_single_line.
  - destruct (eval_expr ops l consts) as [x|e1]; cbn [bind];
      [|intros [= <-]; now apply IHl].
    destruct (eval_expr ops r consts) as [y|e2]; cbn [bind];
      [|intros [= <-]; now apply IHr].
    apply py_sub_single_line.
  - destruct (eval_expr ops l consts) as [x|e1]; cbn [bind];
      [|intros [= <-]; now apply IHl].
    destruct (eval_expr ops r consts) as [y|e2]; cbn [bind];
      [|intros [= <-]; now apply IHr].
    apply py_pow_single_line.
  - destruct (eval_expr ops a consts) as [x|e1]; cbn [bind];
      [|intros [= <-]; now apply IHa].
    apply py_abs_single_line.
Qed.

Lemma eval_value_single_line (v : vnode) (consts : dict) (e : exn) :
  vnode_names_ok v = true ->
  eval_value ops v consts = Raise e -> single_line (exn_str e) = true.
Proof.
  revert e; induction v as [n|items IH|node] using vnode_induction;
    intros e Hok; cbn [eval_value vnode_names_ok] in *.
  - discriminate.
  - assert (H : forall e', comprehension (fun x => eval_value ops x consts)
                             items = Raise e' ->
                           single_line (exn_str e') = true).
    { induction IH as [|x items Hx _ IHitems]; intros e';
        cbn [comprehension forallb] in *; [discriminate|].
      apply andb_true_iff in Hok as [Hokx Hoks].
      destruct (eval_value ops x consts) as [r|e1]; cbn [bind];
        [|intros [= <-]; now apply Hx].
      destruct (comprehension _ items) as [rs|e2]; cbn [bind];
        [discriminate|].
      intros [= <-]; now apply IHitems. }
    destruct (comprehension _ items) as [l|e1]; cbn [bind]; [discriminate|].
    intros [= <-]; now apply H.
  - now apply eval_expr_single_line.
Qed.

End SingleLine.

(** the first statement that fails ends the loop with its failure *)
Lemma run_stmts_first_failure (stmts : list stmt) (d : dict) (e : exn) :
  run_stmts ops stmts d = Raise e ->
  exists done name val rest consts,
    stmts = (done ++ S_set name val :: rest)%list
    /\ run_stmts ops done d = Ok consts
    /\ eval_value ops val consts = Raise e.
Proof.
  revert d; induction stmts as [|[name val] stmts IH]; intros d;
    cbn [run_stmts]; [discriminate|].
  destruct (eval_value ops val d) as [v|e1] eqn:E; cbn [bind].
  - intros H; destruct (IH _ H) as (done & n & vl & rest & c & -> & Hd & He).
    exists (S_set name val :: done), n, vl, rest, c.
    split; [reflexivity|]; split; [|exact He].
    cbn [run_stmts]; rewrite E; exact Hd.
  - intros [= <-]; exists [], name, val, stmts, d; auto.
Qed.

End DriverProperties.

Section DriverTheorems.

Context {F : Type} (ops : float_ops F).

Lemma run_stmts_single_line (stmts : list stmt) (d : dict) (e : exn) :
  float_messages_single_line ops ->
  forallb stmt_names_ok stmts = true ->
  run_stmts ops stmts d = Raise e -> single_line (exn_str e) = true.
Proof.
  intros Hfloat Hok H.
  destruct (run_stmts_first_failure ops _ _ _ H)
    as (done & name & val & rest & consts & -> & _ & He).
  rewrite forallb_app in Hok; apply andb_true_iff in Hok as [_ Hok].
  cbn [forallb] in Hok; apply andb_true_iff in Hok as [Hok _].
  apply andb_true_iff in Hok as [_ Hok].
  exact (eval_value_single_line ops Hfloat _ _ _ Hok He).
Qed.


Lemma lex_loop_same (f1 f2 pos : nat) (s : string) (tokens : list Token)
  (r1 r2 : result (list Token)) :
  lex_loop f1 pos s tokens = Some r1 -> lex_loop f2 pos s tokens = Some r2 ->
  r1 = r2.
Proof.
  intros H1 H2.
  apply (lex_loop_more_fuel _ (Nat.max f1 f2)) in H1; [|lia].
  apply (lex_loop_more_fuel _ (Nat.max f1 f2)) in H2; [|lia].
  congruence.
Qed.

Lemma parse_with_same (i1 i2 f1 f2 : nat) (tokens : list Token)
  (r1 r2 : result (list stmt)) :
  Parser.parse_with i1 f1 tokens = Some r1 ->
  Parser.parse_with i2 f2 tokens = Some r2 -> r1 = r2.
Proof.
  intros H1 H2.
  apply (parse_with_more_fuel _ (Nat.max i1 i2) _ (Nat.max f1 f2)) in H1;
    [|lia..].
  apply (parse_with_more_fuel _ (Nat.max i1 i2) _ (Nat.max f1 f2)) in H2;
    [|lia..].
  congruence.
Qed.

Lemma main_total (text : string) : exists out, main ops text = Some out.
Proof.
  unfold main; destruct (lex_total text) as [[tokens|e] ->]; [|eauto].
  destruct (parse_total tokens) as [[stmts|e] ->]; eauto.
Qed.

(** C8.  A run of the pipeline on a text ends with an output, and every run
    on that text that ends, whatever fuel it is given, ends with that same
    output: the output is a function of the text alone. *)
Theorem pipeline_deterministic (text : string) :
  exists out,
    main ops text = Some out
    /\ forall lex_fuel iters fuel out',
         main_with ops lex_fuel iters fuel text = Some out' -> out' = out.
Proof.
  destruct (main_total text) as [out Hmain]; exists out; split; [exact Hmain|].
  intros lex_fuel iters fuel out'; revert Hmain; unfold main, main_with, lex.
  destruct (lex_loop (String.length text) 0 text []) as [r|] eqn:E1;
    [|discriminate].
  destruct (lex_loop lex_fuel 0 text []) as [r'|] eqn:E2; [|discriminate].
  rewrite (lex_loop_same _ _ _ _ _ _ _ E2 E1).
  destruct r as [tokens|e]; [|congruence].
  unfold Parser.parse.
  destruct (Parser.parse_with _ (Parser.enough tokens) tokens) as [p|] eqn:E3;
    [|discriminate].
  destruct (Parser.parse_with iters fuel tokens) as [p'|] eqn:E4;
    [|discriminate].
  rewrite (parse_with_same _ _ _ _ _ _ _ E4 E3).
  destruct p; congruence.
Qed.

End DriverTheorems.


Lemma example_ops_single_line : float_messages_single_line example_ops.
Proof.
  repeat split; cbn [example_ops int_pow_neg float_add float_sub float_pow
                       float_abs]; intros; try (injection H as _ <-; reflexivity).
  destruct (a =? 0)%Z; [injection H as _ <-; reflexivity | discriminate].
Defined.


Lemma pipeline_deterministic_witness :
  main_with example_ops 40 40 40 "set A = 5; set B = ^{ A + 1 };"
  = main example_ops "set A = 5; set B = ^{ A + 1 };".
Proof.
  destruct (pipeline_deterministic example_ops
              "set A = 5; set B = ^{ A + 1 };") as (out & Hmain & Hsame).
  rewrite Hmain.
  assert (H : main_with example_ops 40 40 40 "set A = 5; set B = ^{ A + 1 };"
              = Some ("a = 5" ++ line_break ++ "b = 6"))
    by (vm_compute; reflexivity).
  rewrite H; f_equal; exact (Hsame _ _ _ _ H).
Defined.

(** ** Parser: every derivation of the grammar is parsed *)

Section ParserComplete.
Import Parser.

Local Open Scope list_scope.

Ltac norm_app :=
  repeat (rewrite <- app_assoc || rewrite <- app_comm_cons
          || rewrite app_nil_l).

Lemma mbind_peek {A} (k : option Token -> M A) ts :
  mbind peek k ts = k (hd_error ts) ts.
Proof. reflexivity. Qed.

Lemma mbind_eat {A} (t : tok_type) (k : Token -> M A) tok ts :
  type tok = t -> mbind (eat t) k (tok :: ts) = k tok ts.
Proof.
  intros H; unfold mbind, eat; rewrite H.
  now replace (tok_type_eqb t t) with true by (now destruct t).
Qed.

Lemma mbind_ok {A B} (m : M A) (k : A -> M B) ts a ts' :
  m ts = Some (Ok (a, ts')) -> mbind m k ts = k a ts'.
Proof. intros H; unfold mbind; now rewrite H. Qed.

(** the operator loop stops at a token that is no [+] and no [-] *)
Lemma expr_loop_stop (node : expr) ts :
  match hd_error ts with
  | Some tok => type tok <> PLUS /\ type tok <> MINUS
  | None => True
  end ->
  m_expr_loop the_methods node ts = Some (Ok (node, ts)).
Proof.
  intros H; rewrite the_expr_loop_eq; unfold parse_expr_loop_body.
  rewrite mbind_peek; destruct ts as [|tok ts]; [reflexivity|].
  cbn [hd_error] in *; destruct H as [H1 H2].
  destruct (type tok); try reflexivity; congruence.
Qed.

Lemma expr_loop_plus (plus : Token) (node : expr) ts :
  type plus = PLUS ->
  m_expr_loop the_methods node (plus :: ts)
  = (right <- m_term the_methods ;;
     m_expr_loop the_methods (E_PLUS node right)) ts.
Proof.
  intros Hp; rewrite the_expr_loop_eq; unfold parse_expr_loop_body.
  rewrite mbind_peek; cbn [hd_error]; rewrite Hp; cbn [tok_type_eqb].
  now rewrite (mbind_eat _ _ _ _ Hp).
Qed.

Lemma term_expr_complete :
  (forall ts e, G_term ts e ->
     forall rest, m_term the_methods (ts ++ rest) = Some (Ok (e, rest)))
  /\ (forall ts e, G_expr ts e ->
        forall rest,
          m_expr the_methods (ts ++ rest) = m_expr_loop the_methods e rest).
Proof.
  apply G_term_expr_ind.
  - (* "-" Term *)
    intros minus ts e Hm _ IH rest; norm_app.
    rewrite (term_minus _ _ Hm); now rewrite (mbind_ok _ _ _ _ _ (IH rest)).
  - (* NUMBER *)
    intros num Hn rest; norm_app; now apply term_number.
  - (* IDENT *)
    intros id Hi rest; norm_app.
    rewrite the_term_eq; unfold parse_term_body.
    rewrite mbind_peek; cbn [hd_error]; rewrite Hi; cbn [tok_type_eqb].
    now rewrite (mbind_eat _ _ _ _ Hi).
  - (* "pow" "(" Expr "," Expr ")" *)
    intros pow lp ts1 a comma ts2 b rp Hp Hl Hc Hr _ IH1 _ IH2 rest.
    norm_app; rewrite the_term_eq; unfold parse_term_body.
    rewrite mbind_peek; cbn [hd_error]; rewrite Hp; cbn [tok_type_eqb].
    rewrite (mbind_eat _ _ _ _ Hp), (mbind_eat _ _ _ _ Hl).
    norm_app.
    rewrite (mbind_ok (m_expr the_methods) _ _ a
               (comma :: ts2 ++ rp :: rest)).
    2:{ rewrite IH1; apply expr_loop_stop; cbn [hd_error]; rewrite Hc;
        split; discriminate. }
    rewrite (mbind_eat _ _ _ _ Hc); norm_app.
    rewrite (mbind_ok (m_expr the_methods) _ _ b (rp :: rest)).
    2:{ rewrite IH2; apply expr_loop_stop; cbn [hd_error]; rewrite Hr;
        split; discriminate. }
    now rewrite (mbind_eat _ _ _ _ Hr).
  - (* "abs" "(" Expr ")" *)
    intros abs lp ts a rp Ha Hl Hr _ IH rest.
    norm_app; rewrite the_term_eq; unfold parse_term_body.
    rewrite mbind_peek; cbn [hd_error]; rewrite Ha; cbn [tok_type_eqb].
    rewrite (mbind_eat _ _ _ _ Ha), (mbind_eat _ _ _ _ Hl).
    norm_app.
    rewrite (mbind_ok (m_expr the_methods) _ _ a (rp :: rest)).
    2:{ rewrite IH; apply expr_loop_stop; cbn [hd_error]; rewrite Hr;
        split; discriminate. }
    now rewrite (mbind_eat _ _ _ _ Hr).
  - (* Term *)
    intros ts e _ IH rest; rewrite the_expr_eq; unfold parse_expr_body.
    now rewrite (mbind_ok _ _ _ _ _ (IH rest)).
  - (* Expr "+" Term *)
    intros ts1 e1 plus ts2 e2 _ IH1 Hp _ IH2 rest.
    norm_app; rewrite IH1.
    rewrite (expr_loop_plus _ _ _ Hp).
    now rewrite (mbind_ok _ _ _ _ _ (IH2 rest)).
  - (* Expr "-" Term *)
    intros ts1 e1 minus ts2 e2 _ IH1 Hm _ IH2 rest.
    norm_app; rewrite IH1.
    rewrite (expr_loop_minus _ _ _ Hm).
    now rewrite (mbind_ok _ _ _ _ _ (IH2 rest)).
Qed.

(** a value starts with a token that is no closing parenthesis *)
Lemma G_value_head ts v :
  G_value ts v ->
  exists tok ts', ts = tok :: ts' /\ type tok <> RPAREN.
Proof.
  intros [num Hn|lp kw ts0 items rp Hl _ _ _|caret lb ts0 e rb Hc _ _ _];
    eexists; eexists; (split; [reflexivity|]); congruence.
Qed.

Lemma value_values_complete :
  (forall ts v, G_value ts v ->
     forall rest, m_value the_methods (ts ++ rest) = Some (Ok (v, rest)))
  /\ (forall ts items, G_values ts items ->
        forall acc rest,
          m_list_loop the_methods acc (ts ++ rest)
          = m_list_loop the_methods (acc ++ items) rest).
Proof.
  apply G_value_values_ind.
  - (* NUMBER *)
    intros num Hn rest; norm_app.
    rewrite the_value_eq; unfold parse_value_body.
    rewrite mbind_peek; cbn [hd_error]; rewrite Hn; cbn [tok_type_eqb].
    now rewrite (mbind_eat _ _ _ _ Hn).
  - (* "(" "list" Value* ")" *)
    intros lp kw ts items rp Hl Hk Hr _ IH rest; norm_app.
    rewrite the_value_eq; unfold parse_value_body.
    rewrite mbind_peek; cbn [hd_error]; rewrite Hl; cbn [tok_type_eqb].
    rewrite the_list_eq; unfold parse_list_body.
    rewrite (mbind_eat _ _ _ _ Hl), (mbind_eat _ _ _ _ Hk).
    rewrite (mbind_ok (m_list_loop the_methods []) _ _ items (rp :: rest)).
    2:{ rewrite IH, the_list_loop_eq; unfold parse_list_loop_body.
        rewrite mbind_peek; cbn [hd_error app]; rewrite Hr; reflexivity. }
    now rewrite (mbind_eat _ _ _ _ Hr).
  - (* "^" "{" Expr "}" *)
    intros caret lb ts e rb Hc Hl Hr He rest; norm_app.
    rewrite the_value_eq; unfold parse_value_body.
    rewrite mbind_peek; cbn [hd_error]; rewrite Hc; cbn [tok_type_eqb].
    rewrite the_const_expr_eq; unfold parse_const_expr_body.
    rewrite (mbind_eat _ _ _ _ Hc), (mbind_eat _ _ _ _ Hl).
    rewrite (mbind_ok (m_expr the_methods) _ _ e (rb :: rest)).
    2:{ rewrite (proj2 term_expr_complete _ _ He).
        apply expr_loop_stop; cbn [hd_error]; rewrite Hr; split; discriminate. }
    now rewrite (mbind_eat _ _ _ _ Hr).
  - (* no value *)
    intros acc rest; now rewrite app_nil_r.
  - (* Value Value* *)
    intros ts1 v ts2 items Hv IH1 _ IH2 acc rest; norm_app.
    destruct (G_value_head _ _ Hv) as (tok & ts' & -> & Htok).
    rewrite the_list_loop_eq; unfold parse_list_loop_body.
    rewrite mbind_peek; norm_app; cbn [hd_error].
    replace (tok_type_eqb (type tok) RPAREN) with false
      by (symmetry; destruct (tok_type_eqb (type tok) RPAREN) eqn:E;
          [apply tok_type_eqb_eq in E; contradiction | reflexivity]).
    cbn [negb].
    rewrite (mbind_ok (m_value the_methods) _ _ v (ts2 ++ rest)).
    2:{ rewrite <- IH1; now norm_app. }
    rewrite IH2, <- app_assoc; reflexivity.
Qed.

Lemma stmt_complete ts st :
  G_stmt ts st ->
  forall rest, parse_stmt_body the_methods (ts ++ rest) = Some (Ok (st, rest)).
Proof.
  intros [kw id eq ts0 val semi Hk Hi He Hs Hv] rest; norm_app.
  unfold parse_stmt_body.
  rewrite (mbind_eat _ _ _ _ Hk), (mbind_eat _ _ _ _ Hi),
    (mbind_eat _ _ _ _ He).
  rewrite (mbind_ok _ _ _ _ _ (proj1 value_values_complete _ _ Hv _)).
  now rewrite (mbind_eat _ _ _ _ Hs).
Qed.

Lemma program_complete ts stmts :
  G_program ts stmts ->
  forall acc, the_loop acc ts = Some (Ok (acc ++ stmts, [])).
Proof.
  induction 1 as [|ts1 st ts2 stmts Hst _ IH]; intros acc.
  - rewrite the_loop_eq, mbind_peek; cbn [hd_error]; now rewrite app_nil_r.
  - rewrite the_loop_eq, mbind_peek.
    pose proof (stmt_complete _ _ Hst ts2) as Hp.
    destruct Hst as [kw id eq ts0 val semi Hk Hi He Hs Hv].
    revert Hp; norm_app; cbn [hd_error]; intros Hp.
    rewrite (mbind_ok _ _ _ _ _ Hp), IH, <- app_assoc; reflexivity.
Qed.

(** the parser accepts every program of the grammar, with the syntax tree
    of the grammar *)
Lemma parse_complete (tokens : list Token) (stmts : list stmt) :
  G_program tokens stmts -> parse tokens = Some (Ok stmts).
Proof.
  intros H; rewrite (proj1 (parse_the_loop tokens)).
  now rewrite (program_complete _ _ H []).
Qed.

End ParserComplete.

(** ** Typed programs *)

Section TypedPrograms.

Context {F : Type} (ops : float_ops F).

Local Open Scope list_scope.

Lemma table_ok_get (d : dict) (k : string) (v : pyval F) :
  table_ok d -> dict_get d k = Some v -> float_free v = true.
Proof.
  unfold table_ok; induction d as [|[k' w] d IH]; simpl; [discriminate|].
  intros H; apply andb_true_iff in H as [Hw Hd].
  destruct (String.eqb k' k); [now intros [= <-] | now apply IH].
Qed.

Lemma table_ok_set (d : dict) (k : string) (v : pyval F) :
  table_ok d -> float_free v = true -> table_ok (dict_set d k v).
Proof.
  unfold table_ok; intros Hd Hv; induction d as [|[k' w] d IH]; simpl in *.
  - now rewrite Hv.
  - apply andb_true_iff in Hd as [Hw Hd].
    destruct (String.eqb k' k); simpl; [now rewrite Hv, Hd|].
    now rewrite Hw, IH.
Qed.

Lemma type_of_float_free (v : pyval F) (t : ty) :
  type_of v = Some t -> float_free v = true.
Proof.
  destruct v as [z|l|f]; simpl; [reflexivity | | discriminate].
  now destruct (forallb float_free l).
Qed.

Lemma type_of_int (v : pyval F) :
  type_of v = Some TInt -> exists z, v = VInt z.
Proof.
  destruct v as [z|l|f]; simpl; [eauto | | discriminate].
  now destruct (forallb float_free l).
Qed.

Lemma type_of_list (v : pyval F) :
  type_of v = Some TList ->
  exists l, v = VList l /\ forallb float_free l = true.
Proof.
  destruct v as [z|l|f]; simpl; try discriminate.
  destruct (forallb float_free l) eqn:E; [eauto | discriminate].
Qed.

(** a typed expression evaluates, to a value of its type *)
Lemma expr_type_sound (consts : dict) (e : expr) (t : ty) :
  table_ok consts -> expr_type ops consts e = Some t ->
  exists v, eval_expr ops e consts = Ok v /\ type_of v = Some t.
Proof.
  intros Hok; revert t;
    induction e as [n|name|l IHl r IHr|l IHl r IHr|l IHl r IHr|a IHa];
    intros t; cbn [expr_type eval_expr].
  - intros [= <-]; eexists; split; reflexivity.
  - destruct (dict_get consts name) as [v|]; [|discriminate].
    intros H; exists v; auto.
  - destruct (expr_type ops consts l) as [[|]|]; try discriminate;
      destruct (expr_type ops consts r) as [[|]|]; try discriminate;
      intros [= <-];
      destruct (IHl _ eq_refl) as (x & -> & Hx);
      destruct (IHr _ eq_refl) as (y & -> & Hy); cbn [bind].
    + apply type_of_int in Hx as [a ->], Hy as [b ->].
      eexists; split; reflexivity.
    + apply type_of_list in Hx as (la & -> & Ha), Hy as (lb & -> & Hb).
      eexists; split; [reflexivity|]; cbn [type_of float_free].
      now rewrite forallb_app, Ha, Hb.
  - destruct (expr_type ops consts l) as [[|]|]; try discriminate;
      destruct (expr_type ops consts r) as [[|]|]; try discriminate;
      intros [= <-];
      destruct (IHl _ eq_refl) as (x & -> & Hx);
      destruct (IHr _ eq_refl) as (y & -> & Hy); cbn [bind].
    apply type_of_int in Hx as [a ->], Hy as [b ->].
    eexists; split; reflexivity.
  - destruct (expr_type ops consts l) as [[|]|]; try discriminate;
      destruct (expr_type ops consts r) as [[|]|]; try discriminate.
    destruct (IHl _ eq_refl) as (x & -> & Hx).
    destruct (IHr _ eq_refl) as (y & -> & Hy); cbn [bind].
    apply type_of_int in Hx as [a ->], Hy as [b ->]; cbn [py_pow].
    destruct (0 <=? b)%Z; [|discriminate].
    intros [= <-]; eexists; split; reflexivity.
  - destruct (expr_type ops consts a) as [[|]|]; try discriminate.
    intros [= <-]; destruct (IHa _ eq_refl) as (x & -> & Hx); cbn [bind].
    apply type_of_int in Hx as [z ->].
    eexists; split; reflexivity.
Qed.

Lemma vnode_typed_sound (consts : dict) (v : vnode) :
  table_ok consts -> vnode_typed ops consts v = true ->
  exists r, eval_value ops v consts = Ok r /\ float_free r = true.
Proof.
  intros Hok; induction v as [n|items IH|e] using vnode_induction;
    cbn [vnode_typed eval_value].
  - intros _; eexists; split; reflexivity.
  - intros Ht.
    assert (H : exists l,
               comprehension (fun x => eval_value ops x consts) items = Ok l
               /\ forallb float_free l = true).
    { induction IH as [|x items Hx _ IHitems]; cbn [comprehension forallb] in *.
      - exists []; split; reflexivity.
      - apply andb_true_iff in Ht as [Htx Hts].
        destruct (Hx Htx) as (r & -> & Hr).
        destruct (IHitems Hts) as (l & -> & Hl); cbn [bind].
        exists (r :: l); split; [reflexivity|]; cbn [forallb].
        now rewrite Hr, Hl. }
    destruct H as (l & -> & Hl); cbn [bind].
    exists (VList l); split; [reflexivity | exact Hl].
  - destruct (expr_type ops consts e) as [t|] eqn:E; [|discriminate].
    intros _; destruct (expr_type_sound _ _ _ Hok E) as (v & Hv & Ht).
    exists v; split; [exact Hv | exact (type_of_float_free _ _ Ht)].
Qed.

(** a typed program evaluates *)
Lemma program_typed_sound (stmts : list stmt) (d : dict) :
  table_ok d -> program_typed ops d stmts = true ->
  exists consts, run_stmts ops stmts d = Ok consts /\ table_ok consts.
Proof.
  revert d; induction stmts as [|[name val] stmts IH]; intros d Hok;
    cbn [program_typed run_stmts].
  - intros _; exists d; auto.
  - intros H; apply andb_true_iff in H as [Hv Hp].
    destruct (vnode_typed_sound _ _ Hok Hv) as (r & Hr & Hfree).
    rewrite Hr in *; cbn [bind].
    apply IH; [now apply table_ok_set | exact Hp].
Qed.

End TypedPrograms.

(** ** Valid programs *)

Section ValidPrograms.

Context {F : Type} (ops : float_ops F).

Local Open Scope list_scope.

(** with pairwise distinct names, the table gets one entry per statement, in
    the order of the statements *)
Lemma run_stmts_distinct (stmts : list stmt) (d consts : dict) :
  NoDup (map fst d ++ map stmt_name stmts) ->
  run_stmts ops stmts d = Ok consts ->
  length consts = length d + length stmts
  /\ (exists ext, consts = d ++ ext)
  /\ forall done name val rest,
       stmts = done ++ S_set name val :: rest ->
       exists c v,
         run_stmts ops done d = Ok c
         /\ eval_value ops val c = Ok v
         /\ nth_error consts (length d + length done) = Some (name, v).
Proof.
  revert d; induction stmts as [|[n0 v0] stmts IH]; intros d Hnd;
    cbn [run_stmts].
  - intros [= <-]; split; [simpl; lia|]; split.
    + exists []; now rewrite app_nil_r.
    + intros [|s done] name val rest H; discriminate H.
  - destruct (eval_value ops v0 d) as [r0|e] eqn:E0; cbn [bind];
      [|discriminate].
    assert (Hfresh : ~ In n0 (map fst d)).
    { cbn [map stmt_name] in Hnd; apply NoDup_remove_2 in Hnd.
      intros Hin; apply Hnd, in_or_app; auto. }
    rewrite (dict_set_fresh d n0 r0 Hfresh).
    intros Hrun.
    destruct (IH (d ++ [(n0, r0)])) with (2 := Hrun)
      as (Hlen & (ext & Hext) & Hall).
    { rewrite map_app, <- app_assoc; exact Hnd. }
    rewrite length_app in Hlen; cbn [length] in *.
    split; [lia|]; split.
    + exists ((n0, r0) :: ext); rewrite Hext, <- app_assoc; reflexivity.
    + intros [|s done] name val rest H; cbn [app] in H; injection H as ? ?.
      * subst; exists d, r0; split; [reflexivity|]; split; [exact E0|].
        rewrite <- app_assoc, Nat.add_0_r, nth_error_app2 by lia.
        now rewrite Nat.sub_diag.
      * subst s. destruct (Hall done name val rest) as (c & v & Hc & Hv & Hn);
          [assumption|].
        exists c, v; split; [|split; [exact Hv|]].
        -- cbn [run_stmts]; rewrite E0; cbn [bind].
           now rewrite (dict_set_fresh d n0 r0 Hfresh).
        -- rewrite <- Hn; f_equal; rewrite length_app; cbn [length]; lia.
Qed.

Lemma join_single_line (sep : string) (lines : list string) :
  single_line sep = true ->
  Forall (fun l => single_line l = true) lines ->
  single_line (Py.join sep lines) = true.
Proof.
  intros Hsep H; induction H as [|l lines Hl Hls IH]; [reflexivity|].
  cbn [Py.join]; destruct lines as [|l' lines]; [exact Hl|].
  rewrite !single_line_append, Hl, Hsep; exact IH.
Qed.

Lemma py_repr_single_line (v : pyval F) :
  float_free v = true -> single_line (py_repr ops v) = true.
Proof.
  rewrite py_repr_render.
  induction v as [z|l IH|f] using pyval_induction; cbn [float_free render].
  - intros _; apply str_of_int_single_line.
  - intros Hl; rewrite !single_line_append.
    rewrite join_single_line; [reflexivity | reflexivity|].
    induction IH as [|x l Hx _ IHl]; cbn [map forallb] in *; constructor.
    + apply Hx; now apply andb_true_iff in Hl as [Hl _].
    + apply IHl; now apply andb_true_iff in Hl as [_ Hl].
  - discriminate.
Qed.

Lemma toml_line_single_line (k : string) (v : pyval F) :
  name_ok k = true -> float_free v = true ->
  single_line (toml_line ops (k, v)) = true.
Proof.
  intros Hk Hv; unfold toml_line, py_str; cbn [fst snd].
  rewrite !single_line_append, (py_repr_single_line _ Hv).
  unfold name_ok in Hk; apply andb_true_iff in Hk as [_ Hk].
  now rewrite (lower_single_line _ Hk).
Qed.

(** With the limit on conversions lifted: for every valid program whose
    statements declare pairwise distinct names and are typed, the pipeline
    succeeds and the output is one line per statement, in declaration order:
    the line of a statement is its lower-cased name, [ = ], and the value the
    statement evaluates to in the table of the statements before it. *)
Lemma valid_program_table (text : string) (stmts : list stmt) :
  valid_program text stmts ->
  NoDup (map stmt_name stmts) ->
  program_typed ops [] stmts = true ->
  exists consts,
    run_stmts ops stmts [] = Ok consts
    /\ main ops text = Some (Py.join line_break (map (toml_line ops) consts))
    /\ length (map (toml_line ops) consts) = length stmts
    /\ Forall (fun line => single_line line = true)
         (map (toml_line ops) consts)
    /\ forall done name val rest,
         stmts = done ++ S_set name val :: rest ->
         exists c v,
           run_stmts ops done [] = Ok c
           /\ eval_value ops val c = Ok v
           /\ nth_error (map (toml_line ops) consts) (length done)
              = Some (Py.lower name ++ " = " ++ py_str ops v)%string.
Proof.
  intros (tokens & Hlex & Hg) Hnd Hty.
  pose proof (parse_complete _ _ Hg) as Hparse.
  destruct (program_typed_sound ops stmts [] eq_refl Hty) as (consts & Hrun & Hok).
  destruct (run_stmts_distinct stmts [] consts Hnd Hrun) as (Hlen & _ & Hall).
  exists consts; split; [exact Hrun|]; split; [|split; [|split]].
  - unfold main, evaluate; rewrite Hlex, Hparse, Hrun.
    now rewrite to_toml_lines.
  - rewrite length_map; exact Hlen.
  - pose proof (parse_names _ _ (lex_wf _ _ Hlex) Hparse) as Hnames.
    apply Forall_map, Forall_forall; intros [k v] Hin.
    apply toml_line_single_line.
    + assert (Hk : In k (map stmt_name stmts)).
      { destruct (run_stmts_names ops _ _ _ k Hrun) as [[]|Hk]; [|exact Hk].
        apply (in_map fst) in Hin; exact Hin. }
      apply in_map_iff in Hk as (st & <- & Hst).
      rewrite forallb_forall in Hnames; specialize (Hnames _ Hst).
      unfold stmt_names_ok in Hnames.
      now apply andb_true_iff in Hnames as [Hn _].
    + unfold table_ok in Hok; rewrite forallb_forall in Hok.
      exact (Hok _ Hin).
  - intros done name val rest Hsplit.
    destruct (Hall done name val rest Hsplit) as (c & v & Hc & Hv & Hn).
    exists c, v; split; [exact Hc|]; split; [exact Hv|].
    cbn [length Nat.add] in Hn; rewrite nth_error_map, Hn; reflexivity.
Qed.

End ValidPrograms.

Section TypedReferences.

Context {F : Type} (ops : float_ops F).

Lemma existsb_eqb_in (name : string) (l : list string) :
  existsb (String.eqb name) l = true <-> In name l.
Proof.
  rewrite existsb_exists; split.
  - intros (x & Hin & Hx); apply String.eqb_eq in Hx; now subst.
  - intros Hin; exists name; split; [exact Hin | apply String.eqb_refl].
Qed.

Lemma dict_get_in (d : @dict F) (name : string) (v : pyval F) :
  dict_get d name = Some v -> In name (map fst d).
Proof.
  induction d as [|[k w] d IH]; simpl; [discriminate|].
  destruct (String.eqb_spec k name); [now left | right; now apply IH].
Qed.

Lemma expr_type_refs (consts : dict) (defined : list string) (e : expr)
  (t : ty) :
  (forall k, In k (map fst consts) -> In k defined) ->
  expr_type ops consts e = Some t -> expr_refs_defined defined e = true.
Proof.
  intros Hsub; revert t;
    induction e as [n|name|l IHl r IHr|l IHl r IHr|l IHl r IHr|a IHa];
    intros t; cbn [expr_type expr_refs_defined]; try reflexivity.
  - destruct (dict_get consts name) as [v|] eqn:E; [|discriminate].
    intros _; apply existsb_eqb_in, Hsub; exact (dict_get_in _ _ _ E).
  - destruct (expr_type ops consts l) as [tl|]; [|discriminate].
    destruct (expr_type ops consts r) as [tr|]; [|now destruct tl].
    intros _; now rewrite (IHl _ eq_refl), (IHr _ eq_refl).
  - destruct (expr_type ops consts l) as [tl|]; [|discriminate].
    destruct (expr_type ops consts r) as [tr|]; [|now destruct tl].
    intros _; now rewrite (IHl _ eq_refl), (IHr _ eq_refl).
  - destruct (expr_type ops consts l) as [tl|]; [|discriminate].
    destruct (expr_type ops consts r) as [tr|]; [|now destruct tl].
    intros _; now rewrite (IHl _ eq_refl), (IHr _ eq_refl).
  - destruct (expr_type ops consts a) as [ta|]; [|discriminate].
    intros _; exact (IHa _ eq_refl).
Qed.

Lemma vnode_typed_refs (consts : dict) (defined : list string) (v : vnode) :
  (forall k, In k (map fst consts) -> In k defined) ->
  vnode_typed ops consts v = true -> vnode_refs_defined defined v = true.
Proof.
  intros Hsub; induction v as [n|items IH|e] using vnode_induction;
    cbn [vnode_typed vnode_refs_defined]; [reflexivity| |].
  - induction IH as [|x items Hx _ IHitems]; cbn [forallb]; [reflexivity|].
    intros H; apply andb_true_iff in H as [H1 H2].
    now rewrite (Hx H1), (IHitems H2).
  - destruct (expr_type ops consts e) as [t|] eqn:E; [|discriminate].
    intros _; exact (expr_type_refs _ _ _ _ Hsub E).
Qed.

(** in a typed program no expression refers to a name that no earlier
    statement declares *)
Lemma program_typed_refs (stmts : list stmt) (consts : dict)
  (defined : list string) :
  table_ok consts ->
  (forall k, In k (map fst consts) -> In k defined) ->
  program_typed ops consts stmts = true ->
  program_refs_defined defined stmts = true.
Proof.
  revert consts defined; induction stmts as [|[name val] stmts IH];
    intros consts defined Hok Hsub; cbn [program_typed program_refs_defined];
    [reflexivity|].
  intros H; apply andb_true_iff in H as [Hv Hp].
  rewrite (vnode_typed_refs _ _ _ Hsub Hv); cbn [andb].
  destruct (vnode_typed_sound ops _ _ Hok Hv) as (r & Hr & Hfree).
  rewrite Hr in Hp.
  apply (IH (dict_set consts name r)); [now apply table_ok_set| |exact Hp].
  intros k Hk; rewrite dict_set_keys in Hk; apply in_app_or in Hk as [Hk|Hk].
  - right; now apply Hsub.
  - destruct (in_dec string_dec name (map fst consts)); [destruct Hk|].
    destruct Hk as [<-|[]]; now left.
Qed.

End TypedReferences.

(** ** Examples of valid programs *)

Lemma valid_two_constants :
  valid_program "set A = 5; set B = ^{ A + 1 };"
    [S_set "A" (V_number 5);
     S_set "B" (V_const (E_PLUS (E_var "A") (E_num 1)))].
Proof.
  exists [mkToken SET "set"; mkToken IDENT "A"; mkToken EQUAL "=";
          mkToken NUMBER "5"; mkToken SEMICOLON ";"; mkToken SET "set";
          mkToken IDENT "B"; mkToken EQUAL "="; mkToken CARET "^";
          mkToken LBRACE "{"; mkToken IDENT "A"; mkToken PLUS "+";
          mkToken NUMBER "1"; mkToken RBRACE "}"; mkToken SEMICOLON ";"].
  split; [vm_compute; reflexivity|].
  apply (G_program_cons
           [mkToken SET "set"; mkToken IDENT "A"; mkToken EQUAL "=";
            mkToken NUMBER "5"; mkToken SEMICOLON ";"] _
           [mkToken SET "set"; mkToken IDENT "B"; mkToken EQUAL "=";
            mkToken CARET "^"; mkToken LBRACE "{"; mkToken IDENT "A";
            mkToken PLUS "+"; mkToken NUMBER "1"; mkToken RBRACE "}";
            mkToken SEMICOLON ";"]).
  - apply (G_stmt_set (mkToken SET "set") (mkToken IDENT "A")
             (mkToken EQUAL "=") [mkToken NUMBER "5"] _
             (mkToken SEMICOLON ";")); try reflexivity.
    apply (G_value_number (mkToken NUMBER "5")); reflexivity.
  - apply (G_program_cons
             [mkToken SET "set"; mkToken IDENT "B"; mkToken EQUAL "=";
              mkToken CARET "^"; mkToken LBRACE "{"; mkToken IDENT "A";
              mkToken PLUS "+"; mkToken NUMBER "1"; mkToken RBRACE "}";
              mkToken SEMICOLON ";"] _ [] []); [|constructor].
    apply (G_stmt_set (mkToken SET "set") (mkToken IDENT "B")
             (mkToken EQUAL "=")
             [mkToken CARET "^"; mkToken LBRACE "{"; mkToken IDENT "A";
              mkToken PLUS "+"; mkToken NUMBER "1"; mkToken RBRACE "}"] _
             (mkToken SEMICOLON ";")); try reflexivity.
    apply (G_value_const (mkToken CARET "^") (mkToken LBRACE "{")
             [mkToken IDENT "A"; mkToken PLUS "+"; mkToken NUMBER "1"] _
             (mkToken RBRACE "}")); try reflexivity.
    apply (G_expr_plus [mkToken IDENT "A"] _ (mkToken PLUS "+")
             [mkToken NUMBER "1"] _); try reflexivity.
    + apply G_expr_term, (G_term_ident (mkToken IDENT "A")); reflexivity.
    + apply (G_term_number (mkToken NUMBER "1")); reflexivity.
Defined.

Lemma valid_list_minus_int :
  valid_program "set A = (list 1); set B = ^{ A - 1 };"
    [S_set "A" (V_list [V_number 1]);
     S_set "B" (V_const (E_MINUS (E_var "A") (E_num 1)))].
Proof.
  exists [mkToken SET "set"; mkToken IDENT "A"; mkToken EQUAL "=";
          mkToken LPAREN "("; mkToken LIST "list"; mkToken NUMBER "1";
          mkToken RPAREN ")"; mkToken SEMICOLON ";"; mkToken SET "set";
          mkToken IDENT "B"; mkToken EQUAL "="; mkToken CARET "^";
          mkToken LBRACE "{"; mkToken IDENT "A"; mkToken MINUS "-";
          mkToken NUMBER "1"; mkToken RBRACE "}"; mkToken SEMICOLON ";"].
  split; [vm_compute; reflexivity|].
  apply (G_program_cons
           [mkToken SET "set"; mkToken IDENT "A"; mkToken EQUAL "=";
            mkToken LPAREN "("; mkToken LIST "list"; mkToken NUMBER "1";
            mkToken RPAREN ")"; mkToken SEMICOLON ";"] _
           [mkToken SET "set"; mkToken IDENT "B"; mkToken EQUAL "=";
            mkToken CARET "^"; mkToken LBRACE "{"; mkToken IDENT "A";
            mkToken MINUS "-"; mkToken NUMBER "1"; mkToken RBRACE "}";
            mkToken SEMICOLON ";"]).
  - apply (G_stmt_set (mkToken SET "set") (mkToken IDENT "A")
             (mkToken EQUAL "=")
             [mkToken LPAREN "("; mkToken LIST "list"; mkToken NUMBER "1";
              mkToken RPAREN ")"] _ (mkToken SEMICOLON ";"));
      try reflexivity.
    apply (G_value_list (mkToken LPAREN "(") (mkToken LIST "list")
             [mkToken NUMBER "1"] _ (mkToken RPAREN ")")); try reflexivity.
    apply (G_values_cons [mkToken NUMBER "1"] _ [] []); [|constructor].
    apply (G_value_number (mkToken NUMBER "1")); reflexivity.
  - apply (G_program_cons
             [mkToken SET "set"; mkToken IDENT "B"; mkToken EQUAL "=";
              mkToken CARET "^"; mkToken LBRACE "{"; mkToken IDENT "A";
              mkToken MINUS "-"; mkToken NUMBER "1"; mkToken RBRACE "}";
              mkToken SEMICOLON ";"] _ [] []); [|constructor].
    apply (G_stmt_set (mkToken SET "set") (mkToken IDENT "B")
             (mkToken EQUAL "=")
             [mkToken CARET "^"; mkToken LBRACE "{"; mkToken IDENT "A";
              mkToken MINUS "-"; mkToken NUMBER "1"; mkToken RBRACE "}"] _
             (mkToken SEMICOLON ";")); try reflexivity.
    apply (G_value_const (mkToken CARET "^") (mkToken LBRACE "{")
             [mkToken IDENT "A"; mkToken MINUS "-"; mkToken NUMBER "1"] _
             (mkToken RBRACE "}")); try reflexivity.
    apply (G_expr_minus [mkToken IDENT "A"] _ (mkToken MINUS "-")
             [mkToken NUMBER "1"] _); try reflexivity.
    + apply G_expr_term, (G_term_ident (mkToken IDENT "A")); reflexivity.
    + apply (G_term_number (mkToken NUMBER "1")); reflexivity.
Qed.

(** C1 as stated fails: the program below is valid and refers to declared
    names only, and the run ends in the [TypeError] of [list - int]; the
    output is the error line, not a line per statement. *)
Lemma valid_program_with_type_error :
  valid_program "set A = (list 1); set B = ^{ A - 1 };"
    [S_set "A" (V_list [V_number 1]);
     S_set "B" (V_const (E_MINUS (E_var "A") (E_num 1)))]
  /\ program_refs_defined []
       [S_set "A" (V_list [V_number 1]);
        S_set "B" (V_const (E_MINUS (E_var "A") (E_num 1)))] = true
  /\ run_stmts example_ops
       [S_set "A" (V_list [V_number 1]);
        S_set "B" (V_const (E_MINUS (E_var "A") (E_num 1)))] []
     = Raise (Builtin TypeError
                "unsupported operand type(s) for -: 'list' and 'int'")
  /\ main example_ops "set A = (list 1); set B = ^{ A - 1 };"
     = Some ("ERROR = " ++ dquote
             ++ "unsupported operand type(s) for -: 'list' and 'int'"
             ++ dquote).
Proof.
  split; [exact valid_list_minus_int|].
  split; [vm_compute; reflexivity|]; split; vm_compute; reflexivity.
Qed.

(** A name declared twice has one line: two statements, one line. *)
Lemma redeclared_constant_one_line :
  main example_ops "set A = 1; set A = 2;" = Some "a = 2".
Proof. vm_compute; reflexivity. Qed.

(* ================================================================= *)
(** * Further properties *)

Section ParserSound.
Import Parser.

Local Open Scope list_scope.

Lemma mbind_inv {A B} (m : M A) (k : A -> M B) ts b ts' :
  mbind m k ts = Some (Ok (b, ts')) ->
  exists a ts1, m ts = Some (Ok (a, ts1)) /\ k a ts1 = Some (Ok (b, ts')).
Proof.
  unfold mbind; destruct (m ts) as [[[a ts1]|e]|]; try discriminate.
  intros H; now exists a, ts1.
Qed.

Lemma eat_inv (t : tok_type) ts tok ts' :
  eat t ts = Some (Ok (tok, ts')) -> ts = tok :: ts' /\ type tok = t.
Proof.
  destruct ts as [|tok0 rest]; simpl; [discriminate|].
  destruct (tok_type_eqb (type tok0) t) eqn:E; [|discriminate].
  intros [= <- <-]; split; [reflexivity | now apply tok_type_eqb_eq].
Qed.

Ltac peek_in H := rewrite mbind_peek in H.

Tactic Notation "eat_in" hyp(H) ident(tok) :=
  let Heat := fresh "Heat" in
  let ts := fresh "ts" in
  apply mbind_inv in H as (tok & ts & Heat & H);
  apply eat_inv in Heat as (Heat & ?);
  match type of Heat with
  | _ :: _ = _ :: _ => injection Heat as <- <-
  | _ => subst
  end.

Tactic Notation "call_in" hyp(H) ident(a) ident(Hm) :=
  let ts := fresh "ts" in
  apply mbind_inv in H as (a & ts & Hm & H).

Ltac ret_in H := injection H as <- <-.

Ltac norm_app :=
  repeat (rewrite <- app_assoc || rewrite <- app_comm_cons
          || rewrite app_nil_l).

Lemma unfold_sound (P : methods) :
  methods_sound P -> methods_sound (unfold_methods P).
Proof.
  intros HS; constructor; cbn [unfold_methods m_value m_list m_list_loop
    m_const_expr m_expr m_expr_loop m_term].
  - (* parse_value *)
    intros ts a ts' H; unfold parse_value_body in H; peek_in H.
    destruct ts as [|tok ts]; cbn [hd_error] in H; [discriminate H|].
    destruct (tok_type_eqb (type tok) NUMBER) eqn:E1.
    { eat_in H num; ret_in H.
      exists [tok]; split; [reflexivity | now constructor]. }
    destruct (tok_type_eqb (type tok) LPAREN) eqn:E2.
    { now apply (s_list _ HS). }
    destruct (tok_type_eqb (type tok) CARET) eqn:E3.
    { now apply (s_const_expr _ HS). }
    discriminate H.
  - (* parse_list *)
    intros ts a ts' H; unfold parse_list_body in H.
    eat_in H lp; eat_in H kw; call_in H items Hm.
    apply (s_list_loop _ HS) in Hm as (pre & -> & more & -> & HG).
    eat_in H rp; ret_in H.
    exists (lp :: kw :: pre ++ [rp]); split; [now norm_app|].
    now constructor.
  - (* the loop of parse_list *)
    intros items ts a ts' H; unfold parse_list_loop_body in H; peek_in H.
    destruct ts as [|tok ts]; cbn [hd_error] in H.
    { ret_in H. exists []; split; [reflexivity|].
      exists []; split; [now rewrite app_nil_r | constructor]. }
    destruct (negb (tok_type_eqb (type tok) RPAREN)) eqn:E.
    + call_in H v Hm.
      apply (s_value _ HS) in Hm as (pre1 & -> & HG1).
      apply (s_list_loop _ HS) in H as (pre2 & -> & more & -> & HG2).
      exists (pre1 ++ pre2); split; [now rewrite app_assoc|].
      exists (v :: more); split; [now rewrite <- app_assoc|].
      now constructor.
    + ret_in H. exists []; split; [reflexivity|].
      exists []; split; [now rewrite app_nil_r | constructor].
  - (* parse_const_expr *)
    intros ts a ts' H; unfold parse_const_expr_body in H.
    eat_in H caret; eat_in H lb; call_in H e Hm.
    apply (s_expr _ HS) in Hm as (pre & -> & HG).
    eat_in H rb; ret_in H.
    exists (caret :: lb :: pre ++ [rb]); split; [now norm_app|].
    now constructor.
  - (* parse_expr *)
    intros ts a ts' H; unfold parse_expr_body in H; call_in H node Hm.
    apply (s_term _ HS) in Hm as (pre1 & -> & HG1).
    apply (s_expr_loop _ HS) in H as (pre2 & -> & HG2).
    exists (pre1 ++ pre2); split; [now rewrite app_assoc|].
    apply HG2; now constructor.
  - (* the loop of parse_expr *)
    intros node ts a ts' H; unfold parse_expr_loop_body in H; peek_in H.
    destruct ts as [|tok ts]; cbn [hd_error] in H.
    { ret_in H. exists []; split; [reflexivity|].
      intros ts0 Hnode; now rewrite app_nil_r. }
    destruct (tok_type_eqb (type tok) PLUS) eqn:E1.
    { eat_in H plus; call_in H right Hm.
      apply (s_term _ HS) in Hm as (pre1 & -> & HG1).
      apply (s_expr_loop _ HS) in H as (pre2 & -> & HG2).
      exists (tok :: pre1 ++ pre2); split; [now norm_app|].
      intros ts0 Hnode.
      replace (ts0 ++ tok :: pre1 ++ pre2)
        with ((ts0 ++ tok :: pre1) ++ pre2) by now norm_app.
      apply HG2; now constructor. }
    destruct (tok_type_eqb (type tok) MINUS) eqn:E2.
    { eat_in H minus; call_in H right Hm.
      apply (s_term _ HS) in Hm as (pre1 & -> & HG1).
      apply (s_expr_loop _ HS) in H as (pre2 & -> & HG2).
      exists (tok :: pre1 ++ pre2); split; [now norm_app|].
      intros ts0 Hnode.
      replace (ts0 ++ tok :: pre1 ++ pre2)
        with ((ts0 ++ tok :: pre1) ++ pre2) by now norm_app.
      apply HG2; now constructor. }
    ret_in H. exists []; split; [reflexivity|].
    intros ts0 Hnode; now rewrite app_nil_r.
  - (* parse_term *)
    intros ts a ts' H; unfold parse_term_body in H; peek_in H.
    destruct ts as [|tok ts]; cbn [hd_error] in H; [discriminate H|].
    destruct (tok_type_eqb (type tok) MINUS) eqn:E1.
    { eat_in H minus; call_in H term Hm.
      apply (s_term _ HS) in Hm as (pre & -> & HG). ret_in H.
      exists (tok :: pre); split; [reflexivity | now constructor]. }
    destruct (tok_type_eqb (type tok) NUMBER) eqn:E2.
    { eat_in H num; ret_in H.
      exists [tok]; split; [reflexivity | now constructor]. }
    destruct (tok_type_eqb (type tok) IDENT) eqn:E3.
    { eat_in H id; ret_in H.
      exists [tok]; split; [reflexivity | now constructor]. }
    destruct (tok_type_eqb (type tok) POW) eqn:E4.
    { eat_in H pow; eat_in H lp; call_in H x Hm.
      apply (s_expr _ HS) in Hm as (pre1 & -> & HG1).
      eat_in H comma; call_in H y Hm.
      apply (s_expr _ HS) in Hm as (pre2 & -> & HG2).
      eat_in H rp; ret_in H.
      exists (tok :: lp :: pre1 ++ comma :: pre2 ++ [rp]);
        split; [now norm_app|].
      now constructor. }
    destruct (tok_type_eqb (type tok) ABS) eqn:E5.
    { eat_in H kw; eat_in H lp; call_in H x Hm.
      apply (s_expr _ HS) in Hm as (pre1 & -> & HG1).
      eat_in H rp; ret_in H.
      exists (tok :: lp :: pre1 ++ [rp]); split; [now norm_app|].
      now constructor. }
    discriminate H.
Qed.

Lemma methods_at_sound (n : nat) : methods_sound (methods_at n).
Proof.
  induction n as [|n IH]; [|now apply unfold_sound].
  constructor; intros; intros ts a ts' H; discriminate H.
Qed.

Lemma parse_stmt_sound (P : methods) :
  methods_sound P -> derives G_stmt (parse_stmt_body P).
Proof.
  intros HS ts a ts' H; unfold parse_stmt_body in H.
  eat_in H kw; eat_in H id; eat_in H eq; call_in H val Hm.
  apply (s_value _ HS) in Hm as (pre & -> & HG).
  eat_in H semi; ret_in H.
  exists (kw :: id :: eq :: pre ++ [semi]); split; [now norm_app|].
  now constructor.
Qed.

Lemma parse_loop_sound (i : nat) (P : methods) (stmts : list stmt) :
  methods_sound P ->
  forall ts l ts', parse_loop i P stmts ts = Some (Ok (l, ts')) ->
  ts' = [] /\ exists more, l = stmts ++ more /\ G_program ts more.
Proof.
  intros HS; revert stmts; induction i as [|i IH]; intros stmts ts l ts' H;
    [discriminate H|].
  cbn [parse_loop] in H; peek_in H.
  destruct ts as [|tok ts]; cbn [hd_error] in H.
  { ret_in H. split; [reflexivity|].
    exists []; split; [now rewrite app_nil_r | constructor]. }
  call_in H st Hm.
  apply (parse_stmt_sound _ HS) in Hm as (pre & Heq & HG).
  apply IH in H as (-> & more & -> & HP).
  split; [reflexivity|].
  exists (st :: more); split; [now rewrite <- app_assoc|].
  rewrite Heq; now constructor.
Qed.

Lemma parse_sound (tokens : list Token) (stmts : list stmt) :
  parse tokens = Some (Ok stmts) -> G_program tokens stmts.
Proof.
  unfold parse, parse_with.
  destruct (parse_loop _ _ _ _) as [[[l ts']|e]|] eqn:E; try discriminate.
  intros [= <-].
  apply (parse_loop_sound _ _ _ (methods_at_sound _)) in E
    as (_ & more & -> & HP).
  exact HP.
Qed.

End ParserSound.

Section LexerLexemes.

Local Open Scope string_scope.

(** a greedy match does not depend on what follows the text after it *)
Lemma span_cut (cls : ascii -> bool) (s m rest : string) :
  Py.span cls s = (m, rest) -> Py.span cls m = (m, "").
Proof.
  intros H; apply span_end.
  pose proof (span_all cls s) as Ha; now rewrite H in Ha.
Qed.

Lemma match_lit_self (lit rest : string) :
  Py.match_lit lit (lit ++ rest) = Some rest.
Proof.
  induction lit as [|c lit IH]; simpl; [reflexivity|].
  now rewrite Ascii.eqb_refl.
Qed.

Lemma eqb_empty (s : string) : String.eqb s "" = true <-> s = "".
Proof. apply String.eqb_eq. Qed.

Lemma full_match_lit (lit v : string) :
  full_match (Py.Lit lit) v = true <-> v = lit.
Proof.
  unfold full_match; simpl; split.
  - destruct (Py.match_lit lit v) as [rest|] eqn:E; [|discriminate].
    intros H; apply eqb_empty in H; subst rest.
    apply match_lit_append in E; now rewrite append_nil_r in E.
  - intros ->. pose proof (match_lit_self lit "") as H.
    rewrite append_nil_r in H; now rewrite H.
Qed.

Lemma full_match_plus (cls : ascii -> bool) (v : string) :
  full_match (Py.Plus cls) v = true <-> v <> "" /\ all_chars cls v = true.
Proof.
  unfold full_match; simpl; split.
  - destruct (Py.span cls v) as [m rest] eqn:E.
    pose proof (span_append cls v) as Happ.
    pose proof (span_all cls v) as Hall.
    rewrite E in Happ, Hall; simpl in Happ, Hall.
    destruct m as [|c m]; [discriminate|].
    intros H; apply eqb_empty in H; subst rest.
    rewrite append_nil_r in Happ; subst v; split; [discriminate | exact Hall].
  - intros [Hne Hall]; rewrite (span_end _ _ Hall).
    destruct v; [now elim Hne | reflexivity].
Qed.

Lemma full_match_comment (v : string) :
  full_match (Py.Cat (Py.Lit "*") (Py.Star Py.is_dot)) v = true
  <-> exists body, v = String "*" body /\ all_chars Py.is_dot body = true.
Proof.
  unfold full_match; cbn [Py.re_match Py.match_lit]; split.
  - destruct v as [|c v]; [discriminate|].
    destruct (Ascii.eqb "*" c) eqn:Ec; [|discriminate].
    apply Ascii.eqb_eq in Ec; subst c.
    destruct (Py.span Py.is_dot v) as [m rest] eqn:E.
    pose proof (span_append Py.is_dot v) as Happ.
    pose proof (span_all Py.is_dot v) as Hall.
    rewrite E in Happ, Hall; simpl in Happ, Hall.
    intros H; apply eqb_empty in H; subst rest.
    rewrite append_nil_r in Happ; subst v.
    now exists m.
  - intros (body & -> & Hall).
    change (Ascii.eqb "*" "*") with true; cbn iota.
    now rewrite (span_end _ _ Hall).
Qed.

Lemma re_match_lit_inv (lit s v rest : string) :
  Py.re_match (Py.Lit lit) s = Some (v, rest) -> v = lit.
Proof.
  simpl; destruct (Py.match_lit lit s); [|discriminate]; now intros [= <- _].
Qed.

Lemma re_match_plus_inv (cls : ascii -> bool) (s v rest : string) :
  Py.re_match (Py.Plus cls) s = Some (v, rest) ->
  v <> "" /\ all_chars cls v = true.
Proof.
  simpl; destruct (Py.span cls s) as [m rest'] eqn:E.
  pose proof (span_all cls s) as Hall; rewrite E in Hall; simpl in Hall.
  destruct m as [|c m]; [discriminate|].
  intros [= <- _]; split; [discriminate | exact Hall].
Qed.

Lemma re_match_comment_inv (s v rest : string) :
  Py.re_match (Py.Cat (Py.Lit "*") (Py.Star Py.is_dot)) s = Some (v, rest) ->
  exists body, v = String "*" body /\ all_chars Py.is_dot body = true.
Proof.
  cbn [Py.re_match Py.match_lit]; destruct s as [|c s]; [discriminate|].
  destruct (Ascii.eqb "*" c); [|discriminate].
  destruct (Py.span Py.is_dot s) as [m rest'] eqn:E.
  pose proof (span_all Py.is_dot s) as Hall; rewrite E in Hall; simpl in Hall.
  intros [= <- _]; now exists m.
Qed.

Lemma first_match_lexeme (s : string) (t : tok_type) (v rest : string) :
  first_match TOKEN_REGEX s = Some (t, v, rest) -> lexeme_ok t v = true.
Proof.
  intros H; apply first_match_in in H as (r & Hin & Hm).
  simpl in Hin.
  repeat (destruct Hin as [Hin|Hin];
          [injection Hin as <- <-; unfold lexeme_ok;
           cbn [pattern_of TOKEN_REGEX tok_type_eqb]|]);
    try contradiction;
    first [ apply full_match_comment; now apply re_match_comment_inv in Hm
          | apply full_match_plus; now apply re_match_plus_inv in Hm
          | apply full_match_lit; now apply re_match_lit_inv in Hm ].
Qed.

Lemma lex_loop_pieces (fuel pos : nat) (s : string) (tokens out : list Token) :
  lex_loop fuel pos s tokens = Some (Ok out) ->
  exists pieces,
    s = text_of pieces
    /\ forallb (fun p => lexeme_ok (fst p) (snd p)) pieces = true
    /\ out = (tokens ++ tokens_of pieces)%list.
Proof.
  revert pos s tokens; induction fuel as [|fuel IH]; intros pos s tokens H.
  - destruct s; [|discriminate H]. injection H as <-.
    exists []; repeat split; now rewrite app_nil_r.
  - destruct s as [|c s].
    { injection H as <-. exists []; repeat split; now rewrite app_nil_r. }
    cbn [lex_loop] in H.
    destruct (first_match TOKEN_REGEX (String c s)) as [[[t v] rest]|] eqn:E;
      [|discriminate H].
    pose proof (first_match_lexeme _ _ _ _ E) as Hok.
    apply first_match_advance in E as [Heq _].
    apply IH in H as (pieces & -> & Hall & ->).
    exists ((t, v) :: pieces); split; [exact Heq|].
    split; [cbn [forallb fst snd]; now rewrite Hok|].
    unfold tokens_of; cbn [filter fst snd].
    destruct t; cbn [kept map fst snd]; try reflexivity;
      now rewrite <- app_assoc.
Qed.

(** X2.  [lex] cuts the text into lexemes: the text is the concatenation of
    texts that the patterns of the token table match in full, and the tokens
    returned are these lexemes, in order, without the whitespace and the
    comments.  So nothing of the text but whitespace and comments is dropped,
    and the text of every token matches the pattern of its kind. *)
Theorem lex_decomposition (text : string) (tokens : list Token) :
  lex text = Some (Ok tokens) ->
  exists pieces,
    text = text_of pieces
    /\ forallb (fun p => lexeme_ok (fst p) (snd p)) pieces = true
    /\ tokens = tokens_of pieces.
Proof. intros H; now apply lex_loop_pieces in H. Qed.

(** *** Printing tokens *)

Lemma is_ws_cases (c : ascii) :
  Py.is_ws c = true -> c = " "%char \/ c = Py.tab \/ c = Py.newline.
Proof.
  unfold Py.is_ws; intros H.
  apply orb_true_iff in H as [H|H]; [apply orb_true_iff in H as [H|H]|];
    apply Ascii.eqb_eq in H; auto.
Qed.

Lemma digit_not_ws (c : ascii) : Py.is_digit c = true -> Py.is_ws c = false.
Proof.
  intros H; destruct (Py.is_ws c) eqn:E; [|reflexivity].
  apply is_ws_cases in E as [->|[->| ->]]; discriminate H.
Qed.

Lemma upper_not_ws (c : ascii) : Py.is_upper c = true -> Py.is_ws c = false.
Proof.
  intros H; destruct (Py.is_ws c) eqn:E; [|reflexivity].
  apply is_ws_cases in E as [->|[->| ->]]; discriminate H.
Qed.

Ltac lexeme_cases H :=
  unfold lexeme_ok in H; cbn [pattern_of TOKEN_REGEX tok_type_eqb] in H;
  first [ apply full_match_lit in H
        | apply full_match_plus in H ].

(** the text of a token starts with a character that is no whitespace *)
Lemma lexeme_head (t : tok_type) (v : string) :
  kept t = true -> lexeme_ok t v = true ->
  exists c v', v = String c v' /\ Py.is_ws c = false.
Proof.
  intros Hk H; destruct t; try discriminate Hk; lexeme_cases H;
    try (subst v; eexists _, _; split; reflexivity).
  - destruct H as [Hne Hall]; destruct v as [|c v]; [now elim Hne|].
    exists c, v; split; [reflexivity|].
    cbn [all_chars] in Hall; apply andb_true_iff in Hall as [Hc _].
    now apply digit_not_ws.
  - destruct H as [Hne Hall]; destruct v as [|c v]; [now elim Hne|].
    exists c, v; split; [reflexivity|].
    cbn [all_chars] in Hall; apply andb_true_iff in Hall as [Hc _].
    now apply upper_not_ws.
Qed.

Lemma span_before_space (cls : ascii -> bool) (body rest : string) :
  all_chars cls body = true -> cls " "%char = false ->
  rest = "" \/ (exists rest', rest = String " " rest') ->
  Py.span cls (body ++ rest) = (body, rest).
Proof.
  intros Hall Hsp [->|[rest' ->]].
  - rewrite append_nil_r; now apply span_end.
  - now apply span_stop.
Qed.

(** a token followed by a space, or by nothing, is matched as it is *)
Lemma first_match_kept (t : tok_type) (v rest : string) :
  kept t = true -> lexeme_ok t v = true ->
  rest = "" \/ (exists rest', rest = String " " rest') ->
  first_match TOKEN_REGEX (v ++ rest) = Some (t, v, rest).
Proof.
  intros Hk H Hrest; destruct t; try discriminate Hk; lexeme_cases H;
    try (subst v; reflexivity).
  - destruct H as [Hne Hall]; destruct v as [|c v]; [now elim Hne|].
    cbn [all_chars] in Hall; apply andb_true_iff in Hall as [Hc Hall].
    pose proof (span_before_space Py.is_digit v rest Hall eq_refl Hrest) as E.
    destruct c as [[] [] [] [] [] [] [] []]; try discriminate Hc;
      cbn; rewrite E; reflexivity.
  - destruct H as [Hne Hall]; destruct v as [|c v]; [now elim Hne|].
    cbn [all_chars] in Hall; apply andb_true_iff in Hall as [Hc Hall].
    pose proof (span_before_space Py.is_upper v rest Hall eq_refl Hrest) as E.
    destruct c as [[] [] [] [] [] [] [] []]; try discriminate Hc;
      cbn; rewrite E; reflexivity.
Qed.

(** a space before a token is matched as whitespace, on its own *)
Lemma first_match_space (c : ascii) (rest : string) :
  Py.is_ws c = false ->
  first_match TOKEN_REGEX (String " " (String c rest))
  = Some (WS, " ", String c rest).
Proof. intros H; cbn; rewrite H; reflexivity. Qed.

Lemma join_cons (sep l : string) (ls : list string) :
  Py.join sep (l :: ls)
  = l ++ match ls with
         | [] => ""
         | _ => sep ++ Py.join sep ls
         end.
Proof. destruct ls; cbn [Py.join]; [now rewrite append_nil_r | reflexivity]. Qed.

Lemma lex_loop_printed (tokens : list Token) :
  forallb token_ok tokens = true ->
  forall acc pos, exists fuel pos',
    lex_loop fuel pos (Py.join " " (map value tokens)) acc
    = lex_loop 0 pos' "" (acc ++ tokens)%list.
Proof.
  induction tokens as [|tok tokens IH]; intros Hok acc pos.
  - exists 0, pos; now rewrite app_nil_r.
  - cbn [forallb] in Hok; apply andb_true_iff in Hok as [Htok Hok].
    unfold token_ok in Htok; apply andb_true_iff in Htok as [Hk Hv].
    specialize (IH Hok).
    destruct (lexeme_head _ _ Hk Hv) as (c & v' & Hval & _).
    destruct tokens as [|tok2 tokens]; cbn [map] in *; rewrite join_cons.
    + exists 1, (pos + String.length (value tok)).
      rewrite append_nil_r, Hval; cbn [lex_loop]; rewrite <- Hval.
      pose proof (first_match_kept _ _ "" Hk Hv (or_introl eq_refl)) as E.
      rewrite append_nil_r in E; rewrite E.
      destruct tok as [t v]; cbn [type value] in *.
      destruct t; try discriminate Hk; reflexivity.
    + cbn [forallb] in Hok; apply andb_true_iff in Hok as [Htok2 _].
      unfold token_ok in Htok2; apply andb_true_iff in Htok2 as [Hk2 Hv2].
      destruct (lexeme_head _ _ Hk2 Hv2) as (c2 & v2 & Hval2 & Hc2).
      destruct (IH (acc ++ [tok])%list
                  (pos + String.length (value tok) + 1)) as (fuel & pos' & E).
      exists (S (S fuel)), pos'.
      rewrite <- app_assoc in E; cbn [List.app] in E; rewrite <- E.
      set (text := Py.join " " (value tok2 :: map value tokens)) in *.
      assert (Htext : exists rest, text = String c2 rest).
      { unfold text; rewrite join_cons, Hval2; cbn [append].
        now eexists. }
      destruct Htext as [rest Htext]; rewrite Htext.
      change (" " ++ String c2 rest) with (String " " (String c2 rest)).
      pose proof (first_match_kept _ _ (String " " (String c2 rest)) Hk Hv
                    (or_intror (ex_intro _ _ eq_refl))) as E1.
      rewrite Hval in E1 |- *; cbn [append lex_loop] in E1 |- *.
      rewrite E1, (first_match_space _ _ Hc2); rewrite <- Hval.
      destruct tok as [t v]; cbn [type value] in *.
      destruct t; try discriminate Hk; reflexivity.
Qed.

Lemma lex_from_loop (fuel : nat) (text : string) (tokens : list Token) :
  lex_loop fuel 0 text [] = Some (Ok tokens) -> lex text = Some (Ok tokens).
Proof.
  intros H; destruct (lex_total text) as [r Hr].
  rewrite Hr; f_equal; exact (lex_loop_same _ _ _ _ _ _ _ Hr H).
Qed.

(** X3.  Printing and lexing again.  Tokens that [lex] can produce (their
    kind is neither WS nor COMMENT, and the pattern of the kind matches their
    text in full), written out with one space between them, are lexed to
    themselves. *)
Theorem lex_printed_tokens (tokens : list Token) :
  forallb token_ok tokens = true ->
  lex (Py.join " " (map value tokens)) = Some (Ok tokens).
Proof.
  intros Hok.
  destruct (lex_loop_printed tokens Hok [] 0) as (fuel & pos' & E).
  cbn [lex_loop List.app] in E.
  exact (lex_from_loop _ _ _ E).
Qed.

End LexerLexemes.

Lemma lex_printed_tokens_witness :
  lex (Py.join " " (map value
         [mkToken SET "set"; mkToken IDENT "AB"; mkToken EQUAL "=";
          mkToken NUMBER "12"; mkToken SEMICOLON ";"]))
  = Some (Ok [mkToken SET "set"; mkToken IDENT "AB"; mkToken EQUAL "=";
              mkToken NUMBER "12"; mkToken SEMICOLON ";"]).
Proof. apply lex_printed_tokens; vm_compute; reflexivity. Defined.

Lemma lex_decomposition_witness :
  exists pieces,
    "set A = 1; * one" = text_of pieces
    /\ forallb (fun p => lexeme_ok (fst p) (snd p)) pieces = true
    /\ [mkToken SET "set"; mkToken IDENT "A"; mkToken EQUAL "=";
        mkToken NUMBER "1"; mkToken SEMICOLON ";"] = tokens_of pieces.
Proof. apply lex_decomposition; vm_compute; reflexivity. Defined.

Section EvaluatorErrors.

Context {F : Type} (ops : float_ops F).

Local Open Scope list_scope.

Lemma of_builtin_plain {A} (r : (builtin_class * string) + A) (msg : string) :
  of_builtin r <> Raise (Exception msg).
Proof. destruct r as [[cls m]|a]; discriminate. Qed.

Lemma py_add_plain (x y : pyval F) (msg : string) :
  py_add ops x y <> Raise (Exception msg).
Proof.
  destruct x, y; cbn [py_add]; try discriminate; apply of_builtin_plain.
Qed.

Lemma py_sub_plain (x y : pyval F) (msg : string) :
  py_sub ops x y <> Raise (Exception msg).
Proof.
  destruct x, y; cbn [py_sub]; try discriminate; apply of_builtin_plain.
Qed.

Lemma py_pow_plain (x y : pyval F) (msg : string) :
  py_pow ops x y <> Raise (Exception msg).
Proof.
  destruct x, y; cbn [py_pow]; try discriminate; try apply of_builtin_plain.
  destruct (0 <=? z0)%Z; [discriminate|].
  destruct (int_pow_neg ops z z0) as [[cls m]|f]; discriminate.
Qed.

Lemma py_abs_plain (x : pyval F) (msg : string) :
  py_abs ops x <> Raise (Exception msg).
Proof. destruct x; cbn [py_abs]; try discriminate; apply of_builtin_plain. Qed.

Lemma bind_raise {A B} (r : result A) (k : A -> result B) (e : exn) :
  bind r k = Raise e -> r = Raise e \/ exists a, r = Ok a /\ k a = Raise e.
Proof.
  destruct r as [a|e']; simpl; intros H; [right; now exists a|].
  left; now injection H as ->.
Qed.

Lemma eval_expr_plain (node : expr) (consts : dict) (msg : string) :
  eval_expr ops node consts = Raise (Exception msg) ->
  exists name,
    msg = ("SemanticError: Unknown constant " ++ name)%string
    /\ In name (expr_refs node) /\ dict_get consts name = None.
Proof.
  induction node as [n|name|l IHl r IHr|l IHl r IHr|l IHl r IHr|a IHa];
    cbn [eval_expr expr_refs]; intros H.
  - discriminate H.
  - destruct (dict_get consts name) eqn:E; [discriminate H|].
    injection H as <-. exists name; repeat split; [now left | exact E].
  - apply bind_raise in H as [H|(x & _ & H)];
      [destruct (IHl H) as (name & ? & ? & ?); exists name;
       rewrite in_app_iff; auto|].
    apply bind_raise in H as [H|(y & _ & H)];
      [destruct (IHr H) as (name & ? & ? & ?); exists name;
       rewrite in_app_iff; auto|].
    now apply py_add_plain in H.
  - apply bind_raise in H as [H|(x & _ & H)];
      [destruct (IHl H) as (name & ? & ? & ?); exists name;
       rewrite in_app_iff; auto|].
    apply bind_raise in H as [H|(y & _ & H)];
      [destruct (IHr H) as (name & ? & ? & ?); exists name;
       rewrite in_app_iff; auto|].
    now apply py_sub_plain in H.
  - apply bind_raise in H as [H|(x & _ & H)];
      [destruct (IHl H) as (name & ? & ? & ?); exists name;
       rewrite in_app_iff; auto|].
    apply bind_raise in H as [H|(y & _ & H)];
      [destruct (IHr H) as (name & ? & ? & ?); exists name;
       rewrite in_app_iff; auto|].
    now apply py_pow_plain in H.
  - apply bind_raise in H as [H|(x & _ & H)]; [now apply IHa|].
    now apply py_abs_plain in H.
Qed.

Lemma comprehension_raise {A B} (f : A -> result B) (items : list A)
  (e : exn) :
  comprehension f items = Raise e <->
  exists done x rest,
    items = done ++ x :: rest
    /\ Forall (fun y => exists r, f y = Ok r) done
    /\ f x = Raise e.
Proof.
  induction items as [|x items IH]; cbn [comprehension]; split.
  - discriminate.
  - intros (done & y & rest & Heq & _); now destruct done.
  - intros H; apply bind_raise in H as [H|(r & Hr & H)].
    + exists [], x, items; repeat split; [constructor | exact H].
    + apply bind_raise in H as [H|(rs & _ & H)]; [|discriminate H].
      apply IH in H as (done & y & rest & -> & Hdone & Hy).
      exists (x :: done), y, rest; repeat split; [|exact Hy].
      constructor; [now exists r | exact Hdone].
  - intros (done & y & rest & Heq & Hdone & Hy).
    destruct done as [|d done]; cbn [List.app] in Heq; injection Heq as -> ->.
    + now rewrite Hy.
    + inversion Hdone as [|? ? [r Hr] Hdone']; subst.
      rewrite Hr; cbn [bind].
      assert (H : comprehension f (done ++ y :: rest) = Raise e)
        by (apply IH; now exists done, y, rest).
      now rewrite H.
Qed.

Lemma comprehension_ok {A B} (f : A -> result B) (items : list A)
  (l : list B) :
  comprehension f items = Ok l <-> Forall2 (fun x r => f x = Ok r) items l.
Proof.
  revert l; induction items as [|x items IH]; intros l;
    cbn [comprehension]; split.
  - intros [= <-]; constructor.
  - intros H; now inversion H.
  - intros H; apply bind_ok in H as (r & Hr & H).
    apply bind_ok in H as (rs & Hrs & H); injection H as <-.
    constructor; [exact Hr | now apply IH].
  - intros H; inversion H as [|? r ? rs Hr Hrs]; subst.
    rewrite Hr; cbn [bind]. apply IH in Hrs; now rewrite Hrs.
Qed.

Lemma eval_value_plain (v : vnode) (consts : dict) (msg : string) :
  eval_value ops v consts = Raise (Exception msg) ->
  exists name,
    msg = ("SemanticError: Unknown constant " ++ name)%string
    /\ In name (vnode_refs v) /\ dict_get consts name = None.
Proof.
  induction v as [n|items IH|e] using vnode_induction;
    cbn [eval_value vnode_refs]; intros H.
  - discriminate H.
  - apply bind_raise in H as [H|(l & _ & H)]; [|discriminate H].
    apply comprehension_raise in H as (done & x & rest & -> & _ & Hx).
    apply Forall_app in IH as [_ IH]; inversion IH as [|? ? IHx _]; subst.
    destruct (IHx Hx) as (name & ? & ? & ?); exists name.
    repeat split; try assumption.
    rewrite flat_map_app; cbn [flat_map]; rewrite !in_app_iff; auto.
  - now apply eval_expr_plain.
Qed.

(** X5.  The evaluator raises an exception of its own only for an unknown
    constant: when the evaluation of a statement's value fails with a plain
    [Exception], the message is [SemanticError: Unknown constant <name>], the
    name occurs in the value, and the table has no entry for it.  All other
    failures are exceptions of the interpreter. *)
Theorem semantic_error_is_unknown_constant (stmts : list stmt)
  (msg : string) :
  run_stmts ops stmts [] = Raise (Exception msg) ->
  exists done name val rest consts ref,
    stmts = done ++ S_set name val :: rest
    /\ run_stmts ops done [] = Ok consts
    /\ msg = ("SemanticError: Unknown constant " ++ ref)%string
    /\ In ref (vnode_refs val)
    /\ dict_get consts ref = None.
Proof.
  intros H.
  apply run_stmts_first_failure in H
    as (done & name & val & rest & consts & -> & Hdone & Hval).
  apply eval_value_plain in Hval as (ref & -> & Hin & Hget).
  now exists done, name, val, rest, consts, ref.
Qed.

(** *** Undefined references *)

Lemma dict_get_none (d : @dict F) (name : string) :
  ~ In name (map fst d) -> dict_get d name = None.
Proof.
  intros H; destruct (dict_get d name) eqn:E; [|reflexivity].
  now apply dict_get_in in E.
Qed.

Lemma existsb_eqb_false (name : string) (l : list string) :
  existsb (String.eqb name) l = false <-> ~ In name l.
Proof.
  rewrite <- existsb_eqb_in; destruct (existsb _ l); split; congruence.
Qed.

Lemma eval_expr_undefined (consts : dict) (defined : list string)
  (e : expr) :
  (forall k, In k (map fst consts) -> In k defined) ->
  expr_refs_defined defined e = false ->
  exists err, eval_expr ops e consts = Raise err.
Proof.
  intros Hsub.
  induction e as [n|name|l IHl r IHr|l IHl r IHr|l IHl r IHr|a IHa];
    cbn [eval_expr expr_refs_defined]; intros H.
  - discriminate H.
  - apply existsb_eqb_false in H.
    rewrite dict_get_none; [now eexists | auto].
  - apply andb_false_iff in H as [H|H].
    + destruct (IHl H) as [err ->]; now exists err.
    + destruct (IHr H) as [err ->].
      destruct (eval_expr ops l consts); now eexists.
  - apply andb_false_iff in H as [H|H].
    + destruct (IHl H) as [err ->]; now exists err.
    + destruct (IHr H) as [err ->].
      destruct (eval_expr ops l consts); now eexists.
  - apply andb_false_iff in H as [H|H].
    + destruct (IHl H) as [err ->]; now exists err.
    + destruct (IHr H) as [err ->].
      destruct (eval_expr ops l consts); now eexists.
  - destruct (IHa H) as [err ->]; now exists err.
Qed.

Lemma eval_value_undefined (consts : dict) (defined : list string)
  (v : vnode) :
  (forall k, In k (map fst consts) -> In k defined) ->
  vnode_refs_defined defined v = false ->
  exists err, eval_value ops v consts = Raise err.
Proof.
  intros Hsub.
  induction v as [n|items IH|e] using vnode_induction;
    cbn [eval_value vnode_refs_defined]; intros H.
  - discriminate H.
  - assert (Hc : exists err,
               comprehension (fun x => eval_value ops x consts) items
               = Raise err).
    { induction items as [|x items IHitems]; [discriminate H|].
      inversion IH as [|? ? IHx IHrest]; subst.
      cbn [forallb] in H; cbn [comprehension].
      apply andb_false_iff in H as [H|H].
      - destruct (IHx H) as [err ->]; now exists err.
      - destruct (IHitems IHrest H) as [err ->].
        destruct (eval_value ops x consts); now eexists. }
    destruct Hc as [err ->]; now exists err.
  - now apply (eval_expr_undefined consts defined).
Qed.

Lemma run_stmts_undefined (stmts : list stmt) (consts : dict)
  (defined : list string) :
  (forall k, In k (map fst consts) -> In k defined) ->
  program_refs_defined defined stmts = false ->
  exists err, run_stmts ops stmts consts = Raise err.
Proof.
  revert consts defined;
    induction stmts as [|[name val] stmts IH]; intros consts defined Hsub H;
    cbn [program_refs_defined run_stmts] in *; [discriminate H|].
  apply andb_false_iff in H as [H|H].
  - destruct (eval_value_undefined consts defined val Hsub H) as [err ->].
    now exists err.
  - destruct (eval_value ops val consts) as [v|err]; [|now exists err].
    cbn [bind]; apply (IH _ (name :: defined)); [|exact H].
    intros k Hk; rewrite dict_set_keys, in_app_iff in Hk.
    destruct Hk as [Hk|Hk]; [right; now apply Hsub|].
    destruct (in_dec string_dec name (map fst consts)); [contradiction|].
    destruct Hk as [<-|[]]; now left.
Qed.

(** X6.  A reference to a constant that no earlier statement declares is
    never valid: a program with such a reference anywhere (also inside a list,
    also when the name is declared later, or by the statement itself) does
    not evaluate. *)
Theorem undefined_reference_fails (stmts : list stmt) :
  program_refs_defined [] stmts = false ->
  exists err, run_stmts ops stmts [] = Raise err.
Proof. apply run_stmts_undefined; intros k []. Qed.

(** *** What a value depends on *)

Lemma eval_expr_frame (e : expr) (c1 c2 : dict) :
  (forall name, In name (expr_refs e) -> dict_get c1 name = dict_get c2 name) ->
  eval_expr ops e c1 = eval_expr ops e c2.
Proof.
  induction e as [n|name|l IHl r IHr|l IHl r IHr|l IHl r IHr|a IHa];
    cbn [eval_expr expr_refs]; intros H;
    try (rewrite IHl, IHr;
         [reflexivity | intros; apply H; rewrite in_app_iff; auto ..]).
  - reflexivity.
  - rewrite (H name); [reflexivity | now left].
  - now rewrite IHa.
Qed.

Lemma comprehension_ext {A B} (f g : A -> result B) (items : list A) :
  Forall (fun x => f x = g x) items ->
  comprehension f items = comprehension g items.
Proof.
  induction 1 as [|x items Hx _ IH]; cbn [comprehension];
    [reflexivity | now rewrite Hx, IH].
Qed.

(** X7.  The value of a statement depends on the table only through the
    constants that it refers to: two tables that agree on these names (the
    same entry, or none in both) give the same result, be it a value or a
    failure. *)
Theorem eval_value_frame (v : vnode) (c1 c2 : dict) :
  (forall name, In name (vnode_refs v) ->
                dict_get c1 name = dict_get c2 name) ->
  eval_value ops v c1 = eval_value ops v c2.
Proof.
  induction v as [n|items IH|e] using vnode_induction;
    cbn [eval_value vnode_refs]; intros H.
  - reflexivity.
  - rewrite (comprehension_ext (fun x => eval_value ops x c1)
               (fun x => eval_value ops x c2)); [reflexivity|].
    rewrite Forall_forall in IH |- *; intros x Hx; apply (IH x Hx).
    intros name Hname; apply H, in_flat_map; now exists x.
  - now apply eval_expr_frame.
Qed.

(** X8.  A list literal evaluates its items from left to right: it yields
    the list of the values of its items when all of them evaluate (at any
    depth of nesting), and otherwise fails with the failure of the first item
    that fails. *)
Theorem eval_list_literal (items : list vnode) (consts : dict) :
  (forall r,
      eval_value ops (V_list items) consts = Ok r <->
      exists l, r = VList l
                /\ Forall2 (fun x v => eval_value ops x consts = Ok v) items l)
  /\ (forall e,
         eval_value ops (V_list items) consts = Raise e <->
         exists done x rest,
           items = done ++ x :: rest
           /\ Forall (fun y => exists v, eval_value ops y consts = Ok v) done
           /\ eval_value ops x consts = Raise e).
Proof.
  cbn [eval_value]; split.
  - intros r; split.
    + intros H; apply bind_ok in H as (l & Hl & H); injection H as <-.
      exists l; split; [reflexivity | now apply comprehension_ok].
    + intros (l & -> & Hl); apply comprehension_ok in Hl; now rewrite Hl.
  - intros e; rewrite <- comprehension_raise; split.
    + intros H; apply bind_raise in H as [H|(l & _ & H)];
        [exact H | discriminate H].
    + intros H; now rewrite H.
Qed.

(** *** The keys of the table *)

Lemma first_occurrences_ext (s1 s2 names : list string) :
  (forall k, In k s1 <-> In k s2) ->
  first_occurrences s1 names = first_occurrences s2 names.
Proof.
  revert s1 s2; induction names as [|name names IH]; intros s1 s2 H;
    cbn [first_occurrences]; [reflexivity|].
  assert (E : existsb (String.eqb name) s1 = existsb (String.eqb name) s2).
  { destruct (existsb (String.eqb name) s2) eqn:E2.
    - apply existsb_eqb_in; apply existsb_eqb_in in E2; now apply H.
    - apply existsb_eqb_false; apply existsb_eqb_false in E2.
      now rewrite H. }
  rewrite E; destruct (existsb (String.eqb name) s2); [now apply IH|].
  f_equal; apply IH; intros k; cbn [In]; now rewrite H.
Qed.

Lemma run_stmts_key_order (stmts : list stmt) (d consts : dict) :
  run_stmts ops stmts d = Ok consts ->
  map fst consts
  = map fst d ++ first_occurrences (map fst d) (map stmt_name stmts).
Proof.
  revert d; induction stmts as [|[name val] stmts IH]; intros d H;
    cbn [run_stmts map stmt_name first_occurrences] in *.
  - injection H as <-; now rewrite app_nil_r.
  - apply bind_ok in H as (v & _ & H); apply IH in H; rewrite H.
    rewrite dict_set_keys.
    destruct (in_dec string_dec name (map fst d)) as [Hin|Hout].
    + rewrite app_nil_r.
      apply existsb_eqb_in in Hin; now rewrite Hin.
    + apply existsb_eqb_false in Hout; rewrite Hout, <- app_assoc.
      cbn [List.app]; do 2 f_equal; apply first_occurrences_ext.
      intros k; rewrite in_app_iff; cbn [In]; tauto.
Qed.

Lemma first_occurrences_length (seen names : list string) :
  length (first_occurrences seen names) <= length names.
Proof.
  revert seen; induction names as [|name names IH]; intros seen;
    cbn [first_occurrences length]; [lia|].
  destruct (existsb _ seen); cbn [length];
    [specialize (IH seen) | specialize (IH (name :: seen))]; lia.
Qed.

(** X9.  The table that the driver builds has one entry for each name
    declared, in the order in which the names are declared first, and no name
    twice; so the output has as many lines as the program declares different
    names, and never more lines than the program has statements. *)
Theorem table_keys_in_first_declaration_order (stmts : list stmt)
  (consts : dict) :
  run_stmts ops stmts [] = Ok consts ->
  map fst consts = first_occurrences [] (map stmt_name stmts)
  /\ NoDup (map fst consts)
  /\ length (map (toml_line ops) consts) <= length stmts.
Proof.
  intros H; split; [exact (run_stmts_key_order _ _ _ H)|].
  split; [apply (run_stmts_nodup ops _ _ _ H); constructor|].
  rewrite length_map, <- (length_map fst), (run_stmts_key_order _ _ _ H).
  cbn [map List.app]; rewrite <- (length_map stmt_name stmts).
  apply first_occurrences_length.
Qed.

End EvaluatorErrors.

Lemma semantic_error_is_unknown_constant_witness :
  exists done name val rest consts ref,
    [S_set "A" (V_number 5); S_set "B" (V_list [V_const (E_var "C")])]
    = (done ++ S_set name val :: rest)%list
    /\ run_stmts example_ops done [] = Ok consts
    /\ "SemanticError: Unknown constant C"
       = "SemanticError: Unknown constant " ++ ref
    /\ In ref (vnode_refs val)
    /\ dict_get consts ref = None.
Proof.
  apply (semantic_error_is_unknown_constant example_ops); reflexivity.
Defined.

Lemma undefined_reference_fails_witness :
  exists err,
    run_stmts example_ops
      [S_set "A" (V_const (E_var "B")); S_set "B" (V_number 1)] []
    = Raise err.
Proof. apply undefined_reference_fails; reflexivity. Defined.

Lemma eval_value_frame_witness :
  eval_value example_ops (V_const (E_PLUS (E_var "A") (E_num 1)))
    [("A", VInt 1); ("B", VInt 2)]
  = eval_value example_ops (V_const (E_PLUS (E_var "A") (E_num 1)))
      [("B", VList []); ("A", VInt 1)].
Proof.
  apply eval_value_frame; intros name [<-|[]]; reflexivity.
Defined.

Lemma table_keys_in_first_declaration_order_witness :
  map fst [("B", @VInt (Z * Z) 3); ("A", VInt 2)]
  = first_occurrences [] ["B"; "A"; "B"]
  /\ NoDup (map fst [("B", @VInt (Z * Z) 3); ("A", VInt 2)])
  /\ length (map (toml_line example_ops) [("B", VInt 3); ("A", VInt 2)]) <= 3.
Proof.
  apply (table_keys_in_first_declaration_order example_ops
           [S_set "B" (V_number 1); S_set "A" (V_number 2);
            S_set "B" (V_number 3)]).
  reflexivity.
Defined.

Section PipelineProperties.

Context {F : Type} (ops : float_ops F).

Local Open Scope string_scope.

Lemma main_translate (text : string) :
  main ops text
  = match translate ops text with
    | None => None
    | Some (Ok consts) => Some (to_toml ops consts)
    | Some (Raise e) => Some (error_text e)
    end.
Proof.
  unfold main, translate, evaluate.
  destruct (lex text) as [[tokens|e]|]; try reflexivity.
  destruct (Parser.parse tokens) as [[stmts|e]|]; try reflexivity.
  now destruct (run_stmts ops stmts []).
Qed.

Lemma translate_total (text : string) : exists r, translate ops text = Some r.
Proof.
  unfold translate.
  destruct (lex_total text) as [[tokens|e] ->]; [|now eexists].
  destruct (parse_total tokens) as [[stmts|e] ->]; now eexists.
Qed.

(** the keys of the table of a program are names of the syntax tree *)
Lemma translate_keys (text : string) (consts : dict) :
  translate ops text = Some (Ok consts) ->
  Forall (fun kv => name_ok (fst kv) = true) consts.
Proof.
  unfold translate.
  destruct (lex text) as [[tokens|e]|] eqn:El; try discriminate.
  destruct (Parser.parse tokens) as [[stmts|e]|] eqn:Ep; try discriminate.
  intros [= H].
  pose proof (parse_names _ _ (lex_wf _ _ El) Ep) as Hn.
  rewrite forallb_forall in Hn.
  apply Forall_forall; intros [k v] Hkv; cbn [fst].
  destruct (run_stmts_names ops _ _ _ k H) as [[]|Hk].
  { apply in_map_iff; now exists (k, v). }
  apply in_map_iff in Hk as (st & <- & Hst).
  specialize (Hn st Hst); unfold stmt_names_ok in Hn.
  now apply andb_true_iff in Hn as [Hn _].
Qed.

Lemma prefix_append (s t : string) : String.prefix s (s ++ t) = true.
Proof.
  induction s as [|c s IH]; cbn [append String.prefix]; [now destruct t|].
  destruct (ascii_dec c c) as [_|Hc]; [exact IH | now elim Hc].
Qed.

Lemma lower_not_error (k rest : string) :
  name_ok k = true ->
  String.prefix "ERROR = " (Py.lower k ++ rest) = false.
Proof.
  unfold name_ok; intros H; apply andb_true_iff in H as [Hne Hall].
  destruct k as [|c k]; [discriminate Hne|].
  cbn [all_chars] in Hall; apply andb_true_iff in Hall as [Hc _].
  destruct c as [[] [] [] [] [] [] [] []]; try discriminate Hc; reflexivity.
Qed.

Lemma to_toml_not_error (consts : @dict F) :
  Forall (fun kv => name_ok (fst kv) = true) consts ->
  String.prefix "ERROR = " (to_toml ops consts) = false.
Proof.
  rewrite to_toml_lines; intros H.
  destruct H as [|[k v] consts Hk _]; [reflexivity|].
  cbn [map]; rewrite join_cons; unfold toml_line at 1; cbn [fst snd] in *.
  rewrite !append_assoc; now apply lower_not_error.
Qed.

(** *** The empty output *)

Lemma run_stmts_nonempty (stmts : list stmt) (d consts : dict) :
  run_stmts ops stmts d = Ok consts -> stmts <> [] -> consts <> [].
Proof.
  destruct stmts as [|[name val] stmts]; [now intros _ H|].
  cbn [run_stmts]; intros H _.
  apply bind_ok in H as (v & _ & H).
  apply run_stmts_keys in H as [ext H].
  destruct consts; [|discriminate].
  destruct d as [|[k w] d]; cbn in H; [discriminate H|].
  destruct (String.eqb k name); discriminate H.
Qed.

Lemma to_toml_nonempty (consts : @dict F) :
  to_toml ops consts = "" -> consts = [].
Proof.
  rewrite to_toml_lines; destruct consts as [|[k v] consts]; [reflexivity|].
  cbn [map]; rewrite join_cons; unfold toml_line at 1; cbn [fst snd].
  rewrite !append_assoc; intros H.
  apply (f_equal String.length) in H.
  rewrite !length_append in H; cbn [String.length] in H; lia.
Qed.

(** X11.  The output is empty exactly when the text has no token, that is,
    when it holds nothing but whitespace and comments. *)
Theorem empty_output (text : string) :
  main ops text = Some "" <-> lex text = Some (Ok []).
Proof.
  unfold main, evaluate; split.
  - destruct (lex text) as [[tokens|e]|] eqn:El; try discriminate.
    destruct (Parser.parse tokens) as [[stmts|e]|] eqn:Ep; try discriminate.
    destruct (run_stmts ops stmts []) as [consts|e] eqn:Er; try discriminate.
    intros [= H]; apply to_toml_nonempty in H; subst consts.
    destruct stmts as [|st stmts];
      [|now elim (run_stmts_nonempty _ _ _ Er)].
    apply parse_sound in Ep; inversion Ep; subst; reflexivity.
  - intros ->; reflexivity.
Qed.

(** *** The lines of the output *)

Lemma split_single_line (l : string) :
  single_line l = true -> split_lines l = [l].
Proof.
  unfold single_line; induction l as [|c l IH]; [reflexivity|].
  cbn [all_chars split_lines]; intros H.
  apply andb_true_iff in H as [Hc Hl]; unfold Py.is_dot in Hc.
  destruct (Ascii.eqb c Py.newline); [discriminate Hc|].
  now rewrite (IH Hl).
Qed.

Lemma split_line_break (l rest : string) :
  single_line l = true ->
  split_lines (l ++ line_break ++ rest) = l :: split_lines rest.
Proof.
  unfold single_line; induction l as [|c l IH]; [reflexivity|].
  cbn [all_chars split_lines append]; intros H.
  apply andb_true_iff in H as [Hc Hl]; unfold Py.is_dot in Hc.
  destruct (Ascii.eqb c Py.newline); [discriminate Hc|].
  now rewrite (IH Hl).
Qed.

Lemma split_join (lines : list string) :
  Forall (fun l => single_line l = true) lines -> lines <> [] ->
  split_lines (Py.join line_break lines) = lines.
Proof.
  induction 1 as [|l lines Hl Hls IH]; [now intros H|]; intros _.
  rewrite join_cons; destruct lines as [|l' lines].
  - rewrite append_nil_r; now apply split_single_line.
  - rewrite (split_line_break _ _ Hl), IH; [reflexivity | discriminate].
Qed.


(** *** Programs printed from their tokens *)


End PipelineProperties.



(** *** Programs without [pow] *)

Section NoPow.

Context {F : Type} (ops1 ops2 : float_ops F).

Lemma eval_expr_no_pow (e : expr) (consts : dict) :
  table_ok consts -> expr_no_pow e = true ->
  eval_expr ops1 e consts = eval_expr ops2 e consts
  /\ forall v, eval_expr ops1 e consts = Ok v -> float_free v = true.
Proof.
  intros Hok.
  induction e as [n|name|l IHl r IHr|l IHl r IHr|l IHl r IHr|a IHa];
    cbn [eval_expr expr_no_pow]; intros H.
  - split; [reflexivity | now intros v [= <-]].
  - split; [reflexivity|].
    destruct (dict_get consts name) eqn:E; [|discriminate].
    intros v [= <-]; exact (table_ok_get _ _ _ Hok E).
  - apply andb_true_iff in H as [Hl Hr].
    destruct (IHl Hl) as [<- Fl], (IHr Hr) as [<- Fr].
    destruct (eval_expr ops1 l consts) as [x|]; [|split; [easy|discriminate]].
    destruct (eval_expr ops1 r consts) as [y|]; [|split; [easy|discriminate]].
    specialize (Fl x eq_refl); specialize (Fr y eq_refl); cbn [bind].
    destruct x, y; try discriminate; cbn [py_add];
      (split; [reflexivity|]); try discriminate.
    + now intros v [= <-].
    + intros v [= <-]; cbn [float_free] in *.
      now rewrite forallb_app, Fl, Fr.
  - apply andb_true_iff in H as [Hl Hr].
    destruct (IHl Hl) as [<- Fl], (IHr Hr) as [<- Fr].
    destruct (eval_expr ops1 l consts) as [x|]; [|split; [easy|discriminate]].
    destruct (eval_expr ops1 r consts) as [y|]; [|split; [easy|discriminate]].
    specialize (Fl x eq_refl); specialize (Fr y eq_refl); cbn [bind].
    destruct x, y; try discriminate; cbn [py_sub];
      (split; [reflexivity|]); try discriminate.
    now intros v [= <-].
  - discriminate H.
  - destruct (IHa H) as [<- Fa].
    destruct (eval_expr ops1 a consts) as [x|]; [|split; [easy|discriminate]].
    specialize (Fa x eq_refl); cbn [bind].
    destruct x; try discriminate; cbn [py_abs];
      (split; [reflexivity|]); try discriminate.
    now intros v [= <-].
Qed.

Lemma eval_value_no_pow (v : vnode) (consts : dict) :
  table_ok consts -> vnode_no_pow v = true ->
  eval_value ops1 v consts = eval_value ops2 v consts
  /\ forall r, eval_value ops1 v consts = Ok r -> float_free r = true.
Proof.
  intros Hok.
  induction v as [n|items IH|e] using vnode_induction;
    cbn [eval_value vnode_no_pow]; intros H.
  - split; [reflexivity | now intros v [= <-]].
  - assert (Hc : comprehension (fun x => eval_value ops1 x consts) items
                 = comprehension (fun x => eval_value ops2 x consts) items
                 /\ forall l,
                      comprehension (fun x => eval_value ops1 x consts) items
                      = Ok l -> forallb float_free l = true).
    { induction items as [|x items IHitems]; cbn [comprehension].
      - split; [reflexivity | now intros l [= <-]].
      - inversion IH as [|? ? IHx IHrest]; subst.
        cbn [forallb] in H; apply andb_true_iff in H as [Hx Hitems].
        destruct (IHx Hx) as [<- Fx].
        destruct (IHitems IHrest Hitems) as [<- Fitems].
        split; [reflexivity|].
        intros l Hl; apply bind_ok in Hl as (r & Hr & Hl).
        apply bind_ok in Hl as (rs & Hrs & Hl); injection Hl as <-.
        cbn [forallb]; now rewrite (Fx _ Hr), (Fitems _ Hrs). }
    destruct Hc as [<- Fc]; split; [reflexivity|].
    intros r Hr; apply bind_ok in Hr as (l & Hl & Hr); injection Hr as <-.
    exact (Fc _ Hl).
  - now apply eval_expr_no_pow.
Qed.

Lemma run_stmts_no_pow (stmts : list stmt) (d : dict) :
  table_ok d ->
  forallb (fun st => vnode_no_pow (stmt_val st)) stmts = true ->
  run_stmts ops1 stmts d = run_stmts ops2 stmts d
  /\ forall consts, run_stmts ops1 stmts d = Ok consts -> table_ok consts.
Proof.
  revert d; induction stmts as [|[name val] stmts IH]; intros d Hok H;
    cbn [run_stmts forallb stmt_val] in *.
  - split; [reflexivity | now intros consts [= <-]].
  - apply andb_true_iff in H as [Hval Hstmts].
    destruct (eval_value_no_pow val d Hok Hval) as [<- Fv].
    destruct (eval_value ops1 val d) as [v|e]; cbn [bind];
      [|split; [reflexivity | discriminate]].
    apply IH; [|exact Hstmts].
    apply table_ok_set; [exact Hok | now apply Fv].
Qed.

(** X13.  Floats come from [pow] only: a program without [pow] never
    consults the arithmetic of the interpreter on floats (its result is the
    same whatever that arithmetic is), and the table that it builds holds
    ints and lists of them only. *)
Theorem no_pow_no_float (stmts : list stmt) :
  forallb (fun st => vnode_no_pow (stmt_val st)) stmts = true ->
  run_stmts ops1 stmts [] = run_stmts ops2 stmts []
  /\ forall consts, run_stmts ops1 stmts [] = Ok consts -> table_ok consts.
Proof. apply run_stmts_no_pow; reflexivity. Qed.

End NoPow.

Lemma no_pow_no_float_witness :
  run_stmts example_ops
    [S_set "A" (V_number 1);
     S_set "B" (V_const (E_MINUS (E_var "A") (E_num 3)))] []
  = run_stmts example_ops
      [S_set "A" (V_number 1);
       S_set "B" (V_const (E_MINUS (E_var "A") (E_num 3)))] []
  /\ forall consts,
       run_stmts example_ops
         [S_set "A" (V_number 1);
          S_set "B" (V_const (E_MINUS (E_var "A") (E_num 3)))] []
       = Ok consts -> table_ok consts.
Proof. apply no_pow_no_float; reflexivity. Defined.

Section Numbers.

Local Open Scope Z_scope.

Lemma digit_val_range (c : ascii) :
  Py.is_digit c = true -> 0 <= Py.digit_val c <= 9.
Proof.
  unfold Py.is_digit, Py.digit_val; intros H.
  apply andb_true_iff in H as [H1 H2].
  apply Nat.leb_le in H1, H2; lia.
Qed.

Lemma int_digits_nonneg (s : string) (acc : Z) :
  all_chars Py.is_digit s = true -> 0 <= acc -> 0 <= Py.int_digits acc s.
Proof.
  revert acc; induction s as [|c s IH]; intros acc H Hacc;
    cbn [Py.int_digits all_chars] in *; [exact Hacc|].
  apply andb_true_iff in H as [Hc Hs].
  apply IH; [exact Hs|]. pose proof (digit_val_range _ Hc); lia.
Qed.

Lemma number_token_nonneg (tok : Token) :
  token_wf tok -> type tok = NUMBER -> (0 <=? Py.int (value tok)) = true.
Proof.
  unfold token_wf; intros H Ht; rewrite Ht in H; destruct H as [_ H].
  apply Z.leb_le, int_digits_nonneg; [exact H | lia].
Qed.

End Numbers.

Section TreeLiterals.

Local Open Scope list_scope.

Ltac split_forall :=
  repeat match goal with
         | H : Forall _ (_ :: _) |- _ => apply Forall_cons_iff in H as [? ?]
         | H : Forall _ (_ ++ _) |- _ => apply Forall_app in H as [? ?]
         end.

Ltac lits_done :=
  repeat match goal with
         | H : ?P -> _ = true, H' : ?P |- _ => specialize (H H')
         end;
  repeat match goal with
         | H : _ = true |- _ => rewrite H
         end;
  try reflexivity.

Lemma G_term_expr_lits :
  (forall ts e, G_term ts e -> Forall token_wf ts -> expr_lits_ok e = true)
  /\ (forall ts e, G_expr ts e -> Forall token_wf ts ->
                   expr_lits_ok e = true).
Proof.
  apply G_term_expr_ind; intros; cbn [expr_lits_ok]; split_forall;
    lits_done; try now apply number_token_nonneg.
Qed.

Lemma G_value_values_lits :
  (forall ts v, G_value ts v -> Forall token_wf ts -> vnode_lits_ok v = true)
  /\ (forall ts items, G_values ts items -> Forall token_wf ts ->
                       forallb vnode_lits_ok items = true).
Proof.
  apply G_value_values_ind; intros; cbn [vnode_lits_ok forallb];
    split_forall; lits_done; try now apply number_token_nonneg.
  now apply (proj2 G_term_expr_lits ts).
Qed.

Lemma G_program_lits ts stmts :
  G_program ts stmts -> Forall token_wf ts ->
  forallb (fun st => vnode_lits_ok (stmt_val st)) stmts = true.
Proof.
  induction 1 as [|ts1 st ts2 stmts Hst _ IH]; intros Hwf; [reflexivity|].
  split_forall; cbn [forallb]; rewrite IH by assumption.
  destruct Hst; split_forall; cbn [stmt_val].
  now rewrite (proj1 G_value_values_lits ts).
Qed.

(** X14.  What the syntax tree of a program holds: every name in it (a
    name declared, a name referred to) is a non-empty word of upper-case
    letters, and no number literal is negative; a negative number only arises
    from a subtraction. *)
Theorem syntax_tree_of_program (text : string) (tokens : list Token)
  (stmts : list stmt) :
  lex text = Some (Ok tokens) ->
  Parser.parse tokens = Some (Ok stmts) ->
  forallb stmt_names_ok stmts = true
  /\ forallb (fun st => vnode_lits_ok (stmt_val st)) stmts = true.
Proof.
  intros Hl Hp; pose proof (lex_wf _ _ Hl) as Hwf; split.
  - exact (parse_names _ _ Hwf Hp).
  - exact (G_program_lits _ _ (parse_sound _ _ Hp) Hwf).
Qed.

End TreeLiterals.

Lemma syntax_tree_of_program_witness :
  forallb stmt_names_ok
    [S_set "A" (V_const (E_MINUS (E_MINUS (E_num 0) (E_num 1)) (E_var "B")))]
  = true
  /\ forallb (fun st => vnode_lits_ok (stmt_val st))
       [S_set "A" (V_const (E_MINUS (E_MINUS (E_num 0) (E_num 1))
                              (E_var "B")))]
     = true.
Proof.
  apply (syntax_tree_of_program "set A = ^{ -1 - B };"
           [mkToken SET "set"; mkToken IDENT "A"; mkToken EQUAL "=";
            mkToken CARET "^"; mkToken LBRACE "{"; mkToken MINUS "-";
            mkToken NUMBER "1"; mkToken MINUS "-"; mkToken IDENT "B";
            mkToken RBRACE "}"; mkToken SEMICOLON ";"]);
    vm_compute; reflexivity.
Defined.

Section NumberRoundTrip.

Context {F : Type} (ops : float_ops F).

Local Open Scope string_scope.

Lemma int_digits_acc (d : uint) (p : positive) :
  Py.int_digits (Zpos p) (NilEmpty.string_of_uint d)
  = Zpos (Pos.of_uint_acc d p).
Proof.
  revert p; induction d; intros p; cbn [NilEmpty.string_of_uint
    Py.int_digits Pos.of_uint_acc]; try reflexivity;
    rewrite <- IHd; f_equal; unfold Py.digit_val;
    match goal with
    | |- context [Z.of_nat (nat_of_ascii ?c)] =>
        let n := eval vm_compute in (Z.of_nat (nat_of_ascii c)) in
        change (Z.of_nat (nat_of_ascii c)) with n
    end; lia.
Qed.

Lemma int_digits_uint (d : uint) :
  Py.int_digits 0 (NilEmpty.string_of_uint d) = Z.of_N (Pos.of_uint d).
Proof.
  induction d; cbn [NilEmpty.string_of_uint Py.int_digits Pos.of_uint];
    try reflexivity; try exact IHd;
    cbn [Z.of_N]; rewrite <- int_digits_acc; f_equal.
Qed.

Lemma uint_digits (d : uint) :
  all_chars Py.is_digit (NilEmpty.string_of_uint d) = true.
Proof. induction d; simpl; auto. Qed.

Lemma str_of_int_pos (p : positive) :
  Py.str_of_int (Zpos p) = NilEmpty.string_of_uint (Pos.to_uint p)
  /\ Pos.to_uint p <> Nil.
Proof.
  assert (H : Pos.to_uint p <> Nil)
    by (intros H; now apply DecimalPos.Unsigned.to_uint_nonnil in H).
  split; [|exact H].
  unfold Py.str_of_int, NilZero.string_of_int, NilZero.string_of_uint.
  cbn [Z.to_int]; now destruct (Pos.to_uint p).
Qed.

Lemma int_str_of_int (z : Z) : (0 <= z)%Z -> Py.int (Py.str_of_int z) = z.
Proof.
  intros Hz; destruct z as [|p|p]; [reflexivity | | lia].
  destruct (str_of_int_pos p) as [-> _]; unfold Py.int.
  rewrite int_digits_uint, DecimalPos.Unsigned.of_to; reflexivity.
Qed.

Lemma str_of_int_number (z : Z) :
  (0 <= z)%Z -> lexeme_ok NUMBER (Py.str_of_int z) = true.
Proof.
  intros Hz; unfold lexeme_ok; cbn [pattern_of TOKEN_REGEX tok_type_eqb].
  apply full_match_plus; destruct z as [|p|p]; [now split | | lia].
  destruct (str_of_int_pos p) as [-> Hnn]; split; [|apply uint_digits].
  destruct (Pos.to_uint p); try discriminate; now elim Hnn.
Qed.

(** X15.  A number that the serializer writes can be read again: for an
    int that is not negative, the text that [to_toml] writes for it is lexed
    as one NUMBER token, and the conversion that the parser applies to the
    text of a NUMBER token gives the int back. *)
Theorem number_round_trip (z : Z) :
  (0 <= z)%Z ->
  lex (py_str ops (VInt z))
  = Some (Ok [mkToken NUMBER (py_str ops (VInt z))])
  /\ forall fuel,
       Parser.parse_value (S fuel) [mkToken NUMBER (py_str ops (VInt z))]
       = Some (Ok (V_number z, [])).
Proof.
  intros Hz; unfold py_str; cbn [py_repr]; split.
  - assert (Hok : forallb token_ok [mkToken NUMBER (Py.str_of_int z)] = true).
    { cbn [forallb]; unfold token_ok; cbn [type value kept].
      now rewrite (str_of_int_number _ Hz). }
    destruct (lex_loop_printed _ Hok [] 0) as (fuel & pos' & E).
    cbn [lex_loop List.app map Py.join value] in E.
    exact (lex_from_loop _ _ _ E).
  - intros fuel; unfold Parser.parse_value;
      cbn [Parser.methods_at Parser.unfold_methods Parser.m_value].
    unfold Parser.parse_value_body; rewrite mbind_peek.
    cbn [hd_error type tok_type_eqb].
    rewrite (mbind_eat NUMBER) by reflexivity.
    cbn [value]; unfold Parser.ret; now rewrite (int_str_of_int _ Hz).
Qed.

End NumberRoundTrip.

Lemma number_round_trip_witness :
  lex (py_str example_ops (VInt 42))
  = Some (Ok [mkToken NUMBER (py_str example_ops (VInt 42))])
  /\ forall fuel,
       Parser.parse_value (S fuel)
         [mkToken NUMBER (py_str example_ops (VInt 42))]
       = Some (Ok (V_number 42, [])).
Proof. apply number_round_trip; lia. Defined.

Section LexerLines.

Local Open Scope string_scope.

Variable x : string.

Lemma match_lit_continued_none (lit u : string) :
  all_chars Py.is_dot lit = true ->
  Py.match_lit lit u = None ->
  Py.match_lit lit (u ++ String Py.newline x) = None.
Proof.
  revert u; induction lit as [|c lit IH]; intros u Hlit H;
    cbn [Py.match_lit all_chars] in *; [discriminate H|].
  apply andb_true_iff in Hlit as [Hc Hlit].
  destruct u as [|d u]; cbn [append].
  - unfold Py.is_dot in Hc; now destruct (Ascii.eqb c Py.newline).
  - destruct (Ascii.eqb c d); [now apply IH | reflexivity].
Qed.

Lemma match_lit_continued (lit u rest : string) :
  Py.match_lit lit u = Some rest ->
  Py.match_lit lit (u ++ String Py.newline x)
  = Some (rest ++ String Py.newline x).
Proof.
  revert u; induction lit as [|c lit IH]; intros u H;
    cbn [Py.match_lit] in *; [now injection H as ->|].
  destruct u as [|d u]; [discriminate H|]; cbn [append].
  destruct (Ascii.eqb c d); [now apply IH | discriminate H].
Qed.

Lemma span_continued (cls : ascii -> bool) (u : string) :
  cls Py.newline = false ->
  Py.span cls (u ++ String Py.newline x)
  = (fst (Py.span cls u), snd (Py.span cls u) ++ String Py.newline x).
Proof.
  intros Hnl; induction u as [|c u IH]; cbn [append Py.span].
  - now rewrite Hnl.
  - destruct (cls c); [|reflexivity].
    rewrite IH; now destruct (Py.span cls u).
Qed.

Lemma span_ws_continued (u : string) :
  Py.span Py.is_ws (u ++ String Py.newline x)
  = match snd (Py.span Py.is_ws u) with
    | EmptyString =>
        (u ++ String Py.newline (fst (Py.span Py.is_ws x)),
         snd (Py.span Py.is_ws x))
    | rest => (fst (Py.span Py.is_ws u), rest ++ String Py.newline x)
    end.
Proof.
  induction u as [|c u IH]; cbn [append Py.span].
  - change (Py.is_ws Py.newline) with true; cbn iota.
    now destruct (Py.span Py.is_ws x).
  - destruct (Py.is_ws c); [|reflexivity].
    rewrite IH; destruct (Py.span Py.is_ws u) as [m [|d rest]];
      cbn [fst snd]; reflexivity.
Qed.

Lemma continues_lit (t : tok_type) (lit : string) :
  all_chars Py.is_dot lit = true -> continues x (t, Py.Lit lit).
Proof.
  intros Hlit u _; cbn [snd Py.re_match].
  destruct (Py.match_lit lit u) as [rest|] eqn:E.
  - left; now rewrite (match_lit_continued _ _ _ E).
  - now rewrite (match_lit_continued_none _ _ Hlit E).
Qed.

Lemma continues_plus (t : tok_type) (cls : ascii -> bool) :
  cls Py.newline = false -> continues x (t, Py.Plus cls).
Proof.
  intros Hnl u _; cbn [snd Py.re_match].
  rewrite (span_continued _ _ Hnl).
  destruct (Py.span cls u) as [[|c m] rest]; cbn [fst snd];
    [reflexivity | now left].
Qed.

Lemma continues_comment :
  continues x (COMMENT, Py.Cat (Py.Lit "*") (Py.Star Py.is_dot)).
Proof.
  intros u _; cbn [snd Py.re_match].
  destruct (Py.match_lit "*" u) as [rest|] eqn:E.
  - rewrite (match_lit_continued _ _ _ E).
    rewrite (span_continued _ _ eq_refl).
    destruct (Py.span Py.is_dot rest) as [m rest']; cbn [fst snd]; now left.
  - now rewrite (match_lit_continued_none "*" u eq_refl E).
Qed.

Lemma continues_ws : continues x (WS, Py.Plus Py.is_ws).
Proof.
  intros u Hu; cbn [fst snd Py.re_match].
  rewrite span_ws_continued.
  destruct (Py.span Py.is_ws u) as [m rest] eqn:E; cbn [fst snd].
  destruct rest as [|d rest].
  - pose proof (span_append Py.is_ws u) as Happ; rewrite E in Happ.
    cbn [fst snd] in Happ; rewrite append_nil_r in Happ; subst m.
    destruct u as [|c u]; [now elim Hu|]; cbn [append].
    right; repeat split; now eexists.
  - destruct m; [reflexivity | now left].
Qed.

Lemma TOKEN_REGEX_continues : Forall (continues x) TOKEN_REGEX.
Proof.
  unfold TOKEN_REGEX;
    repeat (constructor;
            [first [ apply continues_comment
                   | apply continues_ws
                   | apply continues_plus; reflexivity
                   | apply continues_lit; reflexivity ]|]).
  constructor.
Qed.

Lemma first_match_continued (table : list (tok_type * Py.regex))
  (u : string) (t : tok_type) (v rest : string) :
  Forall (continues x) table -> u <> "" ->
  first_match table u = Some (t, v, rest) ->
  first_match table (u ++ String Py.newline x)
  = Some (t, v, rest ++ String Py.newline x)
  \/ (t = WS /\ rest = ""
      /\ exists v',
           first_match table (u ++ String Py.newline x)
           = Some (WS, v', snd (Py.span Py.is_ws x))).
Proof.
  intros Htable Hu; induction Htable as [|[t0 r] table Hr _ IH];
    cbn [first_match]; [discriminate|].
  specialize (Hr u Hu); cbn [fst snd] in Hr.
  destruct (Py.re_match r u) as [[v0 rest0]|].
  - intros [= <- <- <-].
    destruct Hr as [->|(-> & -> & v' & ->)]; [now left|].
    right; repeat split; now exists v'.
  - rewrite Hr; exact IH.
Qed.

(** the tokens found do not depend on the position, and are put after those
    found before *)
Lemma lex_loop_acc (fuel pos : nat) (s : string) (acc out : list Token) :
  lex_loop fuel pos s acc = Some (Ok out) ->
  exists found,
    out = (acc ++ found)%list
    /\ forall pos' acc',
         lex_loop fuel pos' s acc' = Some (Ok (acc' ++ found)%list).
Proof.
  revert pos s acc; induction fuel as [|fuel IH]; intros pos s acc H.
  - destruct s; [|discriminate H]. injection H as <-.
    exists []; split; [now rewrite app_nil_r|].
    intros pos' acc'; cbn; now rewrite app_nil_r.
  - destruct s as [|c s].
    { injection H as <-. exists []; split; [now rewrite app_nil_r|].
      intros pos' acc'; cbn; now rewrite app_nil_r. }
    cbn [lex_loop] in H |- *.
    destruct (first_match TOKEN_REGEX (String c s)) as [[[t v] rest]|];
      [|discriminate H].
    apply IH in H as (found & -> & Hfound).
    destruct (kept t) eqn:Ek.
    + exists (mkToken t v :: found); split.
      { destruct t; try discriminate Ek; now rewrite <- app_assoc. }
      intros pos' acc'; rewrite Hfound.
      destruct t; try discriminate Ek; now rewrite <- app_assoc.
    + exists found; split; [now destruct t|].
      intros pos' acc'; rewrite Hfound; now destruct t.
Qed.

Lemma first_match_ws (c : ascii) (s : string) :
  Py.is_ws c = true ->
  first_match TOKEN_REGEX (String c s)
  = Some (WS, String c (fst (Py.span Py.is_ws s)), snd (Py.span Py.is_ws s)).
Proof.
  intros H; apply is_ws_cases in H as [->|[->| ->]];
    cbn; now destruct (Py.span Py.is_ws s).
Qed.

(** whitespace at the start of a text can be left out *)
Lemma lex_loop_skip_ws (fuel pos : nat) (s : string) (acc out : list Token) :
  lex_loop fuel pos s acc = Some (Ok out) ->
  lex_loop fuel pos (snd (Py.span Py.is_ws s)) acc = Some (Ok out).
Proof.
  intros H; destruct s as [|c s]; [exact H|]; cbn [Py.span].
  destruct (Py.is_ws c) eqn:Ec; [|exact H].
  destruct fuel as [|fuel]; [discriminate H|].
  cbn [lex_loop] in H; rewrite (first_match_ws _ _ Ec) in H.
  destruct (Py.span Py.is_ws s) as [m rest]; cbn [fst snd] in *.
  apply lex_loop_acc in H as (found & -> & Hfound).
  apply (lex_loop_more_fuel fuel); [apply Hfound | lia].
Qed.

Lemma lex_loop_continued (fuel pos : nat) (u : string)
  (acc out out2 : list Token) (fuel2 pos2 : nat) :
  lex_loop fuel pos u acc = Some (Ok out) ->
  lex_loop fuel2 pos2 x out = Some (Ok out2) ->
  exists fuel',
    lex_loop fuel' pos (u ++ String Py.newline x) acc = Some (Ok out2).
Proof.
  intros H H2; apply lex_loop_skip_ws in H2.
  apply lex_loop_acc in H2 as (found & -> & Hfound).
  revert pos u acc H; induction fuel as [|fuel IH]; intros pos u acc H.
  - destruct u; [|discriminate H]. injection H as <-.
    exists (S fuel2); cbn [append lex_loop].
    rewrite (first_match_ws Py.newline x eq_refl); apply Hfound.
  - destruct u as [|c u].
    { injection H as <-. exists (S fuel2); cbn [append lex_loop].
      rewrite (first_match_ws Py.newline x eq_refl); apply Hfound. }
    cbn [lex_loop] in H.
    destruct (first_match TOKEN_REGEX (String c u)) as [[[t v] rest]|] eqn:E;
      [|discriminate H].
    apply (first_match_continued _ _ _ _ _ TOKEN_REGEX_continues) in E;
      [|discriminate].
    destruct E as [E|(-> & -> & v' & E)].
    + apply IH in H as [fuel' H].
      exists (S fuel'); cbn [append lex_loop] in E |- *; now rewrite E.
    + destruct fuel; injection H as <-;
        exists (S fuel2); cbn [append lex_loop] in E |- *; rewrite E;
        apply Hfound.
Qed.

End LexerLines.

Section ProgramLines.

Context {F : Type} (ops : float_ops F).

Local Open Scope list_scope.

Lemma lex_loop_lines (text1 text2 : string) (tokens1 tokens2 : list Token) :
  lex text1 = Some (Ok tokens1) -> lex text2 = Some (Ok tokens2) ->
  exists fuel,
    lex_loop fuel 0 (text1 ++ line_break ++ text2)%string []
    = Some (Ok (tokens1 ++ tokens2)).
Proof.
  unfold lex; intros H1 H2.
  apply lex_loop_acc in H2 as (found & -> & Hfound); cbn [List.app].
  specialize (Hfound 0 tokens1).
  exact (lex_loop_continued _ _ _ _ _ _ _ _ _ H1 Hfound).
Qed.

(** X16.  Two texts that lex can be put on lines of their own: the tokens
    of the first text, a line feed, and the second text are the tokens of the
    first followed by those of the second.  (A line feed is needed: a comment
    at the end of the first text runs to the end of its line.) *)
Theorem lex_of_lines (text1 text2 : string) (tokens1 tokens2 : list Token) :
  lex text1 = Some (Ok tokens1) -> lex text2 = Some (Ok tokens2) ->
  lex (text1 ++ line_break ++ text2)%string = Some (Ok (tokens1 ++ tokens2)).
Proof.
  intros H1 H2.
  destruct (lex_loop_lines _ _ _ _ H1 H2) as [fuel H].
  exact (lex_from_loop _ _ _ H).
Qed.

Lemma G_program_app ts1 stmts1 ts2 stmts2 :
  G_program ts1 stmts1 -> G_program ts2 stmts2 ->
  G_program (ts1 ++ ts2) (stmts1 ++ stmts2).
Proof.
  induction 1 as [|ts st ts' stmts Hst _ IH]; intros H2; [exact H2|].
  rewrite <- app_assoc; cbn [List.app]; constructor; [exact Hst | now apply IH].
Qed.


End ProgramLines.

Lemma lex_of_lines_witness :
  lex ("set A = 1; * one" ++ line_break ++ "set B = 2;")
  = Some (Ok ([mkToken SET "set"; mkToken IDENT "A"; mkToken EQUAL "=";
               mkToken NUMBER "1"; mkToken SEMICOLON ";"]
              ++ [mkToken SET "set"; mkToken IDENT "B"; mkToken EQUAL "=";
                  mkToken NUMBER "2"; mkToken SEMICOLON ";"])%list).
Proof. apply lex_of_lines; vm_compute; reflexivity. Defined.


(* ================================================================= *)
(** * The program under the limit on conversions *)

(** ** Serializer *)

Section LimitedSerializer.

Context {F : Type} (ops : float_ops F).

Lemma comprehension_cases {A B} (f : A -> result B) (g : A -> B)
  (p : A -> bool) (e : exn) (items : list A) :
  Forall (fun x => f x = if p x then Ok (g x) else Raise e) items ->
  comprehension f items
  = if forallb p items then Ok (map g items) else Raise e.
Proof.
  induction 1 as [|x items Hx _ IH]; [reflexivity|].
  cbn [comprehension forallb map]; rewrite Hx, IH.
  destruct (p x); [|reflexivity].
  now destruct (forallb p items).
Qed.

(** under the limit, [repr] is the [repr] without limit of a value within
    the limit, and raises on any other *)
Lemma repr_cases (v : pyval F) :
  Limited.repr ops v
  = if value_within_limit v then Ok (py_repr ops v)
    else Raise Limited.str_limit_error.
Proof.
  induction v as [z|l IH|f] using pyval_induction; [reflexivity| |reflexivity].
  cbn [Limited.repr value_within_limit py_repr].
  rewrite (comprehension_cases _ (py_repr ops) value_within_limit
             Limited.str_limit_error l IH).
  destruct (forallb value_within_limit l); [|reflexivity].
  cbn [bind]; now rewrite (proj1 (repr_items_join _ l)).
Qed.

Lemma to_toml_cases (consts : @dict F) :
  Limited.to_toml ops consts
  = if table_within_limit consts then Ok (to_toml ops consts)
    else Raise Limited.str_limit_error.
Proof.
  unfold Limited.to_toml, table_within_limit.
  rewrite (comprehension_cases _ (toml_line ops)
             (fun kv => value_within_limit (snd kv))
             Limited.str_limit_error).
  - destruct (forallb _ consts); [|reflexivity].
    cbn [bind]; now rewrite to_toml_lines.
  - apply Forall_forall; intros [k v] _; unfold Limited.toml_line.
    cbn [fst snd]; rewrite repr_cases.
    now destruct (value_within_limit v).
Qed.

End LimitedSerializer.

(** ** Parser *)

Section LimitedParser.
Import Parser.

Local Open Scope list_scope.

Lemma literals_app (ts1 ts2 : list Token) :
  literals_within_limit (ts1 ++ ts2)
  = literals_within_limit ts1 && literals_within_limit ts2.
Proof. apply forallb_app. Qed.

Lemma refines_ret {A} (a : A) : refines (ret a) (ret a).
Proof. intros ts; split; [reflexivity|]; now exists []. Qed.

Lemma refines_raise {A} (e : exn) : refines (@raise A e) (raise e).
Proof. intros ts; now left. Qed.

Lemma refines_peek : refines peek peek.
Proof. intros ts; split; [reflexivity|]; now exists []. Qed.

Lemma refines_out_of_fuel {A} : refines (@out_of_fuel A) out_of_fuel.
Proof. intros ts; reflexivity. Qed.

Lemma refines_eat (t : tok_type) : t <> NUMBER -> refines (eat t) (eat t).
Proof.
  intros Ht [|tok ts]; unfold converted; cbn [eat]; [now left|].
  destruct (tok_type_eqb (type tok) t) eqn:E; [|now left].
  split; [reflexivity|]; exists [tok]; split; [reflexivity|].
  apply tok_type_eqb_eq in E; unfold literals_within_limit; cbn [forallb].
  destruct (tok_type_eqb (type tok) NUMBER) eqn:E'; [|reflexivity].
  apply tok_type_eqb_eq in E'; congruence.
Qed.

(** the conversion of a number literal *)
Lemma refines_number {A} (k : Z -> A) :
  refines (t <- eat NUMBER ;; n <- Limited.lift (Limited.int (value t)) ;;
           ret (k n))
    (t <- eat NUMBER ;; ret (k (Py.int (value t)))).
Proof.
  intros [|tok ts]; unfold converted, mbind; cbn [eat]; [now left|].
  destruct (tok_type_eqb (type tok) NUMBER) eqn:E; [|now left].
  unfold Limited.lift, Limited.int, ret.
  destruct (String.length (value tok) <=? Limited.max_str_digits)%nat eqn:L.
  - split; [reflexivity|]; exists [tok]; split; [reflexivity|].
    unfold literals_within_limit; cbn [forallb]; now rewrite E, L.
  - right; split; [now eexists|].
    unfold literals_within_limit; cbn [forallb]; now rewrite E, L.
Qed.

Lemma refines_bind {A B} (ml m : M A) (fl f : A -> M B) :
  refines ml m -> (forall a, refines (fl a) (f a)) ->
  refines (mbind ml fl) (mbind m f).
Proof.
  intros Hm Hf ts; specialize (Hm ts); unfold converted, mbind in *.
  destruct (ml ts) as [[[a ts1]|e]|].
  - destruct Hm as [-> (pre & -> & Hpre)].
    specialize (Hf a ts1); unfold converted in Hf.
    destruct (fl a ts1) as [[[b ts2]|e]|].
    + destruct Hf as [-> (pre2 & -> & Hpre2)]; split; [reflexivity|].
      exists (pre ++ pre2); rewrite app_assoc; split; [reflexivity|].
      now rewrite literals_app, Hpre, Hpre2.
    + destruct Hf as [->|[He Hl]]; [now left | right; split; [exact He|]].
      now rewrite literals_app, Hl, andb_false_r.
    + exact Hf.
  - destruct Hm as [->|Hm]; [now left | now right].
  - now rewrite Hm.
Qed.

Ltac refine_step HR :=
  match goal with
  | |- refines (ret _) (ret _) => apply refines_ret
  | |- refines (raise _) (raise _) => apply refines_raise
  | |- refines (mbind (eat NUMBER) _) (mbind (eat NUMBER) _) =>
      first [apply (refines_number V_number) | apply (refines_number E_num)]
  | |- refines (mbind (eat _) _) (mbind (eat _) _) =>
      apply refines_bind; [apply refines_eat; discriminate | intros ?]
  | |- refines (mbind peek _) (mbind peek _) =>
      apply refines_bind; [apply refines_peek | intros ?]
  | |- refines (mbind _ _) (mbind _ _) =>
      apply refines_bind; [apply HR | intros ?]
  | |- refines (if ?b then _ else _) (if ?b then _ else _) => destruct b
  | |- refines (match ?x with _ => _ end) (match ?x with _ => _ end) =>
      destruct x
  | |- refines _ _ => solve [apply HR]
  end.

Lemma unfold_refine (PL P : methods) :
  methods_refine PL P ->
  methods_refine (Limited.unfold_methods PL) (unfold_methods P).
Proof.
  intros HR.
  constructor; simpl; intros;
    unfold Limited.parse_value_body, Limited.parse_term_body,
      parse_value_body, parse_list_body, parse_list_loop_body,
      parse_const_expr_body, parse_expr_body, parse_expr_loop_body,
      parse_term_body;
    repeat refine_step HR.
Qed.

Lemma methods_at_refine (n : nat) :
  methods_refine (Limited.methods_at n) (methods_at n).
Proof.
  induction n as [|n IH]; [|now apply unfold_refine].
  constructor; simpl; intros; apply refines_out_of_fuel.
Qed.

Lemma parse_stmt_refine (PL P : methods) :
  methods_refine PL P -> refines (parse_stmt_body PL) (parse_stmt_body P).
Proof. intros HR; unfold parse_stmt_body; repeat refine_step HR. Qed.

Lemma parse_loop_refine (i : nat) (PL P : methods) (stmts : list stmt) :
  methods_refine PL P ->
  refines (parse_loop i PL stmts) (parse_loop i P stmts).
Proof.
  intros HR; revert stmts; induction i as [|i IH]; intros stmts;
    [apply refines_out_of_fuel|].
  cbn [parse_loop]; apply refines_bind; [apply refines_peek|].
  intros [tok|]; [|apply refines_ret].
  apply refines_bind; [now apply parse_stmt_refine|].
  intros st; apply IH.
Qed.

(** the statement loop returns when no token is left *)
Lemma parse_loop_reads_all (i : nat) (P : methods) (stmts r : list stmt)
  ts ts' :
  parse_loop i P stmts ts = Some (Ok (r, ts')) -> ts' = [].
Proof.
  revert stmts ts; induction i as [|i IH]; intros stmts ts; [discriminate|].
  cbn [parse_loop]; unfold mbind at 1, peek.
  destruct ts as [|tok ts]; cbn [hd_error]; [now intros [= _ <-]|].
  unfold mbind.
  destruct (parse_stmt_body P (tok :: ts)) as [[[st ts1]|e]|];
    [apply IH | discriminate..].
Qed.

(** The parser under the limit against the parser with the limit lifted:
    it returns the same tree, and then every number literal is within the
    limit; it fails in the same way, or by a number literal over the
    limit. *)
Lemma parse_refines (tokens : list Token) :
  match Limited.parse tokens with
  | Some (Ok stmts) =>
      parse tokens = Some (Ok stmts) /\ literals_within_limit tokens = true
  | Some (Raise e) =>
      parse tokens = Some (Raise e)
      \/ ((exists digits, e = Limited.int_limit_error digits)
          /\ literals_within_limit tokens = false)
  | None => parse tokens = None
  end.
Proof.
  unfold Limited.parse, Limited.parse_with, parse, parse_with.
  pose proof (parse_loop_refine (S (length tokens)) _ _ []
                (methods_at_refine (enough tokens)) tokens) as H.
  unfold converted in H.
  destruct (parse_loop _ (Limited.methods_at _) [] tokens)
    as [[[stmts ts']|e]|] eqn:E.
  - destruct H as [-> (pre & Hpre & Hlim)]; split; [reflexivity|].
    apply parse_loop_reads_all in E; subst ts'.
    now rewrite app_nil_r in Hpre; subst pre.
  - destruct H as [->|H]; [now left | now right].
  - now rewrite H.
Qed.

Lemma limited_parse_within (tokens : list Token) :
  literals_within_limit tokens = true -> Limited.parse tokens = parse tokens.
Proof.
  intros Hlim; pose proof (parse_refines tokens) as H.
  destruct (Limited.parse tokens) as [[stmts|e]|].
  - now destruct H as [-> _].
  - destruct H as [->|[_ H]]; [reflexivity | congruence].
  - now rewrite H.
Qed.

Lemma limited_parse_ok (tokens : list Token) (stmts : list stmt) :
  Limited.parse tokens = Some (Ok stmts) <->
  parse tokens = Some (Ok stmts) /\ literals_within_limit tokens = true.
Proof.
  split.
  - intros E; pose proof (parse_refines tokens) as H; now rewrite E in H.
  - intros [E Hlim]; now rewrite limited_parse_within.
Qed.

Lemma limited_parse_total (tokens : list Token) :
  exists r, Limited.parse tokens = Some r.
Proof.
  pose proof (parse_refines tokens) as H.
  destruct (Limited.parse tokens) as [r|]; [now exists r|].
  destruct (parse_total tokens) as [r Hr]; congruence.
Qed.

End LimitedParser.

(** ** Driver *)

Section LimitedDriver.

Context {F : Type} (ops : float_ops F).

Local Open Scope string_scope.

Lemma limited_translate_total (text : string) :
  exists r, Limited.translate ops text = Some r.
Proof.
  unfold Limited.translate.
  destruct (lex_total text) as [[tokens|e] ->]; [|now eexists].
  destruct (limited_parse_total tokens) as [[stmts|e] ->]; now eexists.
Qed.

(** what the [try] block returns is the text of a table of the program with
    the limit lifted, whose entries are within the limit *)
Lemma limited_translate_ok (text out : string) :
  Limited.translate ops text = Some (Ok out) ->
  exists consts,
    translate ops text = Some (Ok consts)
    /\ table_within_limit consts = true
    /\ out = to_toml ops consts.
Proof.
  unfold Limited.translate, translate.
  destruct (lex text) as [[tokens|e]|]; try discriminate.
  pose proof (parse_refines tokens) as H.
  destruct (Limited.parse tokens) as [[stmts|e]|]; try discriminate.
  destruct H as [-> _].
  destruct (run_stmts ops stmts []) as [consts|e]; [|discriminate].
  cbn [bind]; rewrite to_toml_cases.
  destruct (table_within_limit consts) eqn:E; [|discriminate].
  intros [= <-]; now exists consts.
Qed.

(** within the limit, the program does what it does with the limit lifted *)
Lemma limited_main_within (text : string) (tokens : list Token)
  (consts : @dict F) :
  lex text = Some (Ok tokens) ->
  literals_within_limit tokens = true ->
  translate ops text = Some (Ok consts) ->
  table_within_limit consts = true ->
  Limited.main ops text = main ops text.
Proof.
  intros Hl Hlim Ht Htab; rewrite main_translate, Ht.
  unfold Limited.main, Limited.translate; unfold translate in Ht.
  rewrite Hl in *; rewrite (limited_parse_within _ Hlim).
  destruct (Parser.parse tokens) as [[stmts|e]|]; try discriminate.
  injection Ht as ->; cbn [bind].
  now rewrite to_toml_cases, Htab.
Qed.

End LimitedDriver.

(* ================================================================= *)
(** * Parser: the point of a failure *)

Section ParserLocal.
Import Parser.

Local Open Scope list_scope.

Lemma hd_error_app {A} (pre ts1 ts2 : list A) :
  hd_error ts1 = hd_error ts2 -> hd_error (pre ++ ts1) = hd_error (pre ++ ts2).
Proof. now destruct pre. Qed.

(** a run on no token reads all *)
Lemma local_at_end {A} (m : M A) : local_on m [] -> reads_all (m []).
Proof.
  unfold local_on; destruct (m []) as [[[a ts']|e]|] eqn:E; [| |easy].
  - intros (pre & Hpre & _ & H).
    symmetry in Hpre; apply app_eq_nil in Hpre as [-> ->].
    rewrite E in H; now apply H.
  - intros (pre & rest & Hpre & _ & _ & H).
    symmetry in Hpre; apply app_eq_nil in Hpre as [-> ->].
    rewrite E in H; now apply H.
Qed.

Lemma local_ret {A} (a : A) ts : local_on (ret a) ts.
Proof.
  exists []; split; [reflexivity|]; split; [reflexivity|].
  intros _; reflexivity.
Qed.

Lemma local_out_of_fuel {A} ts : local_on (@out_of_fuel A) ts.
Proof. exact I. Qed.

Lemma local_peek ts : local_on peek ts.
Proof.
  exists []; split; [reflexivity|]; split.
  - intros ts2 H; unfold peek; cbn [List.app]; now rewrite H.
  - intros _; reflexivity.
Qed.

Lemma local_eat (t : tok_type) ts : local_on (eat t) ts.
Proof.
  destruct ts as [|tok ts]; unfold local_on; cbn [eat].
  - exists [], []; split; [reflexivity|]; split.
    { left; exists t; split; [reflexivity | discriminate]. }
    split.
    + intros [|tok2 rest2]; [reflexivity | discriminate].
    + intros _; left; now exists t.
  - destruct (tok_type_eqb (type tok) t) eqn:E.
    + exists [tok]; split; [reflexivity|]; split.
      * intros ts2 _; cbn [List.app eat]; now rewrite E.
      * intros _; cbn [eat]; now rewrite E.
    + exists [], (tok :: ts); split; [reflexivity|]; split.
      { left; exists t; split; [reflexivity|]; simpl; intros [= H].
        apply tok_type_eqb_eq in H; congruence. }
      split.
      * intros [|tok2 rest2]; [discriminate|]; intros [= ->].
        cbn [List.app eat]; now rewrite E.
      * discriminate.
Qed.

Lemma local_unexpected {A} (tok : Token) ts :
  local_on (@raise A (unexpected_error tok)) (tok :: ts).
Proof.
  exists [], (tok :: ts); split; [reflexivity|]; split.
  { right; left; now exists tok. }
  split; [reflexivity | discriminate].
Qed.

Lemma local_none {A} : local_on (@raise A none_type_error) [].
Proof.
  exists [], []; split; [reflexivity|]; split.
  { right; right; now split. }
  split; [reflexivity|]; intros _; now right.
Qed.

Lemma local_bind {A B} (m : M A) (f : A -> M B) :
  (forall ts, local_on m ts) ->
  (forall ts a ts', m ts = Some (Ok (a, ts')) -> local_on (f a) ts') ->
  forall ts, local_on (mbind m f) ts.
Proof.
  intros Hm Hf ts.
  assert (Hend : forall pre1 : list Token,
             reads_all (m pre1) -> reads_all (mbind m f pre1)).
  { intros pre1 H; unfold mbind.
    destruct (m pre1) as [[[a' ts1]|e']|] eqn:E'; [|exact H|exact I].
    cbn [reads_all] in H; subst ts1.
    exact (local_at_end _ (Hf _ _ _ E')). }
  pose proof (Hm ts) as Hts; unfold local_on in Hts |- *; unfold mbind at 1.
  destruct (m ts) as [[[a ts1]|e]|] eqn:E; [| |exact I].
  - destruct Hts as (pre1 & -> & Hloc1 & Hall1).
    pose proof (Hf _ _ _ E) as Hts1; unfold local_on in Hts1.
    assert (Htrunc : forall pre2 ts',
               ts1 = pre2 ++ ts' ->
               (hd_error pre2 = hd_error ts1 -> reads_all (f a pre2)) ->
               hd_error (pre1 ++ pre2) = hd_error (pre1 ++ ts1) ->
               reads_all (mbind m f (pre1 ++ pre2))).
    { intros pre2 ts' -> Hall2 Hhd.
      destruct pre2 as [|tok pre2].
      - rewrite app_nil_r in *; apply Hend, Hall1.
        rewrite Hhd; reflexivity.
      - unfold mbind; rewrite (Hloc1 (tok :: pre2)) by reflexivity.
        now apply Hall2. }
    destruct (f a ts1) as [[[b ts']|e]|]; [| |exact I].
    + destruct Hts1 as (pre2 & Hts1 & Hloc2 & Hall2).
      exists (pre1 ++ pre2); split; [subst ts1; apply app_assoc|]; split.
      * intros ts2 Hhd; rewrite <- app_assoc; unfold mbind.
        rewrite (Hloc1 (pre2 ++ ts2));
          [now apply Hloc2 | subst ts1; now apply hd_error_app].
      * now apply (Htrunc pre2 ts').
    + destruct Hts1 as (pre2 & rest & Hts1 & Hfail & Hloc2 & Hall2).
      exists (pre1 ++ pre2), rest; split; [subst ts1; apply app_assoc|].
      split; [exact Hfail|]; split.
      * intros rest2 Hhd; rewrite <- app_assoc; unfold mbind.
        rewrite (Hloc1 (pre2 ++ rest2));
          [now apply Hloc2 | subst ts1; now apply hd_error_app].
      * now apply (Htrunc pre2 rest).
  - destruct Hts as (pre & rest & -> & Hfail & Hloc & Hall).
    exists pre, rest; split; [reflexivity|]; split; [exact Hfail|]; split.
    + intros rest2 Hhd; unfold mbind; now rewrite (Hloc rest2 Hhd).
    + intros Hhd; now apply Hend, Hall.
Qed.

(** after [peek], what follows runs on tokens that start with the token
    that [peek] returned *)
Lemma local_peek_bind {A} (k : option Token -> M A) ts :
  (forall ts, local_on (k (hd_error ts)) ts) -> local_on (mbind peek k) ts.
Proof.
  intros H; apply local_bind; [apply local_peek|].
  intros ts0 a ts' [= <- <-]; apply H.
Qed.

Ltac local_step HL :=
  match goal with
  | |- local_on (ret _) _ => apply local_ret
  | |- local_on (raise (unexpected_error ?tok)) (?tok :: _) =>
      apply local_unexpected
  | |- local_on (raise none_type_error) [] => apply local_none
  | |- local_on (mbind peek _) _ =>
      apply local_peek_bind; intros [|? ?]; cbn [hd_error]
  | |- local_on (mbind (eat _) _) _ =>
      apply local_bind; [apply local_eat | intros ? ? ? _]
  | |- local_on (mbind _ _) _ =>
      apply local_bind; [apply HL | intros ? ? ? _]
  | |- local_on (if ?b then _ else _) _ => destruct b
  | |- local_on _ _ => solve [apply HL]
  end.

Lemma unfold_local (P : methods) :
  methods_local P -> methods_local (unfold_methods P).
Proof.
  intros HL.
  constructor; simpl; intros;
    unfold parse_value_body, parse_list_body, parse_list_loop_body,
      parse_const_expr_body, parse_expr_body, parse_expr_loop_body,
      parse_term_body;
    repeat local_step HL.
Qed.

Lemma methods_at_local (n : nat) : methods_local (methods_at n).
Proof.
  induction n as [|n IH]; [|now apply unfold_local].
  constructor; simpl; intros; apply local_out_of_fuel.
Qed.

Lemma parse_stmt_local (P : methods) ts :
  methods_local P -> local_on (parse_stmt_body P) ts.
Proof. intros HL; unfold parse_stmt_body; repeat local_step HL. Qed.

Lemma parse_loop_local (i : nat) (P : methods) (stmts : list stmt) ts :
  methods_local P -> local_on (parse_loop i P stmts) ts.
Proof.
  intros HL; revert stmts ts; induction i as [|i IH]; intros stmts ts;
    [apply local_out_of_fuel|].
  cbn [parse_loop]; apply local_peek_bind; intros [|tok ts0]; cbn [hd_error];
    [apply local_ret|].
  apply local_bind; [intros; now apply parse_stmt_local|].
  intros ts1 st ts' _; apply IH.
Qed.

End ParserLocal.

(** ** Texts without a comma *)

Section Commas.

Local Open Scope string_scope.

(** two texts with no comma, each followed by a comma and more, are read
    apart at the first comma *)
Lemma split_at_comma (t1 t2 r1 r2 : string) :
  comma_free t1 = true -> comma_free t2 = true ->
  t1 ++ String "," r1 = t2 ++ String "," r2 -> t1 = t2 /\ r1 = r2.
Proof.
  revert t2; induction t1 as [|c t1 IH]; intros [|d t2] H1 H2 H;
    cbn [append] in H.
  - now injection H as ->.
  - injection H as <- _; cbn [comma_free all_chars] in H2.
    now rewrite Ascii.eqb_refl in H2.
  - injection H as -> _; cbn [comma_free all_chars] in H1.
    now rewrite Ascii.eqb_refl in H1.
  - injection H as -> H; cbn [comma_free all_chars] in H1, H2.
    apply andb_true_iff in H1 as [_ H1]; apply andb_true_iff in H2 as [_ H2].
    destruct (IH t2 H1 H2 H) as [-> ->]; now split.
Qed.

Lemma tok_name_comma_free (t : tok_type) : comma_free (tok_name t) = true.
Proof. now destruct t. Qed.

Lemma tok_name_inj (t1 t2 : tok_type) : tok_name t1 = tok_name t2 -> t1 = t2.
Proof. destruct t1, t2; simpl; intros H; congruence. Qed.

End Commas.

Section ParserFailurePoint.
Import Parser.

Local Open Scope list_scope.

(** a run of the statement loop that ended, with any fuel, is the run of
    [parse] *)
Lemma parse_of_loop (i f : nat) (tokens : list Token)
  (r : result (list stmt)) :
  parse_with i f tokens = Some r -> parse tokens = Some r.
Proof.
  intros H; destruct (parse_total tokens) as [r0 H0]; rewrite H0.
  unfold parse in H0.
  pose proof (parse_with_more_fuel _ (Nat.max i (S (length tokens))) _
                (Nat.max f (enough tokens)) _ _ H
                (Nat.le_max_l _ _) (Nat.le_max_l _ _)) as H1.
  pose proof (parse_with_more_fuel _ (Nat.max i (S (length tokens))) _
                (Nat.max f (enough tokens)) _ _ H0
                (Nat.le_max_r _ _) (Nat.le_max_r _ _)) as H2.
  congruence.
Qed.

(** The point of a failure of [parse]: the tokens [pre] before it are read
    without failure, the failure is one of the three failures of
    [syntax_failure] on the tokens [rest] from it on, and it is the failure
    of the parser on every token sequence that starts with [pre] and goes on
    with the same token as [rest]. *)
Lemma parse_failure_point (tokens : list Token) (e : exn) :
  parse tokens = Some (Raise e) ->
  exists pre rest,
    tokens = pre ++ rest
    /\ syntax_failure rest e
    /\ ((exists stmts, parse pre = Some (Ok stmts))
        \/ (exists e0, parse pre = Some (Raise e0) /\ at_end_failure e0))
    /\ (forall rest2, hd_error rest2 = hd_error rest ->
                      parse (pre ++ rest2) = Some (Raise e)).
Proof.
  intros H; unfold parse, parse_with in H.
  pose proof (parse_loop_local (S (length tokens)) _ [] tokens
                (methods_at_local (enough tokens))) as HL.
  unfold local_on in HL.
  destruct (parse_loop _ _ [] tokens) as [[[stmts ts]|e']|] eqn:E;
    try discriminate.
  injection H as ->.
  destruct HL as (pre & rest & Hts & Hfail & Hloc & Hall).
  exists pre, rest; split; [exact Hts|]; split; [exact Hfail|]; split.
  - destruct pre as [|tok pre]; [left; now exists []|].
    subst tokens; specialize (Hall eq_refl).
    destruct (parse_total (tok :: pre)) as [r Hr].
    assert (Hr' : parse_with (S (length ((tok :: pre) ++ rest)))
                    (enough ((tok :: pre) ++ rest)) (tok :: pre) = Some r).
    { apply (parse_with_more_fuel _ _ _ _ _ _ Hr);
        unfold enough; rewrite length_app; lia. }
    unfold parse_with in Hr'.
    destruct (parse_loop _ _ [] (tok :: pre)) as [[[stmts ts]|e0]|];
      [| |discriminate]; injection Hr' as <-.
    + left; now exists stmts.
    + right; now exists e0.
  - intros rest2 Hhd.
    apply (parse_of_loop (S (length tokens)) (enough tokens)).
    unfold parse_with; now rewrite (Hloc rest2 Hhd).
Qed.

(** a failure on a token is no failure for lack of a token *)
Lemma failure_on_token (tok : Token) (rest : list Token) (e : exn) :
  syntax_failure (tok :: rest) e -> ~ at_end_failure e.
Proof.
  intros Hfail Hend.
  destruct Hfail as [(expected & He & _)|[(tok' & Htok & He)|[Hnil _]]];
    [| |discriminate Hnil]; subst e;
    destruct Hend as [[expected' H]|H]; try discriminate H.
  unfold expected_error in H; cbn [hd_error] in H; injection H as H.
  destruct (split_at_comma _ _ _ _ (tok_name_comma_free _)
              (tok_name_comma_free _) H) as [_ Hgot].
  destruct (type tok); discriminate Hgot.
Qed.

Lemma app_longer {A} (pre1 rest1 pre2 rest2 : list A) :
  pre1 ++ rest1 = pre2 ++ rest2 -> length pre1 < length pre2 ->
  exists x more, pre2 = pre1 ++ x :: more /\ rest1 = x :: more ++ rest2.
Proof.
  revert pre2; induction pre1 as [|a pre1 IH]; intros [|b pre2] H Hlen;
    cbn [length] in Hlen; try lia.
  - cbn [List.app] in H; subst rest1; now exists b, pre2.
  - cbn [List.app] in H; injection H as -> H.
    destruct (IH pre2 H) as (x & more & -> & ->); [lia|].
    now exists x, more.
Qed.

Lemma app_same_length {A} (pre1 rest1 pre2 rest2 : list A) :
  pre1 ++ rest1 = pre2 ++ rest2 -> length pre1 = length pre2 ->
  pre1 = pre2 /\ rest1 = rest2.
Proof.
  revert pre2; induction pre1 as [|a pre1 IH]; intros [|b pre2] H Hlen;
    try discriminate Hlen; [now split|].
  cbn [List.app] in H; injection H as -> H; injection Hlen as Hlen.
  destruct (IH pre2 H Hlen) as [-> ->]; now split.
Qed.

(** The point of a failure is one: the tokens before it are the longest
    prefix of the tokens that the parser reads without failure. *)
Lemma failure_point_unique (tokens pre1 rest1 pre2 rest2 : list Token)
  (e : exn) :
  literals_within_limit tokens = true ->
  tokens = pre1 ++ rest1 -> tokens = pre2 ++ rest2 ->
  syntax_failure rest1 e -> syntax_failure rest2 e ->
  (forall r, literals_within_limit r = true -> hd_error r = hd_error rest1 ->
             Limited.parse (pre1 ++ r) = Some (Raise e)) ->
  (forall r, literals_within_limit r = true -> hd_error r = hd_error rest2 ->
             Limited.parse (pre2 ++ r) = Some (Raise e)) ->
  ((exists stmts, Limited.parse pre1 = Some (Ok stmts))
   \/ (exists e0, Limited.parse pre1 = Some (Raise e0)
                  /\ at_end_failure e0)) ->
  ((exists stmts, Limited.parse pre2 = Some (Ok stmts))
   \/ (exists e0, Limited.parse pre2 = Some (Raise e0)
                  /\ at_end_failure e0)) ->
  pre1 = pre2 /\ rest1 = rest2.
Proof.
  assert (Hlt : forall p1 r1 p2 r2 : list Token,
             literals_within_limit (p2 ++ r2) = true ->
             p1 ++ r1 = p2 ++ r2 -> length p1 < length p2 ->
             syntax_failure r1 e ->
             (forall r, literals_within_limit r = true ->
                        hd_error r = hd_error r1 ->
                        Limited.parse (p1 ++ r) = Some (Raise e)) ->
             ((exists stmts, Limited.parse p2 = Some (Ok stmts))
              \/ (exists e0, Limited.parse p2 = Some (Raise e0)
                             /\ at_end_failure e0)) ->
             False).
  { intros p1 r1 p2 r2 Hlim Heq Hlen Hfail Hloc Hread.
    destruct (app_longer _ _ _ _ Heq Hlen) as (x & more & -> & ->).
    rewrite !literals_app in Hlim.
    apply andb_true_iff in Hlim as [Hlim _].
    apply andb_true_iff in Hlim as [_ Hlim].
    specialize (Hloc (x :: more) Hlim eq_refl).
    destruct Hread as [[stmts H]|(e0 & H & Hend)]; [congruence|].
    rewrite Hloc in H; injection H as <-.
    exact (failure_on_token _ _ _ Hfail Hend). }
  intros Hlim Heq1 Heq2 Hf1 Hf2 Hl1 Hl2 Hr1 Hr2.
  assert (Heq : pre1 ++ rest1 = pre2 ++ rest2) by congruence.
  destruct (Nat.lt_trichotomy (length pre1) (length pre2)) as [H|[H|H]].
  - rewrite Heq2 in Hlim.
    elim (Hlt pre1 rest1 pre2 rest2 Hlim Heq H Hf1 Hl1 Hr2).
  - exact (app_same_length _ _ _ _ Heq H).
  - rewrite Heq1 in Hlim.
    elim (Hlt pre2 rest2 pre1 rest1 Hlim (eq_sym Heq) H Hf2 Hl2 Hr1).
Qed.


(** X1.  Under the limit of the interpreter, the parser accepts exactly
    the token sequences of the grammar whose number literals are within the
    limit.  For tokens that the lexer can produce, [parse] returns the
    statements [stmts] for [tokens] if and only if [tokens] derives from
    [Program] with the syntax tree [stmts] (so a successful parse has read
    every token) and the text of every NUMBER token has at most 4300
    digits; and it raises if and only if that is not so. *)
Theorem parse_iff_grammar (tokens : list Token) :
  Forall token_wf tokens ->
  (forall stmts,
      Limited.parse tokens = Some (Ok stmts)
      <-> G_program tokens stmts /\ literals_within_limit tokens = true)
  /\ ((exists e, Limited.parse tokens = Some (Raise e))
      <-> ~ exists stmts,
            G_program tokens stmts /\ literals_within_limit tokens = true).
Proof.
  intros _.
  assert (Hiff : forall stmts,
             Limited.parse tokens = Some (Ok stmts)
             <-> G_program tokens stmts
                 /\ literals_within_limit tokens = true).
  { intros stmts; rewrite limited_parse_ok; split; intros [H1 H2];
      (split; [|exact H2]); [now apply parse_sound | now apply parse_complete]. }
  split; [exact Hiff|]; split.
  - intros [e He] [stmts HG]; apply Hiff in HG; congruence.
  - intros Hno; destruct (limited_parse_total tokens) as [[stmts|e] Hr];
      [|now exists e].
    elim Hno; exists stmts; now apply Hiff.
Qed.

End ParserFailurePoint.


Lemma parse_iff_grammar_witness :
  (forall stmts,
      Limited.parse
        [mkToken SET "set"; mkToken IDENT "A"; mkToken EQUAL "=";
         mkToken NUMBER "1"; mkToken SEMICOLON ";"] = Some (Ok stmts)
      <-> G_program
            [mkToken SET "set"; mkToken IDENT "A"; mkToken EQUAL "=";
             mkToken NUMBER "1"; mkToken SEMICOLON ";"] stmts
          /\ literals_within_limit
               [mkToken SET "set"; mkToken IDENT "A"; mkToken EQUAL "=";
                mkToken NUMBER "1"; mkToken SEMICOLON ";"] = true)
  /\ ((exists e,
          Limited.parse
            [mkToken SET "set"; mkToken IDENT "A"; mkToken EQUAL "=";
             mkToken NUMBER "1"; mkToken SEMICOLON ";"] = Some (Raise e))
      <-> ~ exists stmts,
            G_program
              [mkToken SET "set"; mkToken IDENT "A"; mkToken EQUAL "=";
               mkToken NUMBER "1"; mkToken SEMICOLON ";"] stmts
            /\ literals_within_limit
                 [mkToken SET "set"; mkToken IDENT "A"; mkToken EQUAL "=";
                  mkToken NUMBER "1"; mkToken SEMICOLON ";"] = true).
Proof.
  apply parse_iff_grammar.
  repeat constructor; simpl; discriminate.
Defined.

(** ** The output under the limit *)

Section LimitedOutput.

Context {F : Type} (ops : float_ops F).

Local Open Scope string_scope.

(** C1, as amended.  For every valid program in which every number
    literal has at most 4300 digits, whose statements declare pairwise
    distinct names and are typed (every name referred to is declared by an
    earlier statement, [+] adds two ints or two lists, [-], [pow] and [abs]
    work on ints, and no exponent is negative), and whose table holds no int
    of more than 4300 digits, the pipeline succeeds under the limit of the
    interpreter, and the output is one line per statement, in declaration
    order: the line of a statement is its lower-cased name, [ = ], and the
    value the statement evaluates to in the table of the statements before
    it. *)
Theorem valid_program_output (text : string) (stmts : list stmt) :
  valid_program text stmts ->
  (forall tokens,
      lex text = Some (Ok tokens) -> literals_within_limit tokens = true) ->
  NoDup (map stmt_name stmts) ->
  program_typed ops [] stmts = true ->
  (forall consts,
      run_stmts ops stmts [] = Ok consts ->
      table_within_limit consts = true) ->
  exists consts,
    run_stmts ops stmts [] = Ok consts
    /\ Limited.main ops text
       = Some (Py.join line_break (map (toml_line ops) consts))
    /\ length (map (toml_line ops) consts) = length stmts
    /\ Forall (fun line => single_line line = true)
         (map (toml_line ops) consts)
    /\ forall done name val rest,
         stmts = (done ++ S_set name val :: rest)%list ->
         exists c v,
           run_stmts ops done [] = Ok c
           /\ eval_value ops val c = Ok v
           /\ nth_error (map (toml_line ops) consts) (length done)
              = Some (Py.lower name ++ " = " ++ py_str ops v).
Proof.
  intros Hvalid Hlits Hnd Hty Htab.
  destruct (valid_program_table ops text stmts Hvalid Hnd Hty)
    as (consts & Hrun & Hmain & Hrest).
  exists consts; split; [exact Hrun|]; split; [|exact Hrest].
  destruct Hvalid as (tokens & Hlex & Hg).
  rewrite (limited_main_within ops text tokens consts Hlex (Hlits _ Hlex));
    [exact Hmain | | exact (Htab _ Hrun)].
  unfold translate; now rewrite Hlex, (parse_complete _ _ Hg), Hrun.
Qed.

(** in lower case, a name of the language is what the specification calls
    its lower case *)
Lemma lower_lowercased (name : string) :
  all_chars Py.is_upper name = true -> Py.lower name = lowercased name.
Proof.
  induction name as [|c name IH]; [reflexivity|].
  cbn [all_chars Py.lower lowercased]; intros H.
  apply andb_true_iff in H as [Hc Hname]; rewrite (IH Hname); f_equal.
  destruct c as [[] [] [] [] [] [] [] []]; try discriminate Hc; reflexivity.
Qed.

Lemma join_concat (sep : string) (lines : list string) :
  Py.join sep lines = String.concat sep lines.
Proof.
  induction lines as [|l lines IH]; [reflexivity|].
  cbn [Py.join String.concat]; now rewrite IH.
Qed.

Lemma py_repr_rendered (v : pyval F) : py_repr ops v = rendered ops v.
Proof.
  rewrite py_repr_render.
  induction v as [z|l IH|f] using pyval_induction; [reflexivity| |reflexivity].
  cbn [render rendered]; rewrite join_concat.
  apply (f_equal (fun items => "[" ++ String.concat ", " items ++ "]")).
  now apply map_ext_Forall.
Qed.

(** C6, as amended.  For every table whose keys are names of the
    language, as the keys of every final table are, and whose ints have at
    most 4300 digits, the serializer puts out one line per entry of the
    table, in the order of the table, joined by single line feeds with none
    after the last line; a line is the name with every upper-case letter
    replaced by its lower-case letter, [ = ], and the value, where an int is
    written in base 10 (its decimal reading is the int again) and a list is
    written as its items, each written the same way, separated by a comma
    and a space, in brackets, the empty list as [[]]. *)
Theorem to_toml_renders_table (consts : @dict F) :
  Forall (fun kv => name_ok (fst kv) = true) consts ->
  table_within_limit consts = true ->
  Limited.to_toml ops consts = Ok (to_toml_spec ops consts)
  /\ (forall l : list (pyval F),
         py_str ops (VList l)
         = "[" ++ String.concat ", " (map (py_str ops) l) ++ "]")
  /\ py_str ops (VList []) = "[]"
  /\ (forall z, option_map Z.of_int (NilZero.int_of_string (py_str ops (VInt z)))
                = Some z).
Proof.
  intros Hkeys Hlim; split.
  { rewrite to_toml_cases, Hlim, to_toml_lines, join_concat.
    unfold to_toml_spec; do 2 f_equal; apply map_ext_in; intros [k v] Hin.
    rewrite Forall_forall in Hkeys; specialize (Hkeys _ Hin).
    cbn [fst] in Hkeys; unfold name_ok in Hkeys;
      apply andb_true_iff in Hkeys as [_ Hk].
    unfold toml_line, py_str; cbn [fst snd].
    now rewrite py_repr_rendered, (lower_lowercased _ Hk). }
  split.
  { intros l; unfold py_str; cbn [py_repr].
    now rewrite (proj1 (repr_items_join _ l)), join_concat. }
  split; [reflexivity|].
  intros z; unfold py_str; cbn [py_repr].
  destruct (str_of_int_decimal z) as [-> Hz]; simpl; now rewrite Hz.
Qed.

(** X10.  The output tells a failure from a success: it begins with
    [ERROR = ] exactly when the [try] block of [main] raised, in the lexer,
    in the parser (a syntax error, or [int] on a number literal over the
    limit), in the evaluator, or in the serializer ([str] on an int over the
    limit).  (The keys of a successful output are in lower case, so no line
    of it begins with [ERROR].) *)
Theorem output_marks_failure (text out : string) :
  Limited.main ops text = Some out ->
  (String.prefix "ERROR = " out = true
   <-> exists e, Limited.translate ops text = Some (Raise e)).
Proof.
  unfold Limited.main.
  destruct (Limited.translate ops text) as [[toml_text|e]|] eqn:E;
    try discriminate.
  - intros [= <-].
    destruct (limited_translate_ok _ _ _ E) as (consts & Ht & _ & ->).
    rewrite (to_toml_not_error _ _ (translate_keys _ _ _ Ht)).
    split; [discriminate | intros [e He]; discriminate He].
  - intros [= <-]; unfold error_text; rewrite prefix_append.
    split; [now exists e | reflexivity].
Qed.

(** *** Over the limit *)

Lemma int_digits_bound (s : string) (acc : Z) :
  all_chars Py.is_digit s = true -> (0 <= acc)%Z ->
  (Py.int_digits acc s < (acc + 1) * 10 ^ Z.of_nat (String.length s))%Z.
Proof.
  revert acc; induction s as [|c s IH]; intros acc H Hacc;
    cbn [Py.int_digits all_chars String.length] in *.
  - change (Z.of_nat 0) with 0%Z; rewrite Z.pow_0_r; lia.
  - apply andb_true_iff in H as [Hc Hs].
    pose proof (digit_val_range _ Hc) as Hd.
    assert (Hacc' : (0 <= 10 * acc + Py.digit_val c)%Z) by lia.
    specialize (IH _ Hs Hacc').
    rewrite Nat2Z.inj_succ, Z.pow_succ_r by lia.
    pose proof (Z.pow_pos_nonneg 10 (Z.of_nat (String.length s))) as Hp.
    nia.
Qed.

(** an int that is not negative is below the power of ten of its number of
    digits *)
Lemma digits_bound (z : Z) :
  (0 <= z)%Z -> (z < 10 ^ Z.of_nat (Limited.digits z))%Z.
Proof.
  intros Hz; unfold Limited.digits; rewrite (Z.abs_eq z Hz).
  assert (Hd : all_chars Py.is_digit (Py.str_of_int z) = true).
  { destruct z as [|p|p]; [reflexivity| |lia].
    destruct (str_of_int_pos p) as [-> _]; apply uint_digits. }
  pose proof (int_digits_bound _ 0 Hd (Z.le_refl 0)) as Hb.
  fold (Py.int (Py.str_of_int z)) in Hb; rewrite (int_str_of_int z Hz) in Hb.
  lia.
Qed.

(** an int at or beyond the power of ten of [n] has more than [n] digits *)
Lemma digits_over (n : nat) (z : Z) :
  (10 ^ Z.of_nat n <= Z.abs z)%Z -> (Limited.digits z <=? n)%nat = false.
Proof.
  intros H; apply Nat.leb_gt.
  assert (Hd : Limited.digits z = Limited.digits (Z.abs z))
    by (unfold Limited.digits; now rewrite Z.abs_idemp).
  rewrite Hd; pose proof (digits_bound _ (Z.abs_nonneg z)) as Hb.
  apply Nat2Z.inj_lt, (Z.pow_lt_mono_r_iff 10); lia.
Qed.

(** the serializer raises on an int over the limit *)
Lemma to_toml_over (name : string) (z : Z) :
  (10 ^ Z.of_nat Limited.max_str_digits <= Z.abs z)%Z ->
  Limited.to_toml ops [(name, VInt z)] = Raise Limited.str_limit_error.
Proof.
  intros H; rewrite to_toml_cases; unfold table_within_limit.
  cbn [forallb snd value_within_limit]; now rewrite (digits_over _ _ H).
Qed.

(** and so the output is the error line of [str] *)
Lemma main_over_limit (text : string) (tokens : list Token)
  (stmts : list stmt) (name : string) (z : Z) :
  lex text = Some (Ok tokens) ->
  Limited.parse tokens = Some (Ok stmts) ->
  run_stmts ops stmts [] = Ok [(name, VInt z)] ->
  (10 ^ Z.of_nat Limited.max_str_digits <= Z.abs z)%Z ->
  Limited.main ops text = Some (error_text Limited.str_limit_error).
Proof.
  intros Hlex Hparse Hrun Hz; unfold Limited.main, Limited.translate.
  rewrite Hlex, Hparse, Hrun; cbn [bind].
  now rewrite (to_toml_over _ _ Hz).
Qed.

End LimitedOutput.

Lemma valid_program_output_witness :
  exists consts,
    run_stmts example_ops
      [S_set "A" (V_number 5);
       S_set "B" (V_const (E_PLUS (E_var "A") (E_num 1)))] [] = Ok consts
    /\ Limited.main example_ops "set A = 5; set B = ^{ A + 1 };"
       = Some (Py.join line_break (map (toml_line example_ops) consts))
    /\ length (map (toml_line example_ops) consts) = 2
    /\ Forall (fun line => single_line line = true)
         (map (toml_line example_ops) consts)
    /\ forall done name val rest,
         [S_set "A" (V_number 5);
          S_set "B" (V_const (E_PLUS (E_var "A") (E_num 1)))]
         = (done ++ S_set name val :: rest)%list ->
         exists c v,
           run_stmts example_ops done [] = Ok c
           /\ eval_value example_ops val c = Ok v
           /\ nth_error (map (toml_line example_ops) consts) (length done)
              = Some (Py.lower name ++ " = " ++ py_str example_ops v).
Proof.
  apply (valid_program_output example_ops "set A = 5; set B = ^{ A + 1 };"
           [S_set "A" (V_number 5);
            S_set "B" (V_const (E_PLUS (E_var "A") (E_num 1)))]).
  - exact valid_two_constants.
  - intros tokens H; vm_compute in H; injection H as <-; reflexivity.
  - constructor; [|constructor; [|constructor]]; simpl.
    + intros [H|[]]; discriminate H.
    + intros [].
  - vm_compute; reflexivity.
  - intros consts H; vm_compute in H; injection H as <-; reflexivity.
Defined.

(** ten to the power 4300 has more than 4300 digits *)
Lemma power_over_limit :
  (10 ^ Z.of_nat Limited.max_str_digits <= Z.abs (10 ^ 4300))%Z.
Proof.
  change (Z.of_nat Limited.max_str_digits) with 4300%Z.
  rewrite Z.abs_eq; [apply Z.le_refl | apply Z.pow_nonneg; discriminate].
Qed.

Lemma pow_program_tokens :
  lex "set A = ^{ pow(10, 4300) };"
  = Some (Ok [mkToken SET "set"; mkToken IDENT "A"; mkToken EQUAL "=";
              mkToken CARET "^"; mkToken LBRACE "{"; mkToken POW "pow";
              mkToken LPAREN "("; mkToken NUMBER "10"; mkToken COMMA ",";
              mkToken NUMBER "4300"; mkToken RPAREN ")";
              mkToken RBRACE "}"; mkToken SEMICOLON ";"]).
Proof. vm_compute; reflexivity. Qed.

Lemma pow_program_tree :
  Limited.parse
    [mkToken SET "set"; mkToken IDENT "A"; mkToken EQUAL "=";
     mkToken CARET "^"; mkToken LBRACE "{"; mkToken POW "pow";
     mkToken LPAREN "("; mkToken NUMBER "10"; mkToken COMMA ",";
     mkToken NUMBER "4300"; mkToken RPAREN ")";
     mkToken RBRACE "}"; mkToken SEMICOLON ";"]
  = Some (Ok [S_set "A" (V_const (E_pow (E_num 10) (E_num 4300)))]).
Proof. vm_compute; reflexivity. Qed.

(** The limit is met by valid, typed programs: the program below raises
    ten to the power 4300, an int of 4301 digits, and the output is the
    error line of [str]. *)
Lemma valid_program_over_limit :
  valid_program "set A = ^{ pow(10, 4300) };"
    [S_set "A" (V_const (E_pow (E_num 10) (E_num 4300)))]
  /\ program_typed example_ops []
       [S_set "A" (V_const (E_pow (E_num 10) (E_num 4300)))] = true
  /\ run_stmts example_ops
       [S_set "A" (V_const (E_pow (E_num 10) (E_num 4300)))] []
     = Ok [("A", VInt (10 ^ 4300))]
  /\ Limited.main example_ops "set A = ^{ pow(10, 4300) };"
     = Some ("ERROR = " ++ dquote
             ++ "Exceeds the limit (4300 digits) for integer string "
             ++ "conversion; use sys.set_int_max_str_digits() to increase "
             ++ "the limit" ++ dquote).
Proof.
  pose proof pow_program_tree as Htree.
  apply limited_parse_ok in Htree as [Htree _].
  split; [|split; [reflexivity|]; split; [reflexivity|]].
  - eexists; split; [exact pow_program_tokens|].
    exact (parse_sound _ _ Htree).
  - exact (main_over_limit example_ops _ _ _ "A" (10 ^ 4300)
             pow_program_tokens pow_program_tree eq_refl power_over_limit).
Qed.

(** C6 as stated fails: the table below is the final table of the program
    [set A = ^{ pow(10, 4300) };], and the serializer raises on it and puts
    out no line. *)
Lemma to_toml_over_limit :
  translate example_ops "set A = ^{ pow(10, 4300) };"
  = Some (Ok [("A", VInt (10 ^ 4300))])
  /\ Limited.to_toml example_ops [("A", VInt (10 ^ 4300))]
     = Raise (Builtin ValueError
                ("Exceeds the limit (4300 digits) for integer string "
                 ++ "conversion; use sys.set_int_max_str_digits() to "
                 ++ "increase the limit")).
Proof.
  split; [|exact (to_toml_over example_ops _ _ power_over_limit)].
  pose proof pow_program_tree as Htree.
  apply limited_parse_ok in Htree as [Htree _].
  unfold translate; now rewrite pow_program_tokens, Htree.
Qed.

Lemma to_toml_renders_table_witness :
  Limited.to_toml example_ops
    [("A", VInt 5); ("LIMIT", VList [VInt (-1); VList []])]
  = Ok (to_toml_spec example_ops
          [("A", VInt 5); ("LIMIT", VList [VInt (-1); VList []])])
  /\ (forall l : list (pyval (Z * Z)),
         py_str example_ops (VList l)
         = "[" ++ String.concat ", " (map (py_str example_ops) l) ++ "]")
  /\ py_str example_ops (VList []) = "[]"
  /\ (forall z, option_map Z.of_int
                  (NilZero.int_of_string (py_str example_ops (VInt z)))
                = Some z).
Proof.
  apply to_toml_renders_table; [|reflexivity].
  repeat constructor.
Defined.

Lemma output_marks_failure_witness :
  String.prefix "ERROR = "
    ("ERROR = " ++ dquote ++ "SyntaxError: Unexpected token SEMICOLON"
     ++ dquote) = true
  <-> exists e, Limited.translate example_ops "set A = ;" = Some (Raise e).
Proof. apply output_marks_failure; vm_compute; reflexivity. Defined.

(** ** Printing a token *)

Section TokenRepr.

Local Open Scope string_scope.

Lemma append_inj_r (s t u : string) : s ++ u = t ++ u -> s = t.
Proof.
  revert t; induction s as [|c s IH]; intros t H.
  - destruct t as [|d t]; [reflexivity|].
    apply (f_equal String.length) in H; cbn [append] in H.
    cbn [String.length] in H; rewrite length_append in H; lia.
  - destruct t as [|d t].
    + apply (f_equal String.length) in H; cbn [append] in H.
      cbn [String.length] in H; rewrite length_append in H; lia.
    + cbn [append] in H; injection H as -> H; f_equal; now apply IH.
Qed.

(** X18.  What the printed form of a token tells.  [Token] takes any
    string as the kind; when the kinds of two tokens hold no comma, tokens
    that [Token.__repr__] prints alike have the same kind and the same text.
    So it is for the tokens of [lex], whose kinds are names of the token
    table.  It is not so in general: a kind with a comma prints like a
    shorter kind with a longer text. *)
Theorem repr_injective :
  (forall type1 value1 type2 value2 : string,
      comma_free type1 = true -> comma_free type2 = true ->
      repr_text type1 value1 = repr_text type2 value2 ->
      type1 = type2 /\ value1 = value2)
  /\ (forall tok1 tok2 : Token, __repr__ tok1 = __repr__ tok2 -> tok1 = tok2)
  /\ repr_text "A,B" "C" = repr_text "A" "B,C".
Proof.
  assert (Hinj : forall type1 value1 type2 value2 : string,
             comma_free type1 = true -> comma_free type2 = true ->
             repr_text type1 value1 = repr_text type2 value2 ->
             type1 = type2 /\ value1 = value2).
  { intros t1 v1 t2 v2 H1 H2 H; unfold repr_text in H.
    cbn [append] in H; injection H as H.
    destruct (split_at_comma _ _ _ _ H1 H2 H) as [-> Hv].
    split; [reflexivity | exact (append_inj_r _ _ ")" Hv)]. }
  split; [exact Hinj|]; split; [|reflexivity].
  intros [t1 v1] [t2 v2]; unfold __repr__; cbn [type value]; intros H.
  destruct (Hinj _ _ _ _ (tok_name_comma_free t1) (tok_name_comma_free t2) H)
    as [Ht ->].
  now rewrite (tok_name_inj _ _ Ht).
Qed.

End TokenRepr.
